(** * Stereobuddy geometry engine: solver, scene store and view framer

    Shallow embedding of [src/hooks/useGeometryEngine.tsx] (the React
    provider's [solve], [addObject], [addConstraint] and
    [computeOptimalView] callbacks), with the data shapes of
    [src/types.ts] and the constants of [src/constants.ts].

    JavaScript numbers are kept behind the interface [Number], so that
    the one transcription of the code runs on IEEE binary64 with the
    [null] that a JSON copy can leave in the place of a number (the
    values the program really computes on, instance [Binary64]) and
    can be reasoned about in exact real arithmetic (instance
    [Exact]). *)

From Stdlib Require Import List Ascii String Bool Arith ZArith Lia Permutation.
From Stdlib Require Import Reals Lra Psatz.
From Stdlib Require Import PrimFloat.
Import ListNotations.

Set Implicit Arguments.

(** ** JavaScript values *)

(** The arithmetic of JS [number] used by the engine. The named
    constants are the numeric literals that occur in the source. *)
Class Number (F : Type) : Type := {
  fadd : F -> F -> F;
  fsub : F -> F -> F;
  fmul : F -> F -> F;
  fdiv : F -> F -> F;
  fsqrt : F -> F;            (* Math.sqrt *)
  fabs : F -> F;             (* Math.abs *)
  fmax : F -> F -> F;        (* Math.max *)
  fmin : F -> F -> F;        (* Math.min *)
  fltb : F -> F -> bool;     (* a < b *)
  ftruthy : F -> bool;       (* ToBoolean on a number *)
  fjson : F -> F;            (* JSON.parse(JSON.stringify(x)) *)
  lit_0 : F;
  lit_1 : F;
  lit_4 : F;
  lit_5 : F;
  lit_0_5 : F;
  lit_0_8 : F;
  lit_0_001 : F;
  lit_0_0001 : F
}.

(** Exceptions the engine can raise. *)
Inductive JsError : Type := TypeError.

Inductive result (A : Type) : Type :=
| Ok (a : A)
| Throw (e : JsError).

Arguments Ok {A} a.
Arguments Throw {A} e.

Definition bind {A B : Type} (m : result A) (k : A -> result B) : result B :=
  match m with
  | Ok a => k a
  | Throw e => Throw e
  end.

Notation "x <- m ;; k" := (bind m (fun x => k))
  (at level 61, m at next level, right associativity).
Notation "' p <- m ;; k" := (bind m (fun x => match x with p => k end))
  (at level 61, p pattern, m at next level, right associativity).

(** ToBoolean on an optional string: [undefined] and the empty string
    are falsy. *)
Definition truthy_string (s : option string) : bool :=
  match s with
  | Some v => negb (String.eqb v EmptyString)
  | None => false
  end.

(** ToBoolean on an optional boolean ([undefined] is falsy). *)
Definition truthy_bool (b : option bool) : bool :=
  match b with
  | Some v => v
  | None => false
  end.

(** Strict equality [===] on optional strings ([None] is [undefined]). *)
Definition strict_eqb (a b : option string) : bool :=
  match a, b with
  | Some x, Some y => String.eqb x y
  | None, None => true
  | _, _ => false
  end.

(** ** types.ts *)

Inductive ObjectType : Type :=
| POINT | LINE | SEGMENT | PLANE | POLYGON | PRISM | CIRCLE.

Inductive ConstraintType : Type :=
| DISTANCE | ANGLE | PARALLEL | PERPENDICULAR | POINT_ON_PLANE
| POINT_ON_LINE | MIDPOINT | EQUAL_LENGTH | FIXED_COORD.

Definition ObjectType_eqb (a b : ObjectType) : bool :=
  match a, b with
  | POINT, POINT | LINE, LINE | SEGMENT, SEGMENT | PLANE, PLANE
  | POLYGON, POLYGON | PRISM, PRISM | CIRCLE, CIRCLE => true
  | _, _ => false
  end.

Section Types.
Variable F : Type.

Definition Point3 : Type := (F * F * F)%type.

(** The [data] bag of a GeometryObject. Of its open-ended extension
    fields the engine reads [p1], [p2] and [points]. *)
Record ObjectData : Type := {
  position : option Point3;
  normal : option Point3;
  radius : option F;
  height : option F;
  data_p1 : option string;
  data_p2 : option string;
  data_points : option (list string)
}.

Record GeometryObject : Type := {
  obj_id : option string;
  obj_type : ObjectType;
  obj_name : string;
  color : option string;
  visible : option bool;
  selected : option bool;
  fixed : option bool;
  points : option (list string);
  data : option ObjectData
}.

Record Constraint : Type := {
  c_id : string;
  c_type : ConstraintType;
  objectIds : list string;
  targetValue : option F;
  tolerance : option F;
  enabled : option bool;
  residual : option F
}.

Record CameraPose : Type := {
  cam_position : Point3;
  cam_target : Point3
}.

(** The [solverStats] state. *)
Record SolverStats : Type := {
  iterations : nat;
  totalError : F;
  verified : nat;
  total : nat
}.
End Types.

Arguments Build_ObjectData {F}.
Arguments Build_GeometryObject {F}.
Arguments Build_Constraint {F}.
Arguments Build_CameraPose {F}.
Arguments Build_SolverStats {F}.
Arguments obj_id {F} g.
Arguments obj_type {F} g.
Arguments enabled {F} c.

Section Engine.
Context {F : Type} {NF : Number F}.

Local Abbreviation Vec := (Point3 F).
Local Abbreviation Obj := (GeometryObject F).
Local Abbreviation Con := (Constraint F).

(** ** three.js Vector3 and Box3, as the engine uses them *)

Definition vadd (a b : Vec) : Vec :=
  let '(ax, ay, az) := a in let '(bx, by_, bz) := b in
  (fadd ax bx, fadd ay by_, fadd az bz).

Definition vsub (a b : Vec) : Vec :=
  let '(ax, ay, az) := a in let '(bx, by_, bz) := b in
  (fsub ax bx, fsub ay by_, fsub az bz).

Definition multiplyScalar (a : Vec) (s : F) : Vec :=
  let '(ax, ay, az) := a in (fmul ax s, fmul ay s, fmul az s).

Definition distanceToSquared (a b : Vec) : F :=
  let '(dx, dy, dz) := vsub a b in
  fadd (fadd (fmul dx dx) (fmul dy dy)) (fmul dz dz).

Definition distanceTo (a b : Vec) : F := fsqrt (distanceToSquared a b).

Definition vlength (a : Vec) : F :=
  let '(ax, ay, az) := a in
  fsqrt (fadd (fadd (fmul ax ax) (fmul ay ay)) (fmul az az)).

(** [normalize()] is [divideScalar(length() || 1)], and
    [divideScalar(s)] is [multiplyScalar(1 / s)]. *)
Definition normalize (a : Vec) : Vec :=
  let len := vlength a in
  multiplyScalar a (fdiv lit_1 (if ftruthy len then len else lit_1)).

(** A Box3 is empty until the first point is added; afterwards it is
    its [min] and [max] corners. *)
Definition Box3 : Type := option (Vec * Vec).

Definition expandByPoint (box : Box3) (p : Vec) : Box3 :=
  match box with
  | None => Some (p, p)
  | Some (lo, hi) =>
      let '(lx, ly, lz) := lo in
      let '(hx, hy, hz) := hi in
      let '(px, py, pz) := p in
      Some ((fmin lx px, fmin ly py, fmin lz pz),
            (fmax hx px, fmax hy py, fmax hz pz))
  end.

Definition getCenter (box : Box3) : Vec :=
  match box with
  | None => (lit_0, lit_0, lit_0)
  | Some (lo, hi) => multiplyScalar (vadd lo hi) lit_0_5
  end.

Definition getSize (box : Box3) : Vec :=
  match box with
  | None => (lit_0, lit_0, lit_0)
  | Some (lo, hi) => vsub hi lo
  end.

(** ** constants.ts *)

Definition INITIAL_CAMERA_POS : Vec := (lit_5, lit_5, lit_5).
Definition INITIAL_CAMERA_TARGET : Vec := (lit_0, lit_0, lit_0).

(** ** Object access *)

(** [o.data?.position] *)
Definition obj_position (o : Obj) : option Vec :=
  match data o with
  | Some d => position d
  | None => None
  end.

(** [...o.data!.position!] : reading through an absent [data] or
    spreading an absent [position] raises a TypeError. *)
Definition read_position (o : Obj) : result Vec :=
  match obj_position o with
  | Some p => Ok p
  | None => Throw TypeError
  end.

(** [o.data.position = p] on an object whose [data] is present. *)
Definition with_position (p : Vec) (o : Obj) : Obj :=
  match data o with
  | Some d =>
      Build_GeometryObject (obj_id o) (obj_type o) (obj_name o) (color o)
        (visible o) (selected o) (fixed o) (points o)
        (Some (Build_ObjectData (Some p) (normal d) (radius d) (height d)
                 (data_p1 d) (data_p2 d) (data_points d)))
  | None => o
  end.

(** [currentObjects.find(o => o.id === id)] *)
Definition find_obj (oid : option string) (objs : list Obj) : option Obj :=
  find (fun o => strict_eqb (obj_id o) oid) objs.

(** The effect on [currentObjects] of mutating the object that
    [find_obj oid] returned: the first entry with that id changes in
    place. *)
Fixpoint update_found (oid : option string) (f : Obj -> Obj)
    (objs : list Obj) : list Obj :=
  match objs with
  | [] => []
  | o :: rest =>
      if strict_eqb (obj_id o) oid then f o :: rest
      else o :: update_found oid f rest
  end.

(** ** The working copy of solve *)

(** [JSON.parse(JSON.stringify(objectsRef.current))]. Keys, strings,
    booleans and arrays come back as they are, and an absent key stays
    absent; every number comes back as what its JSON text denotes. *)
Definition JSON_point (p : Vec) : Vec :=
  let '(x, y, z) := p in (fjson x, fjson y, fjson z).

Definition JSON_data (d : ObjectData F) : ObjectData F :=
  Build_ObjectData (option_map JSON_point (position d))
    (option_map JSON_point (normal d)) (option_map fjson (radius d))
    (option_map fjson (height d)) (data_p1 d) (data_p2 d) (data_points d).

Definition JSON_object (o : Obj) : Obj :=
  Build_GeometryObject (obj_id o) (obj_type o) (obj_name o) (color o)
    (visible o) (selected o) (fixed o) (points o)
    (option_map JSON_data (data o)).

Definition JSON_copy (objs : list Obj) : list Obj := map JSON_object objs.

(** ** solve *)

Definition MAX_ITER : nat := 50.
Definition LEARNING_RATE : F := lit_0_5.

(** [c.targetValue || 0] *)
Definition target_of (c : Con) : F :=
  match targetValue c with
  | Some t => if ftruthy t then t else lit_0
  | None => lit_0
  end.

(** The loop state inside one iteration: the working copy of the
    objects, and [iterError]. *)
Definition PassState : Type := (list Obj * F)%type.

(** The DISTANCE branch. *)
Definition distance_step (c : Con) (st : PassState) : PassState :=
  let '(currentObjects, iterError) := st in
  let id1 := nth_error (objectIds c) 0 in
  let id2 := nth_error (objectIds c) 1 in
  match find_obj id1 currentObjects, find_obj id2 currentObjects with
  | Some p1, Some p2 =>
      match obj_position p1, obj_position p2 with
      | Some v1, Some v2 =>
          let dist := distanceTo v1 v2 in
          let target := target_of c in
          let diff := fsub dist target in
          let iterError := fadd iterError (fabs diff) in
          if fltb lit_0_0001 dist then
            let correction :=
              fmul (fmul (fdiv diff dist) lit_0_5) LEARNING_RATE in
            let offset := multiplyScalar (vsub v2 v1) correction in
            let objs1 :=
              if negb (truthy_bool (fixed p1))
              then update_found id1 (with_position (vadd v1 offset))
                     currentObjects
              else currentObjects in
            let objs2 :=
              if negb (truthy_bool (fixed p2))
              then update_found id2 (with_position (vsub v2 offset)) objs1
              else objs1 in
            (objs2, iterError)
          else (currentObjects, iterError)
      | _, _ => st
      end
  | _, _ => st
  end.

(** The MIDPOINT branch. *)
Definition midpoint_step (c : Con) (st : PassState) : result PassState :=
  let '(currentObjects, iterError) := st in
  let midId := nth_error (objectIds c) 0 in
  let idA := nth_error (objectIds c) 1 in
  let idB := nth_error (objectIds c) 2 in
  match find_obj midId currentObjects, find_obj idA currentObjects,
        find_obj idB currentObjects with
  | Some M, Some A, Some B =>
      vM <- read_position M ;;
      vA <- read_position A ;;
      vB <- read_position B ;;
      let targetM := multiplyScalar (vadd vA vB) lit_0_5 in
      let diff := distanceTo vM targetM in
      let iterError := fadd iterError diff in
      if negb (truthy_bool (fixed M)) then
        let move := multiplyScalar (vsub targetM vM) LEARNING_RATE in
        Ok (update_found midId (with_position (vadd vM move))
              currentObjects, iterError)
      else Ok (currentObjects, iterError)
  | _, _, _ => Ok st
  end.

(** The body of [activeConstraints.forEach]. *)
Definition constraint_step (c : Con) (st : PassState) : result PassState :=
  match c_type c with
  | DISTANCE => Ok (distance_step c st)
  | MIDPOINT => midpoint_step c st
  | _ => Ok st
  end.

(** [activeConstraints.forEach(...)] from a given loop state. *)
Fixpoint forEach (cs : list Con) (st : PassState) : result PassState :=
  match cs with
  | [] => Ok st
  | c :: rest => st' <- constraint_step c st ;; forEach rest st'
  end.

(** One iteration of the [for] loop up to the convergence test:
    [iterError] starts at 0. *)
Definition pass (active : list Con) (currentObjects : list Obj)
    : result PassState :=
  forEach active (currentObjects, lit_0).

(** The [for (iter ...)] loop with [n] iterations left. The result is
    the working copy and [totalResidual] when the loop is left. *)
Fixpoint iterate (n : nat) (active : list Con) (currentObjects : list Obj)
    (totalResidual : F) : result (list Obj * F) :=
  match n with
  | O => Ok (currentObjects, totalResidual)
  | S n' =>
      '(objs, iterError) <- pass active currentObjects ;;
      if fltb iterError lit_0_001 then Ok (objs, totalResidual)
      else iterate n' active objs iterError
  end.

(** [constraintsRef.current.filter(c => c.enabled)] *)
Definition activeConstraints (constraints : list Con) : list Con :=
  filter (fun c => truthy_bool (enabled c)) constraints.

(** [solve]: from the stored objects and constraints to the arguments
    of [setObjects] and [setSolverStats]. The loop works on the JSON
    copy of the stored objects. When an exception is raised neither
    setter is called. *)
Definition solve (objects : list Obj) (constraints : list Con)
    : result (list Obj * SolverStats F) :=
  let currentObjects := JSON_copy objects in
  let active := activeConstraints constraints in
  '(currentObjects, totalResidual) <-
     iterate MAX_ITER active currentObjects lit_0 ;;
  let verifiedCount := List.length active in
  Ok (currentObjects,
      Build_SolverStats MAX_ITER totalResidual verifiedCount
        (List.length active)).

(** What the loop of [solve] did, for statements about it: the same
    loop as [iterate], also giving the number of iterations whose body
    ran and the [iterError] of the last one. *)
Record LoopTrace : Type := {
  trace_objects : list Obj;
  trace_totalResidual : F;
  trace_iterations_run : nat;
  trace_last_iterError : option F
}.

Fixpoint iterate_trace (n : nat) (active : list Con)
    (currentObjects : list Obj) (totalResidual : F) (ran : nat)
    (last : option F) : result LoopTrace :=
  match n with
  | O => Ok (Build_LoopTrace currentObjects totalResidual ran last)
  | S n' =>
      '(objs, iterError) <- pass active currentObjects ;;
      if fltb iterError lit_0_001
      then Ok (Build_LoopTrace objs totalResidual (S ran) (Some iterError))
      else iterate_trace n' active objs iterError (S ran) (Some iterError)
  end.

Definition solve_trace (objects : list Obj) (constraints : list Con)
    : result LoopTrace :=
  iterate_trace MAX_ITER (activeConstraints constraints) (JSON_copy objects)
    lit_0 0 None.

(** ** Scene store *)

Definition set_id (i : option string) (o : Obj) : Obj :=
  Build_GeometryObject i (obj_type o) (obj_name o) (color o) (visible o)
    (selected o) (fixed o) (points o) (data o).

Definition set_visible (v : option bool) (o : Obj) : Obj :=
  Build_GeometryObject (obj_id o) (obj_type o) (obj_name o) (color o) v
    (selected o) (fixed o) (points o) (data o).

Definition set_points (ps : option (list string)) (o : Obj) : Obj :=
  Build_GeometryObject (obj_id o) (obj_type o) (obj_name o) (color o)
    (visible o) (selected o) (fixed o) ps (data o).

(** [!obj.points || obj.points.length === 0] *)
Definition no_points (o : Obj) : bool :=
  match points o with
  | None => true
  | Some l => Nat.eqb (List.length l) 0
  end.

(** The normalization steps of [addObject], on the copy [{...rawObj}].
    [fresh] is the string that [Math.random().toString(36).substr(2, 9)]
    yields. *)
Definition normalize_object (fresh : string) (rawObj : Obj) : Obj :=
  let obj := rawObj in
  let obj :=
    if negb (truthy_string (obj_id obj)) then set_id (Some fresh) obj
    else obj in
  let obj :=
    match visible obj with
    | None => set_visible (Some true) obj
    | Some _ => obj
    end in
  let obj :=
    if ObjectType_eqb (obj_type obj) SEGMENT then
      match no_points obj, data obj with
      | true, Some d =>
          if truthy_string (data_p1 d) && truthy_string (data_p2 d) then
            match data_p1 d, data_p2 d with
            | Some a, Some b => set_points (Some [a; b]) obj
            | _, _ => obj
            end
          else
            match data_points d with
            | Some l => set_points (Some l) obj
            | None => obj
            end
      | _, _ => obj
      end
    else obj in
  let obj :=
    if ObjectType_eqb (obj_type obj) POLYGON then
      match no_points obj, data obj with
      | true, Some d =>
          match data_points d with
          | Some l => set_points (Some l) obj
          | None => obj
          end
      | _, _ => obj
      end
    else obj in
  obj.

(** [prev.findIndex(p => p.id === id)], with [None] for -1. *)
Fixpoint findIndex (oid : option string) (prev : list Obj) : option nat :=
  match prev with
  | [] => None
  | p :: rest =>
      if strict_eqb (obj_id p) oid then Some 0
      else option_map S (findIndex oid rest)
  end.

(** [copy[i] = obj] for an index inside the array. *)
Fixpoint assign_at (i : nat) (obj : Obj) (l : list Obj) : list Obj :=
  match l, i with
  | [], _ => []
  | _ :: rest, O => obj :: rest
  | x :: rest, S j => x :: assign_at j obj rest
  end.

(** The state updater of [addObject]. *)
Definition addObject (fresh : string) (rawObj : Obj) (prev : list Obj)
    : list Obj :=
  let obj := normalize_object fresh rawObj in
  match findIndex (obj_id obj) prev with
  | Some existsIndex => assign_at existsIndex obj prev
  | None => prev ++ [obj]
  end.

(** The state updater of [addConstraint]. *)
Definition addConstraint (c : Con) (prev : list Con) : list Con :=
  prev ++ [c].

(** ** computeOptimalView *)

Definition default_pose : CameraPose F :=
  Build_CameraPose INITIAL_CAMERA_POS INITIAL_CAMERA_TARGET.

(** The [visibleObjects.forEach] loop: the box and [hasPoints]. *)
Fixpoint expand_box (visibleObjects : list Obj) (box : Box3)
    (hasPoints : bool) : Box3 * bool :=
  match visibleObjects with
  | [] => (box, hasPoints)
  | obj :: rest =>
      match obj_position obj with
      | Some p => expand_box rest (expandByPoint box p) true
      | None => expand_box rest box hasPoints
      end
  end.

Definition computeOptimalView (objects : list Obj) : CameraPose F :=
  if Nat.eqb (List.length objects) 0 then default_pose
  else
    let visibleObjects :=
      filter (fun o => truthy_bool (visible o)) objects in
    if Nat.eqb (List.length visibleObjects) 0 then default_pose
    else
      let '(box, hasPoints) := expand_box visibleObjects None false in
      if negb hasPoints then default_pose
      else
        let center := getCenter box in
        let '(sx, sy, sz) := getSize box in
        let maxDim := fmax (fmax sx sy) sz in
        let distance := fadd (fmul maxDim lit_4) lit_5 in
        let position :=
          vadd center
            (multiplyScalar (normalize (lit_1, lit_0_8, lit_1)) distance) in
        Build_CameraPose position center.
End Engine.

(** ** The two arithmetics *)

(** A value of type [number] as the engine meets it at run time: a
    binary64 number, or the [null] that JSON puts in the place of NaN
    and the infinities. *)
Inductive jsnum : Type :=
| Num (x : float)
| Null.

(** ToNumber, which every arithmetic operator, comparison and [Math]
    function applies to its operands: [null] is read as [+0]. *)
Definition to_number (a : jsnum) : float :=
  match a with
  | Num x => x
  | Null => 0%float
  end.

(** [Math.max] and [Math.min] on binary64: NaN is contagious and
    [-0] is below [+0]. *)
Definition js_max (a b : float) : float :=
  if PrimFloat.is_nan a then a
  else if PrimFloat.is_nan b then b
  else if PrimFloat.ltb a b then b
  else if PrimFloat.ltb b a then a
  else if PrimFloat.get_sign a then b else a.

Definition js_min (a b : float) : float :=
  if PrimFloat.is_nan a then a
  else if PrimFloat.is_nan b then b
  else if PrimFloat.ltb a b then a
  else if PrimFloat.ltb b a then b
  else if PrimFloat.get_sign a then a else b.

(** ToBoolean on a number or [null]: [0], [-0], NaN and [null] are
    falsy. *)
Definition js_truthy (a : jsnum) : bool :=
  match a with
  | Num x => negb (PrimFloat.is_zero x || PrimFloat.is_nan x)
  | Null => false
  end.

(** [JSON.parse(JSON.stringify(x))] on a number: NaN and the
    infinities are written as [null], [-0] is written as [0], and the
    text of any other number denotes that number. *)
Definition JSON_number (a : jsnum) : jsnum :=
  match a with
  | Null => Null
  | Num x =>
      if PrimFloat.is_nan x || PrimFloat.is_infinity x then Null
      else if PrimFloat.is_zero x then Num 0%float
      else Num x
  end.

(** IEEE 754 binary64, the arithmetic of JS numbers. Decimal literals
    denote the nearest binary64 value, as in JS. *)
#[local] Set Warnings "-inexact-float".
#[export] Instance Binary64 : Number jsnum := {
  fadd := fun a b => Num (PrimFloat.add (to_number a) (to_number b));
  fsub := fun a b => Num (PrimFloat.sub (to_number a) (to_number b));
  fmul := fun a b => Num (PrimFloat.mul (to_number a) (to_number b));
  fdiv := fun a b => Num (PrimFloat.div (to_number a) (to_number b));
  fsqrt := fun a => Num (PrimFloat.sqrt (to_number a));
  fabs := fun a => Num (PrimFloat.abs (to_number a));
  fmax := fun a b => Num (js_max (to_number a) (to_number b));
  fmin := fun a b => Num (js_min (to_number a) (to_number b));
  fltb := fun a b => PrimFloat.ltb (to_number a) (to_number b);
  ftruthy := js_truthy;
  fjson := JSON_number;
  lit_0 := Num 0%float;
  lit_1 := Num 1%float;
  lit_4 := Num 4%float;
  lit_5 := Num 5%float;
  lit_0_5 := Num 0.5%float;
  lit_0_8 := Num 0.8%float;
  lit_0_001 := Num 0.001%float;
  lit_0_0001 := Num 0.0001%float
}.

(** The point with the given binary64 coordinates. *)
Definition xyz (x y z : float) : Point3 jsnum := (Num x, Num y, Num z).

(** Exact real arithmetic: the same operations without rounding. *)
#[export] Instance Exact : Number R := {
  fadd := Rplus;
  fsub := Rminus;
  fmul := Rmult;
  fdiv := Rdiv;
  fsqrt := R_sqrt.sqrt;
  fabs := Rabs;
  fmax := Rmax;
  fmin := Rmin;
  fltb := fun a b => if Rlt_dec a b then true else false;
  ftruthy := fun a => if Req_dec_T a 0%R then false else true;
  fjson := fun a => a;
  lit_0 := 0%R;
  lit_1 := 1%R;
  lit_4 := 4%R;
  lit_5 := 5%R;
  lit_0_5 := 0.5%R;
  lit_0_8 := 0.8%R;
  lit_0_001 := 0.001%R;
  lit_0_0001 := 0.0001%R
}.

(** ** Vocabulary of the statements *)

Section Vocabulary.
Context {F : Type} {NF : Number F}.

(** What [solve] may do to one object: leave it as it is, or overwrite
    the position of an object that is not fixed and already carries a
    position. *)
Definition solver_touch (o o' : GeometryObject F) : Prop :=
  o' = o \/
  (truthy_bool (fixed o) = false /\ obj_position o <> None /\
   exists p', o' = with_position p' o).

(** The same, restricted to Point-type objects. *)
Definition point_only_touch (o o' : GeometryObject F) : Prop :=
  o' = o \/
  (obj_type o = POINT /\ truthy_bool (fixed o) = false /\
   obj_position o <> None /\ exists p', o' = with_position p' o).

(** A rewrite of an object that leaves its id alone. *)
Definition keeps_id (f : GeometryObject F -> GeometryObject F) : Prop :=
  forall o, obj_id (f o) = obj_id o.

(** The positions that the view framer takes into account: those of
    the visible objects that carry one, in stored order. *)
Definition framed_positions (objects : list (GeometryObject F))
    : list (Point3 F) :=
  flat_map
    (fun o =>
       match obj_position o with
       | Some p => if truthy_bool (visible o) then [p] else []
       | None => []
       end)
    objects.
End Vocabulary.

(** ** Sample scenes on binary64 *)

Open Scope string_scope.

(** An object named [n] of type [ty] at position [p]. *)
Definition sample_object {F : Type} (n : string) (ty : ObjectType)
    (fx : option bool) (p : Point3 F) : GeometryObject F :=
  Build_GeometryObject (Some n) ty n None (Some true) None fx None
    (Some (Build_ObjectData (Some p) None None None None None None)).

(** An object named [n] that has no [data] bag. *)
Definition sample_bare {F : Type} (n : string) (ty : ObjectType)
    : GeometryObject F :=
  Build_GeometryObject (Some n) ty n None (Some true) None None None None.

Definition sample_constraint {F : Type} (ty : ConstraintType)
    (ids : list string) (t : option F) (en : option bool) : Constraint F :=
  Build_Constraint "c" ty ids t None en None.

(** Two free points 10 apart and a Distance constraint with target 5. *)
Definition scene_AB : list (GeometryObject jsnum) :=
  [ sample_object "A" POINT None (xyz 0 0 0);
    sample_object "B" POINT None (xyz 10 0 0) ].

Definition distance_AB_5 : Constraint jsnum :=
  sample_constraint DISTANCE ["A"; "B"] (Some (Num 5)) (Some true).

(** The same constraint as an upstream payload without [enabled]. *)
Definition distance_AB_5_unset : Constraint jsnum :=
  sample_constraint DISTANCE ["A"; "B"] (Some (Num 5)) None.

(** Two free points 5.0009765625 apart (5 + 2^-10): 0.0009765625 off
    the target of [distance_AB_5]. *)
Definition scene_AB_near : list (GeometryObject jsnum) :=
  [ sample_object "A" POINT None (xyz 0 0 0);
    sample_object "B" POINT None (xyz 5.0009765625 0 0) ].

(** Two free points 10 apart, at 1e14 and 1e14 + 10 on the x axis. *)
Definition scene_AB_far : list (GeometryObject jsnum) :=
  [ sample_object "A" POINT None (xyz 1e14 0 0);
    sample_object "B" POINT None (xyz 100000000000010 0 0) ].

(** A single visible point at 9e307 on the x axis. *)
Definition scene_single_huge : list (GeometryObject jsnum) :=
  [ sample_object "A" POINT None (xyz 9e307 0 0) ].

(** A Segment payload with the endpoint ids in [data.p1], [data.p2]
    and no [points] list, and no [id] or [visible] either. *)
Definition segment_payload : GeometryObject jsnum :=
  Build_GeometryObject None SEGMENT "AB" None None None None None
    (Some (Build_ObjectData None None None None (Some "A") (Some "B") None)).

(** Two free circles whose centres are 10 apart. *)
Definition scene_circles : list (GeometryObject jsnum) :=
  [ sample_object "A" CIRCLE None (xyz 0 0 0);
    sample_object "B" CIRCLE None (xyz 10 0 0) ].

(** A segment without a data bag, named as the midpoint of A and B. *)
Definition scene_midpoint : list (GeometryObject jsnum) :=
  [ sample_bare "M" SEGMENT;
    sample_object "A" POINT None (xyz 0 0 0);
    sample_object "B" POINT None (xyz 2 0 0) ].

Definition midpoint_MAB : Constraint jsnum :=
  sample_constraint MIDPOINT ["M"; "A"; "B"] None (Some true).

Definition distance_MA : Constraint jsnum :=
  sample_constraint DISTANCE ["M"; "A"] (Some (Num 1)) (Some true).

(** ** Sample scenes in exact arithmetic *)

Definition exact_AB : list (GeometryObject R) :=
  [ sample_object "A" POINT None (0, 0, 0)%R;
    sample_object "B" POINT None (10, 0, 0)%R ].

Definition exact_distance_AB_5 : Constraint R :=
  sample_constraint DISTANCE ["A"; "B"] (Some 5%R) (Some true).

(** The same constraint without a target scalar. *)
Definition exact_distance_AB_no_target : Constraint R :=
  sample_constraint DISTANCE ["A"; "B"] None (Some true).

(** Two free points 5.0004 apart. *)
Definition exact_AB_near : list (GeometryObject R) :=
  [ sample_object "A" POINT None (0, 0, 0)%R;
    sample_object "B" POINT None (5.0004, 0, 0)%R ].

(** A visible point at (1, 2, 3) beside a hidden one and a visible
    segment, which has no position. *)
Definition exact_single_visible : list (GeometryObject R) :=
  [ Build_GeometryObject (Some "H") POINT "H" None (Some false) None None None
      (Some (Build_ObjectData (Some (9, 9, 9)%R) None None None None None
               None));
    sample_bare "S" SEGMENT;
    sample_object "A" POINT None (1, 2, 3)%R ].

Close Scope string_scope.

(** ** Vocabulary of the statements in exact arithmetic *)

(** [o'] carries a position exactly when [o] does, and then at most
    [delta] away from it. *)
Definition within (delta : R) (o o' : GeometryObject R) : Prop :=
  match obj_position o, obj_position o' with
  | Some p, Some p' => (distanceTo p p' <= delta)%R
  | None, None => True
  | _, _ => False
  end.

(** A constraint with its target scalar replaced. *)
Definition with_targetValue {F : Type} (t : option F) (c : Constraint F)
    : Constraint F :=
  Build_Constraint (c_id c) (c_type c) (objectIds c) t (tolerance c)
    (enabled c) (residual c).

(** The constraint with an absent target made an explicit 0. *)
Definition explicit_zero_target {F : Type} {NF : Number F}
    (c : Constraint F) : Constraint F :=
  match targetValue c with
  | None => with_targetValue (Some lit_0) c
  | Some _ => c
  end.

(** The axis-aligned bounding box of the positions [p :: ps], as the
    least and greatest coordinate on each axis. *)
Definition least (x : R) (xs : list R) : R := fold_left Rmin xs x.
Definition greatest (x : R) (xs : list R) : R := fold_left Rmax xs x.

Definition xs_of (ps : list (Point3 R)) : list R :=
  map (fun p => fst (fst p)) ps.
Definition ys_of (ps : list (Point3 R)) : list R :=
  map (fun p => snd (fst p)) ps.
Definition zs_of (ps : list (Point3 R)) : list R :=
  map (fun p => snd p) ps.

Definition aabb_min (p : Point3 R) (ps : list (Point3 R)) : Point3 R :=
  let '(x, y, z) := p in
  (least x (xs_of ps), least y (ys_of ps), least z (zs_of ps)).

Definition aabb_max (p : Point3 R) (ps : list (Point3 R)) : Point3 R :=
  let '(x, y, z) := p in
  (greatest x (xs_of ps), greatest y (ys_of ps), greatest z (zs_of ps)).

Definition aabb_center (p : Point3 R) (ps : list (Point3 R)) : Point3 R :=
  let '(lx, ly, lz) := aabb_min p ps in
  let '(hx, hy, hz) := aabb_max p ps in
  ((lx + hx) / 2, (ly + hy) / 2, (lz + hz) / 2)%R.

(** The largest of the box's three extents. *)
Definition aabb_maxDim (p : Point3 R) (ps : list (Point3 R)) : R :=
  let '(lx, ly, lz) := aabb_min p ps in
  let '(hx, hy, hz) := aabb_max p ps in
  Rmax (Rmax (hx - lx) (hy - ly)) (hz - lz).

(** The unit vector along (1, 0.8, 1). *)
Definition unit_1_08_1 : Point3 R :=
  let len := R_sqrt.sqrt (1 * 1 + 0.8 * 0.8 + 1 * 1) in
  (1 / len, 0.8 / len, 1 / len)%R.

(** [center + distance * direction] *)
Definition along (center : Point3 R) (distance : R) (direction : Point3 R)
    : Point3 R :=
  let '(cx, cy, cz) := center in
  let '(ux, uy, uz) := direction in
  (cx + distance * ux, cy + distance * uy, cz + distance * uz)%R.

(** The endpoints of a pair that started at [va] and [vb], 10 apart,
    once each has come [(5 - e) / 2] closer to the other along their
    axis, so that their distance is [5 + e]; and the scene with the
    objects named [ia] and [ib] placed there. *)
Definition approach_a (va vb : Point3 R) (e : R) : Point3 R :=
  vadd va (multiplyScalar (vsub vb va) ((5 - e) / 20)%R).

Definition approach_b (va vb : Point3 R) (e : R) : Point3 R :=
  vsub vb (multiplyScalar (vsub vb va) ((5 - e) / 20)%R).

Definition approached (objects : list (GeometryObject R)) (ia ib : string)
    (va vb : Point3 R) (e : R) : list (GeometryObject R) :=
  update_found (Some ib) (with_position (approach_b va vb e))
    (update_found (Some ia) (with_position (approach_a va vb e)) objects).

(** The endpoints of a pair that started at [va] and [vb], once each
    has come the same way towards the other and their distance is the
    fraction [s] of what it was; and the scene with the objects named
    [ia] and [ib] placed there. *)
Definition pull_a (va vb : Point3 R) (s : R) : Point3 R :=
  vadd va (multiplyScalar (vsub vb va) ((1 - s) / 2)%R).

Definition pull_b (va vb : Point3 R) (s : R) : Point3 R :=
  vsub vb (multiplyScalar (vsub vb va) ((1 - s) / 2)%R).

Definition pulled (objects : list (GeometryObject R)) (ia ib : string)
    (va vb : Point3 R) (s : R) : list (GeometryObject R) :=
  update_found (Some ib) (with_position (pull_b va vb s))
    (update_found (Some ia) (with_position (pull_a va vb s)) objects).

(** ** The rest of the scene store *)

Section StoreOperations.
Context {F : Type} {NF : Number F}.

Local Abbreviation Obj := (GeometryObject F).
Local Abbreviation Con := (Constraint F).

(** [a ?? b] for an overriding key: the patch's value when the key is
    present in the patch. *)
Definition override {A : Type} (patch old : option A) : option A :=
  match patch with
  | Some v => Some v
  | None => old
  end.

(** [{ ...o.data, ...data }]: the keys of the patch override those of
    the bag; an absent bag spreads as no keys. *)
Definition merge_data (old : option (ObjectData F)) (patch : ObjectData F)
    : ObjectData F :=
  match old with
  | Some d =>
      Build_ObjectData
        (override (position patch) (position d))
        (override (normal patch) (normal d))
        (override (radius patch) (radius d))
        (override (height patch) (height d))
        (override (data_p1 patch) (data_p1 d))
        (override (data_p2 patch) (data_p2 d))
        (override (data_points patch) (data_points d))
  | None => patch
  end.

Definition set_data (d : option (ObjectData F)) (o : Obj) : Obj :=
  Build_GeometryObject (obj_id o) (obj_type o) (obj_name o) (color o)
    (visible o) (selected o) (fixed o) (points o) d.

(** The state updater of [updateObject]. *)
Definition updateObject (id : string) (patch : ObjectData F)
    (prev : list Obj) : list Obj :=
  map (fun o =>
         if strict_eqb (obj_id o) (Some id)
         then set_data (Some (merge_data (data o) patch)) o
         else o)
    prev.

(** [c.objectIds.includes(id)] *)
Definition includes (ids : list string) (id : string) : bool :=
  existsb (fun x => String.eqb x id) ids.

(** The two state updaters of [removeObject]. *)
Definition removeObject_objects (id : string) (prev : list Obj) : list Obj :=
  filter (fun o => negb (strict_eqb (obj_id o) (Some id))) prev.

Definition removeObject_constraints (id : string) (prev : list Con)
    : list Con :=
  filter (fun c => negb (includes (objectIds c) id)) prev.

(** types.ts: Step *)
Record Step : Type := {
  step_id : string;
  description : string;
  step_objectIds : list string;
  cameraView : option (Point3 F)
}.

(** The state held by [GeometryProvider]. *)
Record Store : Type := {
  store_objects : list Obj;
  store_constraints : list Con;
  store_steps : list Step;
  store_activeStepId : option string;
  store_cameraPose : CameraPose F;
  store_notebookPose : option (CameraPose F);
  store_solverStats : SolverStats F
}.

(** The state after [resetScene], which is also the initial state. *)
Definition resetScene : Store :=
  Build_Store [] [] [] None
    (Build_CameraPose INITIAL_CAMERA_POS INITIAL_CAMERA_TARGET)
    None
    (Build_SolverStats 0 lit_0 0 0).

Definition removeObject (id : string) (s : Store) : Store :=
  Build_Store (removeObject_objects id (store_objects s))
    (removeObject_constraints id (store_constraints s))
    (store_steps s) (store_activeStepId s) (store_cameraPose s)
    (store_notebookPose s) (store_solverStats s).

Definition with_objects (objs : list Obj) (s : Store) : Store :=
  Build_Store objs (store_constraints s) (store_steps s)
    (store_activeStepId s) (store_cameraPose s) (store_notebookPose s)
    (store_solverStats s).

Definition with_constraints (cs : list Con) (s : Store) : Store :=
  Build_Store (store_objects s) cs (store_steps s)
    (store_activeStepId s) (store_cameraPose s) (store_notebookPose s)
    (store_solverStats s).

Definition setCameraPose (pose : CameraPose F) (s : Store) : Store :=
  Build_Store (store_objects s) (store_constraints s) (store_steps s)
    (store_activeStepId s) pose (store_notebookPose s) (store_solverStats s).

Definition setNotebookPose (pose : option (CameraPose F)) (s : Store)
    : Store :=
  Build_Store (store_objects s) (store_constraints s) (store_steps s)
    (store_activeStepId s) (store_cameraPose s) pose (store_solverStats s).

Definition setSteps (steps : list Step) (s : Store) : Store :=
  Build_Store (store_objects s) (store_constraints s) steps
    (store_activeStepId s) (store_cameraPose s) (store_notebookPose s)
    (store_solverStats s).

Definition setActiveStep (id : option string) (s : Store) : Store :=
  Build_Store (store_objects s) (store_constraints s) (store_steps s)
    id (store_cameraPose s) (store_notebookPose s) (store_solverStats s).

(** ** ChatPanel: executing the actions of a response *)

(** types.ts: the entries of [ActionPayload.actions]. [random] is the
    string that [Math.random().toString(36).substr(2, 9)] yields if
    [addObject] draws an id for this payload. *)
Inductive Action : Type :=
| Act_addObject (payload : Obj) (random : string)
| Act_updateObject (id : option string) (data_patch : ObjectData F)
| Act_removeObject (id : string)
| Act_addConstraint (payload : Con)
| Act_removeConstraint (id : string)
| Act_setCamera (payload : CameraPose F)
| Act_setNotebookView (payload : CameraPose F)
| Act_setActiveStep (id : string)
| Act_resetScene.

Definition is_resetScene (a : Action) : bool :=
  match a with
  | Act_resetScene => true
  | _ => false
  end.

(** The [switch (action.type)] of [handleSend]: the state updates one
    action queues. *)
Definition execute_action (s : Store) (a : Action) : Store :=
  match a with
  | Act_addObject payload random =>
      with_objects (addObject random payload (store_objects s)) s
  | Act_updateObject id data_patch =>
      match id with
      | Some i =>
          if truthy_string id
          then with_objects (updateObject i data_patch (store_objects s)) s
          else s
      | None => s
      end
  | Act_addConstraint payload =>
      with_constraints (addConstraint payload (store_constraints s)) s
  | Act_setCamera payload => setCameraPose payload s
  | Act_setNotebookView payload => setNotebookPose (Some payload) s
  | Act_resetScene => s
  | Act_removeObject _ | Act_removeConstraint _ | Act_setActiveStep _ => s
  end.

(** [if (payload.actions) { ... }]: one [resetScene] call if any action
    is a resetScene, then every action in order. *)
Definition execute_actions (actions : list Action) (s : Store) : Store :=
  let s0 := if existsb is_resetScene actions then resetScene else s in
  fold_left execute_action actions s0.

(** [if (payload.stepList && payload.stepList.length > 0) { ... }] *)
Definition apply_stepList (stepList : list Step) (s : Store) : Store :=
  match stepList with
  | [] => s
  | first :: _ => setActiveStep (Some (step_id first)) (setSteps stepList s)
  end.

Definition execute_payload (actions : list Action) (stepList : list Step)
    (s : Store) : Store :=
  apply_stepList stepList (execute_actions actions s).
End StoreOperations.

Arguments Build_Step {F}.
Arguments Build_Store {F}.
Arguments Act_removeObject {F} id.
Arguments Act_removeConstraint {F} id.
Arguments Act_setActiveStep {F} id.
Arguments Act_resetScene {F}.

(** ** Vocabulary of the statements about the store *)

Section StoreVocabulary.
Context {F : Type}.

(** Every operand of every constraint names a stored object. *)
Definition resolves_all (objs : list (GeometryObject F))
    (cs : list (Constraint F)) : Prop :=
  forall c, In c cs ->
  forall i, In i (objectIds c) -> find_obj (Some i) objs <> None.

(** What [normalize_object] leaves alone. *)
Definition same_but_id_visible_points (raw o : GeometryObject F) : Prop :=
  obj_type o = obj_type raw /\ obj_name o = obj_name raw /\
  color o = color raw /\ selected o = selected raw /\
  fixed o = fixed raw /\ data o = data raw.

(** What [updateObject] leaves alone. *)
Definition same_but_data (o o' : GeometryObject F) : Prop :=
  obj_id o' = obj_id o /\ obj_type o' = obj_type o /\
  obj_name o' = obj_name o /\ color o' = color o /\
  visible o' = visible o /\ selected o' = selected o /\
  fixed o' = fixed o /\ points o' = points o.

(** The action types for which the [switch] of [handleSend] has no
    case. *)
Definition is_ignored (a : @Action F) : bool :=
  match a with
  | Act_removeObject _ | Act_removeConstraint _ | Act_setActiveStep _ => true
  | _ => false
  end.

(** The payloads of the addConstraint actions of a batch, in order. *)
Definition added_constraints (actions : list (@Action F))
    : list (Constraint F) :=
  flat_map (fun a => match a with
                     | Act_addConstraint payload => [payload]
                     | _ => []
                     end)
    actions.
End StoreVocabulary.

(** ** A sample store on binary64 *)

Definition store_AB : @Store jsnum :=
  Build_Store scene_AB [distance_AB_5] [] None
    (Build_CameraPose (xyz 1 1 1) (xyz 0 0 0)) None
    (Build_SolverStats 50 (Num 0) 1 1).

(** A batch that adds a point, asks for the removal of A, and resets
    the scene last. *)
Definition batch_with_reset : list (@Action jsnum) :=
  [ Act_addObject
      (sample_object "C"%string POINT None (xyz 1 1 1)) "k3x9q2m1a";
    Act_removeObject "A"%string;
    Act_resetScene ].

(** ** Vocabulary of the statements about the solver's passes *)

Section PassVocabulary.
Context {F : Type} {NF : Number F}.

(** [i] resolves to an object, or to one that carries a position. *)
Definition resolves (i : option string) (objs : list (GeometryObject F))
    : bool :=
  match find_obj i objs with
  | Some _ => true
  | None => false
  end.

Definition resolves_positioned (i : option string)
    (objs : list (GeometryObject F)) : bool :=
  match find_obj i objs with
  | Some o => match obj_position o with Some _ => true | None => false end
  | None => false
  end.

(** The constraint falls through every guard of the loop body on these
    objects: its type has no branch, or an operand the branch tests is
    missing. *)
Definition skipped_on (c : Constraint F) (objs : list (GeometryObject F))
    : bool :=
  match c_type c with
  | DISTANCE =>
      negb (resolves_positioned (nth_error (objectIds c) 0) objs
            && resolves_positioned (nth_error (objectIds c) 1) objs)
  | MIDPOINT =>
      negb (resolves (nth_error (objectIds c) 0) objs
            && resolves (nth_error (objectIds c) 1) objs
            && resolves (nth_error (objectIds c) 2) objs)
  | _ => true
  end.

(** The operands a constraint's branch assigns a position to. *)
Definition moved_operands (c : Constraint F) : list (option string) :=
  match c_type c with
  | DISTANCE => [nth_error (objectIds c) 0; nth_error (objectIds c) 1]
  | MIDPOINT => [nth_error (objectIds c) 0]
  | _ => []
  end.

(** The statistics of a solve with [k] constraints more. *)
Definition with_more_constraints (k : nat) (st : SolverStats F)
    : SolverStats F :=
  Build_SolverStats (iterations st) (totalError st) (verified st + k)
    (total st + k).
End PassVocabulary.

(** ** Vocabulary of the statements about what a solve can reach *)

Section ReachVocabulary.
Context {F : Type} {NF : Number F}.

(** [o'] is [o] unless the id of [o] is among [ids], and has the id of
    [o] in any case. *)
Definition kept_unless_named (ids : list (option string))
    (o o' : GeometryObject F) : Prop :=
  obj_id o' = obj_id o /\ (~ In (obj_id o) ids -> o' = o).
End ReachVocabulary.

(** A fixed point whose stored position holds a -0 and a NaN. *)
Definition scene_signed_zero_nan : list (GeometryObject jsnum) :=
  [ sample_object "Z"%string POINT (Some true)
      (xyz (-0) PrimFloat.nan 1) ].

(** A second Distance constraint on A and B, at odds with the first. *)
Definition distance_AB_6 : Constraint jsnum :=
  sample_constraint DISTANCE ["A"; "B"]%string (Some (Num 6)) (Some true).

(** ** Vocabulary of the statements about one Distance evaluation *)

(** The part of the signed error [d - target] that is left after one
    evaluation, by which endpoints are fixed. *)
Definition remaining_share (fixed1 fixed2 : bool) : R :=
  match fixed1, fixed2 with
  | false, false => (1 / 2)%R
  | true, true => 1%R
  | _, _ => (3 / 4)%R
  end.

(** ** Vocabulary of the statements about Midpoint constraints *)

(** A free point A pinned at the origin and a free point B, with the
    Distance constraint of [exact_distance_AB_5] between them. *)
Definition exact_A_pinned : list (GeometryObject R) :=
  [ sample_object "A"%string POINT (Some true) (0, 0, 0)%R;
    sample_object "B"%string POINT None (10, 0, 0)%R ].

(** A=(0,0,0), B=(2,0,0) and M=(0,5,0), with Midpoint(M, A, B). *)
Definition exact_MAB : list (GeometryObject R) :=
  [ sample_object "A"%string POINT None (0, 0, 0)%R;
    sample_object "B"%string POINT None (2, 0, 0)%R;
    sample_object "M"%string POINT None (0, 5, 0)%R ].

Definition exact_midpoint_MAB : Constraint R :=
  sample_constraint MIDPOINT ["M"; "A"; "B"]%string None (Some true).

(** The target of a Midpoint constraint: [(vA + vB) * 0.5]. *)
Definition midpoint_of (vA vB : Point3 R) : Point3 R :=
  multiplyScalar (vadd vA vB) 0.5%R.

(** The point at the fraction [s] of the way from [T] to [vM]. *)
Definition toward (T vM : Point3 R) (s : R) : Point3 R :=
  vadd T (multiplyScalar (vsub vM T) s).

(** The objects with the one that [i] resolves to placed at [p]. *)
Definition placed (objects : list (GeometryObject R)) (i : string)
    (p : Point3 R) : list (GeometryObject R) :=
  update_found (Some i) (with_position p) objects.

(** ** components/GeometryObjects.tsx *)

(** JS strings are read as [string]s of code units below 256. *)

(** [[0-9A-F]] under the [i] flag. *)
Definition is_hex_digit (a : Ascii.ascii) : bool :=
  let n := Ascii.nat_of_ascii a in
  ((48 <=? n) && (n <=? 57)) || ((65 <=? n) && (n <=? 70))
  || ((97 <=? n) && (n <=? 102)).

Fixpoint all_chars (f : Ascii.ascii -> bool) (s : string) : bool :=
  match s with
  | EmptyString => true
  | String a rest => f a && all_chars f rest
  end.

(** [color.startsWith('#')] *)
Definition starts_with_hash (color : string) : bool :=
  match color with
  | String a _ => Ascii.eqb a "#"%char
  | EmptyString => false
  end.

(** [/^#[0-9A-F]{6}$/i.test(color)] *)
Definition is_hex_color (color : string) : bool :=
  match color with
  | String a rest =>
      Ascii.eqb a "#"%char && Nat.eqb (String.length rest) 6
      && all_chars is_hex_digit rest
  | EmptyString => false
  end.

Definition sanitizeColor (color : option string) (defaultColor : string)
    : string :=
  match color with
  | None => defaultColor
  | Some col =>
      if String.eqb col EmptyString then defaultColor
      else if starts_with_hash col && (7 <? String.length col)
      then String.substring 0 7 col
      else if negb (is_hex_color col) then defaultColor
      else col
  end.

Section Meshes.
Context {F : Type}.

Local Abbreviation Obj := (GeometryObject F).

(** [obj.data?.p1] and [obj.data?.p2] *)
Definition data_field (f : ObjectData F -> option string) (obj : Obj)
    : option string :=
  match data obj with
  | Some d => f d
  | None => None
  end.

(** SegmentMesh: [p1Id] and [p2Id], from [obj.points] and then from the
    data bag. *)
Definition segment_point_ids (obj : Obj) : option string * option string :=
  let pick (i : nat) (fallback : option string) :=
    let from_points :=
      match points obj with
      | Some l => nth_error l i
      | None => None
      end in
    if negb (truthy_string from_points) && truthy_string fallback
    then fallback else from_points in
  (pick 0 (data_field (@data_p1 F) obj), pick 1 (data_field (@data_p2 F) obj)).

(** SegmentMesh: the two endpoints of the tube, or none to draw. *)
Definition segment_endpoints (obj : Obj) (allObjects : list Obj)
    : option (Point3 F * Point3 F) :=
  let '(p1Id, p2Id) := segment_point_ids obj in
  match find_obj p1Id allObjects, find_obj p2Id allObjects with
  | Some pt1, Some pt2 =>
      match obj_position pt1, obj_position pt2 with
      | Some a, Some b => Some (a, b)
      | _, _ => None
      end
  | _, _ => None
  end.

(** PolygonMesh: [pointIds]. *)
Definition polygon_point_ids (obj : Obj) : list string :=
  let pointIds := match points obj with Some l => l | None => [] end in
  match pointIds, data obj with
  | [], Some d =>
      match data_points d with
      | Some l => l
      | None => pointIds
      end
  | _, _ => pointIds
  end.

(** PolygonMesh: [pts], the positions of the ids that resolve to a
    positioned object. *)
Definition polygon_points (obj : Obj) (allObjects : list Obj)
    : list (Point3 F) :=
  flat_map
    (fun id =>
       match find_obj (Some id) allObjects with
       | Some p => match obj_position p with Some v => [v] | None => [] end
       | None => []
       end)
    (polygon_point_ids obj).

Definition coordinates (v : Point3 F) : list F :=
  let '(x, y, z) := v in [x; y; z].

(** PolygonMesh: the [vertices] array of the triangle fan, or none when
    fewer than three points resolve. *)
Definition polygon_vertices (obj : Obj) (allObjects : list Obj)
    : option (list F) :=
  let pts := polygon_points obj allObjects in
  match pts with
  | first :: _ =>
      if List.length pts <? 3 then None
      else
        Some
          (flat_map
             (fun i =>
                coordinates first ++ coordinates (nth i pts first)
                ++ coordinates (nth (i + 1) pts first))
             (seq 1 (List.length pts - 2)))
  | [] => None
  end.
End Meshes.

(** * Facts *)

Unset Implicit Arguments.

Ltac bind_inv H :=
  match type of H with
  | bind ?m _ = Ok _ =>
      let E := fresh "E" in
      destruct m eqn:E; simpl in H; [ | discriminate H ]
  end.

Section Structure.
Context {F : Type} {NF : Number F}.

Local Abbreviation Obj := (GeometryObject F).
Local Abbreviation Con := (Constraint F).

Lemma strict_eqb_refl (a : option string) : strict_eqb a a = true.
Proof. destruct a; simpl; [ apply String.eqb_refl | reflexivity ]. Qed.

(** [with_position] rewrites the position and nothing else. *)
Lemma with_position_fields (p : Point3 F) (o : Obj) :
  obj_id (with_position p o) = obj_id o /\
  obj_type (with_position p o) = obj_type o /\
  obj_name (with_position p o) = obj_name o /\
  color (with_position p o) = color o /\
  visible (with_position p o) = visible o /\
  selected (with_position p o) = selected o /\
  fixed (with_position p o) = fixed o /\
  points (with_position p o) = points o.
Proof. unfold with_position; destruct (data o); simpl; repeat split. Qed.

Lemma with_position_twice (p q : Point3 F) (o : Obj) :
  with_position q (with_position p o) = with_position q o.
Proof.
  unfold with_position; destruct (data o) eqn:E; simpl;
    [ reflexivity | rewrite E; reflexivity ].
Qed.

Lemma obj_position_with_position (p : Point3 F) (o : Obj) :
  obj_position o <> None -> obj_position (with_position p o) = Some p.
Proof.
  unfold obj_position, with_position.
  destruct (data o); simpl; [ reflexivity | congruence ].
Qed.

Lemma solver_touch_refl (o : Obj) : solver_touch o o.
Proof. left; reflexivity. Qed.

(** Overwriting the position of a movable object composes with what
    was done to it before. *)
Lemma solver_touch_move (o o' : Obj) (p : Point3 F) :
  solver_touch o o' ->
  truthy_bool (fixed o') = false -> obj_position o' <> None ->
  solver_touch o (with_position p o').
Proof.
  intros [-> | (Hf & Hp & p' & ->)] Hf' Hp'.
  - right; repeat split; eauto.
  - right; repeat split; auto.
    exists p; apply with_position_twice.
Qed.

(** [update_found] changes the entry that [find_obj] returns. *)
Lemma update_found_touch (oid : option string) (p : Point3 F) :
  forall (objs cur : list Obj) (q : Obj),
    Forall2 solver_touch objs cur ->
    find_obj oid cur = Some q ->
    truthy_bool (fixed q) = false -> obj_position q <> None ->
    Forall2 solver_touch objs (update_found oid (with_position p) cur).
Proof.
  intros objs cur q H; revert q.
  induction H as [ | o o' objs cur Ho Hrest IH ]; intros q Hfind Hf Hp.
  - constructor.
  - unfold find_obj in Hfind; simpl in *.
    destruct (strict_eqb (obj_id o') oid).
    + injection Hfind as <-.
      constructor; [ apply solver_touch_move; assumption | assumption ].
    + constructor; [ assumption | eapply IH; eauto ].
Qed.

(** After an update, an id resolves to the object it resolved to
    before, possibly with its new position. *)
Lemma find_obj_update_found (a b : option string) (p : Point3 F) :
  forall (l : list Obj) (q : Obj),
    find_obj a l = Some q ->
    exists q',
      find_obj a (update_found b (with_position p) l) = Some q' /\
      (q' = q \/ q' = with_position p q).
Proof.
  unfold find_obj.
  induction l as [ | o l IH ]; intros q Hq; simpl in *; [ discriminate | ].
  destruct (strict_eqb (obj_id o) b) eqn:Eb; simpl.
  - destruct (with_position_fields p o) as (-> & _).
    destruct (strict_eqb (obj_id o) a).
    + injection Hq as <-; eauto.
    + eauto.
  - destruct (strict_eqb (obj_id o) a).
    + injection Hq as <-; eauto.
    + apply IH; assumption.
Qed.

Lemma distance_step_touch (c : Con) (objs : list Obj) (st : PassState) :
  Forall2 solver_touch objs (fst st) ->
  Forall2 solver_touch objs (fst (distance_step c st)).
Proof.
  destruct st as [cur err]; cbn [fst]; intros H.
  unfold distance_step.
  set (id1 := nth_error (objectIds c) 0).
  set (id2 := nth_error (objectIds c) 1).
  destruct (find_obj id1 cur) as [q1|] eqn:E1; [ | exact H ].
  destruct (find_obj id2 cur) as [q2|] eqn:E2; [ | exact H ].
  destruct (obj_position q1) as [v1|] eqn:P1; [ | exact H ].
  destruct (obj_position q2) as [v2|] eqn:P2; [ | exact H ].
  destruct (fltb lit_0_0001 _); [ | exact H ].
  set (off := multiplyScalar _ _).
  cbn [fst].
  assert (H1 : Forall2 solver_touch objs
                 (if negb (truthy_bool (fixed q1))
                  then update_found id1 (with_position (vadd v1 off)) cur
                  else cur)).
  { destruct (truthy_bool (fixed q1)) eqn:F1; cbn [negb]; [ exact H | ].
    eapply update_found_touch; eauto; congruence. }
  destruct (truthy_bool (fixed q2)) eqn:F2; cbn [negb]; [ exact H1 | ].
  destruct (truthy_bool (fixed q1)) eqn:F1; cbn [negb] in *.
  - eapply update_found_touch; eauto; congruence.
  - destruct (find_obj_update_found id2 id1 (vadd v1 off) cur q2 E2)
      as (q' & Hq' & Hor).
    eapply update_found_touch; [ exact H1 | exact Hq' | | ].
    + destruct Hor as [-> | ->]; [ assumption | ].
      destruct (with_position_fields (vadd v1 off) q2)
        as (_ & _ & _ & _ & _ & _ & -> & _); assumption.
    + destruct Hor as [-> | ->]; [ congruence | ].
      rewrite obj_position_with_position; congruence.
Qed.

Lemma midpoint_step_touch (c : Con) (objs : list Obj) (st st' : PassState) :
  Forall2 solver_touch objs (fst st) ->
  midpoint_step c st = Ok st' ->
  Forall2 solver_touch objs (fst st').
Proof.
  destruct st as [cur err]; cbn [fst]; intros H Hs.
  unfold midpoint_step in Hs.
  set (midId := nth_error (objectIds c) 0) in Hs.
  destruct (find_obj midId cur) as [M|] eqn:E0;
    [ | injection Hs as <-; exact H ].
  destruct (find_obj (nth_error (objectIds c) 1) cur) as [A|];
    [ | injection Hs as <-; exact H ].
  destruct (find_obj (nth_error (objectIds c) 2) cur) as [B|];
    [ | injection Hs as <-; exact H ].
  unfold read_position in Hs.
  destruct (obj_position M) as [vM|] eqn:PM; [ | discriminate Hs ].
  destruct (obj_position A) as [vA|]; [ | discriminate Hs ].
  destruct (obj_position B) as [vB|]; [ | discriminate Hs ].
  cbn [bind] in Hs.
  destruct (truthy_bool (fixed M)) eqn:FM; cbn [negb] in Hs;
    injection Hs as <-; cbn [fst]; [ exact H | ].
  eapply update_found_touch; eauto; congruence.
Qed.

Lemma constraint_step_touch (c : Con) (objs : list Obj) (st st' : PassState) :
  Forall2 solver_touch objs (fst st) ->
  constraint_step c st = Ok st' ->
  Forall2 solver_touch objs (fst st').
Proof.
  intros H Hs; unfold constraint_step in Hs.
  destruct (c_type c);
    try (injection Hs as <-; first [ exact H | apply distance_step_touch; exact H ]).
  eapply midpoint_step_touch; eauto.
Qed.

(** A property of the loop state that every constraint step keeps is
    kept by a whole [forEach]. *)
Lemma forEach_invariant (I : PassState -> Prop) :
  (forall c st st', I st -> constraint_step c st = Ok st' -> I st') ->
  forall cs st st', I st -> forEach cs st = Ok st' -> I st'.
Proof.
  intros Hstep; induction cs as [ | c cs IH ]; simpl; intros st st' Hi Hs.
  - injection Hs as <-; exact Hi.
  - bind_inv Hs; eauto.
Qed.

(** A property of the working copy that every pass keeps is kept by
    the whole loop. *)
Lemma iterate_invariant (I : list Obj -> Prop) (active : list Con) :
  (forall objs st, I objs -> pass active objs = Ok st -> I (fst st)) ->
  forall n objs r objs' r',
    I objs -> iterate n active objs r = Ok (objs', r') -> I objs'.
Proof.
  intros Hpass; induction n as [ | n IH ]; simpl; intros objs r objs' r' Hi Hs.
  - injection Hs as <- _; exact Hi.
  - bind_inv Hs. destruct a as [cur e].
    specialize (Hpass _ _ Hi E); simpl in Hpass.
    destruct (fltb e lit_0_001).
    + injection Hs as <- _; exact Hpass.
    + exact (IH _ _ _ _ Hpass Hs).
Qed.

(** The JSON copy resolves ids as the stored objects do. *)
Lemma find_obj_JSON_copy (i : option string) (objs : list Obj) :
  find_obj i (JSON_copy objs) = option_map JSON_object (find_obj i objs).
Proof.
  unfold find_obj, JSON_copy.
  induction objs as [ | o l IH ]; simpl; [ reflexivity | ].
  destruct (strict_eqb (obj_id o) i); [ reflexivity | exact IH ].
Qed.

Lemma Forall2_JSON_copy (P : Obj -> Obj -> Prop) (objs objs' : list Obj) :
  Forall2 P (JSON_copy objs) objs' ->
  Forall2 (fun o o' => P (JSON_object o) o') objs objs'.
Proof.
  unfold JSON_copy; revert objs'.
  induction objs as [ | o l IH ]; simpl; intros objs' H;
    inversion H; subst; constructor; auto.
Qed.

Lemma solve_inv (objects : list Obj) (constraints : list Con)
    (objs' : list Obj) (stats : SolverStats F) :
  solve objects constraints = Ok (objs', stats) ->
  iterate MAX_ITER (activeConstraints constraints) (JSON_copy objects) lit_0
    = Ok (objs', totalError stats) /\
  iterations stats = MAX_ITER /\
  verified stats = List.length (activeConstraints constraints) /\
  total stats = List.length (activeConstraints constraints).
Proof.
  unfold solve; cbv zeta; intros H.
  bind_inv H. destruct a as [cur r].
  injection H as <- <-; simpl; auto.
Qed.

Lemma solve_touch (objects : list Obj) (constraints : list Con)
    (objs' : list Obj) (stats : SolverStats F) :
  solve objects constraints = Ok (objs', stats) ->
  Forall2 solver_touch (JSON_copy objects) objs'.
Proof.
  intros H; apply solve_inv in H as (H & _).
  revert H.
  apply (iterate_invariant
           (fun cur => Forall2 solver_touch (JSON_copy objects) cur)).
  - intros objs st Hi Hp; unfold pass in Hp.
    revert Hp.
    apply (forEach_invariant
             (fun s => Forall2 solver_touch (JSON_copy objects) (fst s))).
    + intros c s s'; apply constraint_step_touch.
    + exact Hi.
  - clear; induction (JSON_copy objects); constructor;
      auto using solver_touch_refl.
Qed.
End Structure.

Section Loop.
Context {F : Type} {NF : Number F}.

Local Abbreviation Obj := (GeometryObject F).
Local Abbreviation Con := (Constraint F).

(** [iterate_trace] is [iterate] with two more observations. *)
Lemma iterate_trace_agrees (active : list Con) :
  forall n (objs : list Obj) r ran last,
    iterate n active objs r =
    (tr <- iterate_trace n active objs r ran last ;;
     Ok (trace_objects tr, trace_totalResidual tr)).
Proof.
  induction n as [ | n IH ]; intros objs r ran last; simpl; [ reflexivity | ].
  destruct (pass active objs) as [[cur e] | err]; simpl; [ | reflexivity ].
  destruct (fltb e lit_0_001); [ reflexivity | apply IH ].
Qed.

Lemma solve_trace_agrees (objects : list Obj) (constraints : list Con) :
  solve objects constraints =
  (tr <- solve_trace objects constraints ;;
   Ok (trace_objects tr,
       Build_SolverStats MAX_ITER (trace_totalResidual tr)
         (List.length (activeConstraints constraints))
         (List.length (activeConstraints constraints)))).
Proof.
  unfold solve, solve_trace; cbv zeta.
  rewrite (iterate_trace_agrees (activeConstraints constraints) MAX_ITER
             (JSON_copy objects) lit_0 0 None).
  destruct (iterate_trace _ _ _ _ _ _); reflexivity.
Qed.

(** The loop body runs at most as often as the cap allows. *)
Lemma iterate_trace_count (active : list Con) :
  forall n (objs : list Obj) r ran last tr,
    iterate_trace n active objs r ran last = Ok tr ->
    ran <= trace_iterations_run tr <= ran + n.
Proof.
  induction n as [ | n IH ]; intros objs r ran last tr H; simpl in H.
  - injection H as <-; simpl; lia.
  - bind_inv H. destruct a as [cur e].
    destruct (fltb e lit_0_001).
    + injection H as <-; simpl; lia.
    + apply IH in H; lia.
Qed.

(** When the loop is left with a last pass that did not pass the
    convergence test, the residual is the error of that pass. *)
Lemma iterate_trace_unconverged (active : list Con) :
  forall n (objs : list Obj) r ran last tr,
    (forall e, last = Some e -> r = e) ->
    iterate_trace n active objs r ran last = Ok tr ->
    forall e, trace_last_iterError tr = Some e ->
              fltb e lit_0_001 = false ->
              trace_totalResidual tr = e.
Proof.
  induction n as [ | n IH ]; intros objs r ran last tr Hinv H e He Hlt;
    simpl in H.
  - injection H as <-; simpl in *; auto.
  - bind_inv H. destruct a as [cur e1].
    destruct (fltb e1 lit_0_001) eqn:E1.
    + injection H as <-; simpl in He; injection He as ->; congruence.
    + eapply IH; [ | exact H | exact He | exact Hlt ].
      intros e' [= ->]; reflexivity.
Qed.

(** When a pass meets the convergence test the loop is left before
    [totalResidual] is assigned: the residual is the one the iteration
    started with, whatever the error of the pass. *)
Lemma iterate_early_exit (active : list Con) (n : nat) (objs objs1 : list Obj)
    (r e : F) :
  pass active objs = Ok (objs1, e) ->
  fltb e lit_0_001 = true ->
  iterate (S n) active objs r = Ok (objs1, r).
Proof.
  intros Hpass Hlt; cbn [iterate].
  rewrite Hpass; cbn [bind]; rewrite Hlt; reflexivity.
Qed.

(** Disabled constraints take no part in [solve]. *)
Lemma activeConstraints_app (cs1 cs2 : list Con) :
  activeConstraints (cs1 ++ cs2) =
  activeConstraints cs1 ++ activeConstraints cs2.
Proof. apply filter_app. Qed.

(** A DISTANCE constraint with a dangling operand or an operand without
    a position changes nothing. *)
Lemma distance_step_skips (c : Con) (st : PassState) :
  let resolve i :=
    match find_obj (nth_error (objectIds c) i) (fst st) with
    | Some o => obj_position o
    | None => None
    end in
  resolve 0 = None \/ resolve 1 = None ->
  distance_step c st = st.
Proof.
  destruct st as [cur err]; cbn [fst]; unfold distance_step.
  set (id1 := nth_error (objectIds c) 0).
  set (id2 := nth_error (objectIds c) 1).
  intros [H | H];
    destruct (find_obj id1 cur) as [q1|]; try reflexivity;
    destruct (find_obj id2 cur) as [q2|]; try reflexivity;
    destruct (obj_position q1); try reflexivity; try discriminate H;
    destruct (obj_position q2); try reflexivity; discriminate H.
Qed.

(** A MIDPOINT constraint with a dangling operand changes nothing. *)
Lemma midpoint_step_dangling (c : Con) (st : PassState) :
  (exists i, i < 3 /\
             find_obj (nth_error (objectIds c) i) (fst st) = None) ->
  midpoint_step c st = Ok st.
Proof.
  destruct st as [cur err]; cbn [fst]; unfold midpoint_step.
  intros (i & Hi & H).
  assert (Hc : i = 0 \/ i = 1 \/ i = 2) by lia.
  destruct Hc as [-> | [-> | ->]]; rewrite H;
    repeat match goal with
           | |- context [match find_obj ?a ?b with _ => _ end] =>
               destruct (find_obj a b)
           end; reflexivity.
Qed.
End Loop.

(** * The solver's structure *)

(** C1, evaluated on the code: a MIDPOINT constraint whose operands all
    resolve, the first to an object without position data, makes
    [solve] raise a TypeError, so nothing is committed; the DISTANCE
    branch on the same object skips the constraint and returns the
    scene as it was. *)
Theorem C1_midpoint_without_position_raises :
  solve scene_midpoint [midpoint_MAB] = Throw TypeError /\
  solve scene_midpoint [distance_MA; midpoint_MAB] = Throw TypeError /\
  exists stats,
    solve scene_midpoint [distance_MA] = Ok (scene_midpoint, stats).
Proof.
  split; [ vm_compute; reflexivity | ].
  split; [ vm_compute; reflexivity | ].
  eexists; vm_compute; reflexivity.
Qed.

(** C2 as the claim words it does not hold: a Distance constraint
    between two free Circle objects moves both of them. *)
Lemma C2_non_point_object_moved :
  ~ (forall objs cs objs' stats,
        solve (F:=jsnum) objs cs = Ok (objs', stats) ->
        Forall2 point_only_touch objs objs').
Proof.
  intros H.
  destruct (solve scene_circles [distance_AB_5]) as [[objs' stats] | e] eqn:E;
    [ | vm_compute in E; discriminate E ].
  specialize (H _ _ _ _ E).
  vm_compute in E; injection E as <- _.
  inversion H as [ | o o' l l' Hhead _ ]; subst.
  destruct Hhead as [Heq | (Hty & _)]; [ | discriminate Hty ].
  apply (f_equal
           (fun o => match obj_position o with
                     | Some (Num x, _, _) => PrimFloat.eqb x 0
                     | _ => false
                     end)) in Heq.
  vm_compute in Heq; discriminate Heq.
Qed.

(** C2, amended: [solve] returns the same entities in the same order;
    an object differs from the JSON copy of its input only by a
    rewritten position, and only if it is not fixed and already carried
    a position, whatever its type; every fixed object is returned as
    its JSON copy. So for an object that its JSON copy equals (its
    numbers are finite and none is -0) the only field that can differ
    from the input is the position, and if it is fixed it is returned
    unchanged. *)
Theorem C2_solve_rewrites_free_positions_only
    {F : Type} {NF : Number F}
    (objects : list (GeometryObject F)) (constraints : list (Constraint F))
    (objs' : list (GeometryObject F)) (stats : SolverStats F) :
  solve objects constraints = Ok (objs', stats) ->
  Forall2 (fun o o' => solver_touch (JSON_object o) o') objects objs' /\
  map obj_id objs' = map obj_id objects /\
  map obj_type objs' = map obj_type objects /\
  Forall2 (fun o o' => truthy_bool (fixed o) = true -> o' = JSON_object o)
    objects objs' /\
  Forall2
    (fun o o' =>
       JSON_object o = o ->
       solver_touch o o' /\ (truthy_bool (fixed o) = true -> o' = o))
    objects objs'.
Proof.
  intros H; apply solve_touch, Forall2_JSON_copy in H.
  split; [ exact H | ].
  assert (Hfix : forall o o',
             solver_touch (JSON_object o) o' ->
             truthy_bool (fixed o) = true -> o' = JSON_object o).
  { intros o o' [-> | (Hf & _)] Hfx; [ reflexivity | ].
    simpl in Hf; congruence. }
  split; [ | split; [ | split ] ].
  - induction H as [ | o o' l l' Ho _ IH ]; simpl; [ reflexivity | ].
    rewrite IH; f_equal.
    destruct Ho as [-> | (_ & _ & p' & ->)]; [ reflexivity | ].
    destruct (with_position_fields p' (JSON_object o)) as (-> & _).
    reflexivity.
  - induction H as [ | o o' l l' Ho _ IH ]; simpl; [ reflexivity | ].
    rewrite IH; f_equal.
    destruct Ho as [-> | (_ & _ & p' & ->)]; [ reflexivity | ].
    destruct (with_position_fields p' (JSON_object o)) as (_ & -> & _).
    reflexivity.
  - revert H; apply Forall2_impl; exact Hfix.
  - revert H; apply Forall2_impl.
    intros o o' Ho Hst; rewrite Hst in Ho.
    split; [ exact Ho | ].
    intros Hfx; rewrite <- Hst; apply Hfix; [ | exact Hfx ].
    rewrite Hst; exact Ho.
Qed.

Lemma C2_witness :
  let solved := solve scene_circles [distance_AB_5] in
  exists objs' stats,
    solved = Ok (objs', stats) /\
    JSON_copy scene_circles = scene_circles /\
    Forall2 (fun o o' => solver_touch (JSON_object o) o') scene_circles
      objs' /\
    map obj_id objs' = map obj_id scene_circles /\
    map obj_type objs' = map obj_type scene_circles.
Proof.
  intros solved.
  destruct solved as [[objs' stats] | e] eqn:E;
    [ | vm_compute in E; discriminate E ].
  exists objs', stats.
  split; [ reflexivity | ].
  split; [ reflexivity | ].
  destruct (C2_solve_rewrites_free_positions_only scene_circles
              [distance_AB_5] objs' stats E) as (H1 & H2 & H3 & _).
  repeat split; assumption.
Defined.

(** C3, evaluated on the code. On two free points 10 apart with a
    Distance target of 5 the loop stops in its 14th iteration, whose
    total error is 0.0006103515625, and [solve] reports the total of
    the iteration before, 0.001220703125. On two points 5.0009765625
    apart the first iteration passes the convergence test with a total
    of 0.0009765625, and [solve] reports 0. *)
Theorem C3_reported_residual_is_stale :
  (exists objs' stats tr,
      solve scene_AB [distance_AB_5] = Ok (objs', stats) /\
      solve_trace scene_AB [distance_AB_5] = Ok tr /\
      trace_iterations_run tr = 14 /\
      trace_last_iterError tr = Some (Num 0.0006103515625) /\
      totalError stats = Num 0.001220703125) /\
  (exists objs' stats tr,
      solve scene_AB_near [distance_AB_5] = Ok (objs', stats) /\
      solve_trace scene_AB_near [distance_AB_5] = Ok tr /\
      trace_iterations_run tr = 1 /\
      trace_last_iterError tr = Some (Num 0.0009765625) /\
      totalError stats = Num 0).
Proof.
  split.
  - do 3 eexists.
    split; [ vm_compute; reflexivity | ].
    split; [ vm_compute; reflexivity | ].
    repeat split.
  - do 3 eexists.
    split; [ vm_compute; reflexivity | ].
    split; [ vm_compute; reflexivity | ].
    repeat split.
Qed.

(** C4 as the claim words it does not hold: the loop body runs 14
    times on this scene and the reported count is 50. *)
Lemma C4_reported_iterations_not_those_run :
  exists objs' stats tr,
    solve scene_AB [distance_AB_5] = Ok (objs', stats) /\
    solve_trace scene_AB [distance_AB_5] = Ok tr /\
    trace_iterations_run tr = 14 /\
    iterations stats = 50 /\
    iterations stats <> trace_iterations_run tr.
Proof.
  do 3 eexists.
  split; [ vm_compute; reflexivity | ].
  split; [ vm_compute; reflexivity | ].
  repeat split; simpl; lia.
Qed.

(** C4, amended: the reported iteration count is always the cap of 50,
    which bounds the number of iterations that ran; the verified count
    and the total both equal the number of enabled constraints. *)
Theorem C4_stats_report_cap_and_enabled_count
    {F : Type} {NF : Number F}
    (objects : list (GeometryObject F)) (constraints : list (Constraint F))
    (objs' : list (GeometryObject F)) (stats : SolverStats F) :
  solve objects constraints = Ok (objs', stats) ->
  iterations stats = 50 /\
  verified stats = List.length (activeConstraints constraints) /\
  total stats = List.length (activeConstraints constraints) /\
  exists tr,
    solve_trace objects constraints = Ok tr /\
    trace_objects tr = objs' /\
    trace_iterations_run tr <= iterations stats.
Proof.
  intros H.
  destruct (solve_inv _ _ _ _ H) as (_ & Hi & Hv & Ht).
  repeat split; try assumption.
  rewrite solve_trace_agrees in H.
  destruct (solve_trace objects constraints) as [tr | e] eqn:E;
    [ | discriminate H ].
  exists tr; split; [ reflexivity | ].
  simpl in H; injection H as <- _.
  split; [ reflexivity | ].
  apply iterate_trace_count in E; rewrite Hi; unfold MAX_ITER in *; lia.
Qed.

Lemma C4_witness :
  exists objs' stats,
    solve scene_AB [distance_AB_5] = Ok (objs', stats) /\
    iterations stats = 50 /\ verified stats = 1 /\ total stats = 1.
Proof.
  destruct (solve scene_AB [distance_AB_5]) as [[objs' stats] | e] eqn:E;
    [ | vm_compute in E; discriminate E ].
  exists objs', stats.
  destruct (C4_stats_report_cap_and_enabled_count scene_AB [distance_AB_5]
              objs' stats E)
    as (Hi & Hv & Ht & _).
  repeat split; assumption.
Defined.

(** C5 as the claim words it does not hold: a constraint added with
    [enabled] unset is stored with [enabled] still unset, is not among
    the active constraints, and [solve] leaves two points 10 apart
    where they are although the constraint asks for a distance of 5. *)
Lemma C5_unset_enabled_is_not_defaulted :
  enabled distance_AB_5_unset = None /\
  map enabled (addConstraint distance_AB_5_unset []) = [None] /\
  activeConstraints (addConstraint distance_AB_5_unset []) = [] /\
  exists stats,
    solve scene_AB (addConstraint distance_AB_5_unset [])
    = Ok (scene_AB, stats).
Proof.
  repeat split.
  eexists; vm_compute; reflexivity.
Qed.

(** C5, amended: [addConstraint] appends the constraint as given and
    applies no default; a constraint stored with [enabled = true] is
    among those every later [solve] evaluates, and one stored with
    [enabled] unset is not: [solve] behaves as if it had not been
    added. *)
Theorem C5_addConstraint_appends_as_given
    {F : Type} {NF : Number F}
    (c : Constraint F) (prev : list (Constraint F))
    (objects : list (GeometryObject F)) :
  addConstraint c prev = prev ++ [c] /\
  (enabled c = Some true ->
   activeConstraints (addConstraint c prev) = activeConstraints prev ++ [c]) /\
  (enabled c = None ->
   activeConstraints (addConstraint c prev) = activeConstraints prev /\
   solve objects (addConstraint c prev) = solve objects prev).
Proof.
  unfold addConstraint.
  split; [ reflexivity | ].
  split; intros He.
  - rewrite activeConstraints_app; unfold activeConstraints at 2; simpl.
    rewrite He; reflexivity.
  - assert (Ha : activeConstraints (prev ++ [c]) = activeConstraints prev).
    { rewrite activeConstraints_app; unfold activeConstraints at 2; simpl.
      rewrite He; simpl; apply app_nil_r. }
    split; [ exact Ha | ].
    unfold solve; rewrite Ha; reflexivity.
Qed.

Lemma C5_witness :
  activeConstraints (addConstraint distance_AB_5 [distance_AB_5_unset])
  = [distance_AB_5] /\
  solve scene_AB (addConstraint distance_AB_5_unset [distance_AB_5])
  = solve scene_AB [distance_AB_5].
Proof.
  split.
  - exact (proj1 (proj2 (C5_addConstraint_appends_as_given distance_AB_5
                           [distance_AB_5_unset] scene_AB)) eq_refl).
  - exact (proj2 (proj2 (proj2 (C5_addConstraint_appends_as_given
                                  distance_AB_5_unset [distance_AB_5]
                                  scene_AB)) eq_refl)).
Defined.

(** * The scene store *)

Section Store.
Context {F : Type}.

Local Abbreviation Obj := (GeometryObject F).

(** After the upsert, the id of the inserted object resolves to it. *)
Lemma find_obj_upsert (obj : Obj) :
  forall prev : list Obj,
    find_obj (obj_id obj)
      match findIndex (obj_id obj) prev with
      | Some existsIndex => assign_at existsIndex obj prev
      | None => prev ++ [obj]
      end
    = Some obj.
Proof.
  unfold find_obj.
  induction prev as [ | p rest IH ]; simpl.
  - rewrite strict_eqb_refl; reflexivity.
  - destruct (strict_eqb (obj_id p) (obj_id obj)) eqn:E; simpl.
    + rewrite strict_eqb_refl; reflexivity.
    + destruct (findIndex (obj_id obj) rest); simpl; rewrite E; exact IH.
Qed.

Lemma truthy_string_some (s : string) :
  s <> EmptyString -> truthy_string (Some s) = true.
Proof.
  intros H; simpl.
  destruct (String.eqb_spec s EmptyString); [ contradiction | reflexivity ].
Qed.
End Store.

(** C9: a Segment whose [points] list is absent or empty and whose
    data bag carries two endpoint ids [p1] and [p2] is stored with
    [points = [p1, p2]]; the stored object is the one its id resolves
    to after the insertion. An endpoint id is a non-empty string. *)
Theorem C9_segment_points_backfilled
    {F : Type} (fresh : string) (rawObj : GeometryObject F)
    (prev : list (GeometryObject F)) (d : ObjectData F) (a b : string) :
  obj_type rawObj = SEGMENT ->
  points rawObj = None \/ points rawObj = Some [] ->
  data rawObj = Some d ->
  data_p1 d = Some a -> data_p2 d = Some b ->
  a <> EmptyString -> b <> EmptyString ->
  exists stored,
    find_obj (obj_id stored) (addObject fresh rawObj prev) = Some stored /\
    In stored (addObject fresh rawObj prev) /\
    points stored = Some [a; b].
Proof.
  intros Hty Hpts Hd Ha Hb Hane Hbne.
  exists (normalize_object fresh rawObj).
  assert (Hfind : find_obj (obj_id (normalize_object fresh rawObj))
                    (addObject fresh rawObj prev)
                  = Some (normalize_object fresh rawObj))
    by apply find_obj_upsert.
  split; [ exact Hfind | ].
  split; [ exact (proj1 (find_some _ _ Hfind)) | ].
  apply truthy_string_some in Hane, Hbne.
  destruct rawObj as [i ty n col vis sel fx pts dat].
  destruct d as [pos nrm rad hgt dp1 dp2 dpts].
  cbn [obj_type points data data_p1 data_p2] in Hty, Hpts, Hd, Ha, Hb.
  subst ty dat dp1 dp2.
  unfold normalize_object; cbn -[truthy_string].
  destruct (truthy_string i); destruct vis; destruct Hpts as [-> | ->];
    cbn -[truthy_string]; rewrite Hane, Hbne; reflexivity.
Qed.

Lemma C9_witness :
  exists stored,
    find_obj (obj_id stored) (addObject "k3x9q2m1a" segment_payload scene_AB)
    = Some stored /\
    In stored (addObject "k3x9q2m1a" segment_payload scene_AB) /\
    points stored = Some ["A"; "B"]%string.
Proof.
  apply (C9_segment_points_backfilled "k3x9q2m1a" segment_payload scene_AB
           (Build_ObjectData None None None None
              (Some "A"%string) (Some "B"%string) None)
           "A"%string "B"%string);
    solve [ reflexivity | left; reflexivity | discriminate ].
Defined.

(** * Resolving and rewriting objects by id *)

Section Updates.
Context {F : Type} {NF : Number F}.

Local Abbreviation Obj := (GeometryObject F).
Local Abbreviation Con := (Constraint F).

Lemma strict_eqb_eq (a b : option string) : strict_eqb a b = true <-> a = b.
Proof.
  destruct a as [x|], b as [y|]; simpl; split; intros H;
    try discriminate; try reflexivity.
  - apply String.eqb_eq in H; congruence.
  - injection H as ->; apply String.eqb_refl.
Qed.

Lemma strict_eqb_neq (a b : option string) : a <> b -> strict_eqb a b = false.
Proof.
  intros H; destruct (strict_eqb a b) eqn:E; [ | reflexivity ].
  apply strict_eqb_eq in E; contradiction.
Qed.

Lemma with_position_keeps_id (p : Point3 F) : keeps_id (with_position p).
Proof. intros o; apply with_position_fields. Qed.

Lemma find_obj_update_same (i : option string) (f : Obj -> Obj) :
  keeps_id f ->
  forall l, find_obj i (update_found i f l) = option_map f (find_obj i l).
Proof.
  intros Hf; unfold find_obj; induction l as [ | o l IH ]; simpl;
    [ reflexivity | ].
  destruct (strict_eqb (obj_id o) i) eqn:E; simpl.
  - rewrite Hf, E; reflexivity.
  - rewrite E; exact IH.
Qed.

Lemma find_obj_update_other (i j : option string) (f : Obj -> Obj) :
  keeps_id f -> i <> j ->
  forall l, find_obj j (update_found i f l) = find_obj j l.
Proof.
  intros Hf Hij; unfold find_obj; induction l as [ | o l IH ]; simpl;
    [ reflexivity | ].
  destruct (strict_eqb (obj_id o) i) eqn:Ei; simpl.
  - rewrite Hf.
    apply strict_eqb_eq in Ei.
    rewrite (strict_eqb_neq (obj_id o) j) by congruence.
    reflexivity.
  - rewrite IH; reflexivity.
Qed.

Lemma update_found_ext (i : option string) (f g : Obj -> Obj) :
  (forall o, f o = g o) ->
  forall l, update_found i f l = update_found i g l.
Proof.
  intros H; induction l as [ | o l IH ]; simpl; [ reflexivity | ].
  rewrite H, IH; reflexivity.
Qed.

Lemma update_found_twice (i : option string) (f g : Obj -> Obj) :
  keeps_id g ->
  forall l,
    update_found i f (update_found i g l)
    = update_found i (fun o => f (g o)) l.
Proof.
  intros Hg; induction l as [ | o l IH ]; simpl; [ reflexivity | ].
  destruct (strict_eqb (obj_id o) i) eqn:E; simpl.
  - rewrite Hg, E; reflexivity.
  - rewrite E, IH; reflexivity.
Qed.

Lemma update_found_comm (i j : option string) (f g : Obj -> Obj) :
  keeps_id f -> keeps_id g -> i <> j ->
  forall l,
    update_found i f (update_found j g l)
    = update_found j g (update_found i f l).
Proof.
  intros Hf Hg Hij; induction l as [ | o l IH ]; simpl; [ reflexivity | ].
  destruct (strict_eqb (obj_id o) j) eqn:Ej;
    destruct (strict_eqb (obj_id o) i) eqn:Ei; simpl.
  - apply strict_eqb_eq in Ei, Ej; congruence.
  - rewrite Hg, Ei, Ej; reflexivity.
  - rewrite Hf, Ei, Ej; reflexivity.
  - rewrite Ei, Ej, IH; reflexivity.
Qed.

Lemma update_found_fixpoint (i : option string) (f : Obj -> Obj) :
  forall l o, find_obj i l = Some o -> f o = o -> update_found i f l = l.
Proof.
  unfold find_obj; induction l as [ | x l IH ]; simpl; intros o Ho Hf;
    [ reflexivity | ].
  destruct (strict_eqb (obj_id x) i).
  - injection Ho as ->; rewrite Hf; reflexivity.
  - erewrite IH; eauto.
Qed.

Lemma with_position_same (p : Point3 F) (o : Obj) :
  obj_position o = Some p -> with_position p o = o.
Proof.
  unfold obj_position, with_position.
  destruct o as [i ty n col vis sel fx pts [d|]]; simpl; [ | discriminate ].
  destruct d; simpl; intros ->; reflexivity.
Qed.

(** After [b]'s object was rewritten, [a] resolves to the object it
    resolved to before, unless that very object was the one rewritten. *)
Lemma find_obj_after_update (a b : option string) (f : Obj -> Obj) :
  keeps_id f ->
  forall l q qb,
    find_obj a l = Some q -> find_obj b l = Some qb ->
    find_obj a (update_found b f l) = Some q \/
    (q = qb /\ find_obj a (update_found b f l) = Some (f q)).
Proof.
  intros Hf; unfold find_obj.
  induction l as [ | o l IH ]; simpl; intros q qb Hq Hqb; [ discriminate | ].
  destruct (strict_eqb (obj_id o) b) eqn:Eb; simpl.
  - injection Hqb as <-. rewrite Hf.
    destruct (strict_eqb (obj_id o) a).
    + injection Hq as <-; right; auto.
    + left; exact Hq.
  - destruct (strict_eqb (obj_id o) a).
    + left; exact Hq.
    + eapply IH; eauto.
Qed.

(** Rewriting the resolved object keeps a pointwise relation to a
    reference list, if the rewrite keeps it for that object. *)
Lemma update_found_Forall2 {A : Type} (R R' : A -> Obj -> Prop)
    (i : option string) (f : Obj -> Obj) :
  (forall a o, R a o -> R' a o) ->
  forall l0 l q,
    Forall2 R l0 l ->
    find_obj i l = Some q ->
    (forall a, R a q -> R' a (f q)) ->
    Forall2 R' l0 (update_found i f l).
Proof.
  intros Hweak l0 l q H; revert q.
  induction H as [ | a o l0 l Ha Hrest IH ]; intros q Hfind Hq.
  - constructor.
  - unfold find_obj in Hfind; simpl in *.
    destruct (strict_eqb (obj_id o) i).
    + injection Hfind as <-.
      constructor; [ auto | ].
      clear - Hweak Hrest; induction Hrest; constructor; auto.
    + constructor; [ auto | eapply IH; eauto ].
Qed.

(** An absent target and an explicit target of 0 are the same target. *)
Lemma target_of_explicit_zero (c : Con) :
  target_of (explicit_zero_target c) = target_of c.
Proof.
  unfold explicit_zero_target, target_of.
  destruct (targetValue c) eqn:E; simpl; [ rewrite E; reflexivity | ].
  destruct (ftruthy lit_0); reflexivity.
Qed.

Lemma constraint_step_explicit_zero (c : Con) (st : PassState) :
  constraint_step (explicit_zero_target c) st = constraint_step c st.
Proof.
  unfold constraint_step.
  assert (Hty : c_type (explicit_zero_target c) = c_type c)
    by (unfold explicit_zero_target; destruct (targetValue c); reflexivity).
  assert (Hids : objectIds (explicit_zero_target c) = objectIds c)
    by (unfold explicit_zero_target; destruct (targetValue c); reflexivity).
  rewrite Hty.
  destruct (c_type c); try reflexivity.
  - unfold distance_step.
    rewrite Hids, target_of_explicit_zero; reflexivity.
  - unfold midpoint_step. rewrite Hids; reflexivity.
Qed.

Lemma forEach_explicit_zero (cs : list Con) :
  forall st, forEach (map explicit_zero_target cs) st = forEach cs st.
Proof.
  induction cs as [ | c cs IH ]; intros st; simpl; [ reflexivity | ].
  rewrite constraint_step_explicit_zero.
  destruct (constraint_step c st); simpl; [ apply IH | reflexivity ].
Qed.

Lemma activeConstraints_explicit_zero (cs : list Con) :
  activeConstraints (map explicit_zero_target cs)
  = map explicit_zero_target (activeConstraints cs).
Proof.
  unfold activeConstraints.
  induction cs as [ | c cs IH ]; simpl; [ reflexivity | ].
  assert (He : enabled (explicit_zero_target c) = enabled c)
    by (unfold explicit_zero_target; destruct (targetValue c); reflexivity).
  rewrite He.
  destruct (truthy_bool (enabled c)); simpl; rewrite IH; reflexivity.
Qed.

Lemma iterate_explicit_zero (active : list Con) :
  forall n (objs : list Obj) r,
    iterate n (map explicit_zero_target active) objs r
    = iterate n active objs r.
Proof.
  induction n as [ | n IH ]; intros objs r; simpl; [ reflexivity | ].
  unfold pass; rewrite forEach_explicit_zero.
  destruct (forEach active (objs, lit_0)) as [[cur e] | err]; simpl;
    [ | reflexivity ].
  destruct (fltb e lit_0_001); [ reflexivity | apply IH ].
Qed.

(** [solve] does not tell an absent target from an explicit 0. *)
Lemma solve_explicit_zero (objects : list Obj) (constraints : list Con) :
  solve objects (map explicit_zero_target constraints)
  = solve objects constraints.
Proof.
  unfold solve.
  rewrite activeConstraints_explicit_zero, iterate_explicit_zero.
  rewrite length_map; reflexivity.
Qed.
End Updates.

(** * Vectors in exact arithmetic *)

Section ExactVectors.
Local Open Scope R_scope.

Local Abbreviation Vec := (Point3 R).
Local Abbreviation sqrt := R_sqrt.sqrt.

Lemma distanceTo_vlength (a b : Vec) : distanceTo a b = vlength (vsub a b).
Proof. destruct a as [[? ?] ?], b as [[? ?] ?]; reflexivity. Qed.

Lemma sum_squares_nonneg (x y z : R) : 0 <= x * x + y * y + z * z.
Proof. nra. Qed.

Lemma vlength_nonneg (a : Vec) : 0 <= vlength a.
Proof. destruct a as [[x y] z]; apply sqrt_pos. Qed.

Lemma vlength_sqr (a : Vec) :
  let '(x, y, z) := a in vlength a * vlength a = x * x + y * y + z * z.
Proof.
  destruct a as [[x y] z]; simpl.
  apply sqrt_sqrt, sum_squares_nonneg.
Qed.

Lemma vlength_scale (a : Vec) (k : R) :
  vlength (multiplyScalar a k) = Rabs k * vlength a.
Proof.
  destruct a as [[x y] z]; simpl.
  replace (x * k * (x * k) + y * k * (y * k) + z * k * (z * k))
    with (k * k * (x * x + y * y + z * z)) by ring.
  rewrite sqrt_mult by (try apply sum_squares_nonneg; nra).
  fold (Rsqr k); rewrite sqrt_Rsqr_abs; reflexivity.
Qed.

Lemma vlength_opp (a b : Vec) : vlength (vsub a b) = vlength (vsub b a).
Proof.
  destruct a as [[x y] z], b as [[x' y'] z']; simpl.
  f_equal; ring.
Qed.

(** Cauchy-Schwarz in three dimensions. *)
Lemma dot_le_lengths (x y z x' y' z' : R) :
  x * x' + y * y' + z * z'
  <= sqrt (x * x + y * y + z * z) * sqrt (x' * x' + y' * y' + z' * z').
Proof.
  set (X := x * x + y * y + z * z).
  set (Y := x' * x' + y' * y' + z' * z').
  set (d := x * x' + y * y' + z * z').
  assert (HX : 0 <= X) by apply sum_squares_nonneg.
  assert (HY : 0 <= Y) by apply sum_squares_nonneg.
  destruct (Rle_or_lt d 0) as [Hd | Hd].
  - apply Rle_trans with 0; [ exact Hd | ].
    apply Rmult_le_pos; apply sqrt_pos.
  - rewrite <- sqrt_mult by assumption.
    rewrite <- (sqrt_square d) by lra.
    apply sqrt_le_1_alt.
    unfold d, X, Y.
    assert (H : 0 <= (x * y' - y * x') * (x * y' - y * x')
                     + (x * z' - z * x') * (x * z' - z * x')
                     + (y * z' - z * y') * (y * z' - z * y'))
      by apply sum_squares_nonneg.
    nra.
Qed.

Lemma vlength_triangle (a b : Vec) :
  vlength (vadd a b) <= vlength a + vlength b.
Proof.
  destruct a as [[x y] z], b as [[x' y'] z']; simpl.
  set (A := sqrt (x * x + y * y + z * z)).
  set (B := sqrt (x' * x' + y' * y' + z' * z')).
  assert (HA : 0 <= A) by apply sqrt_pos.
  assert (HB : 0 <= B) by apply sqrt_pos.
  rewrite <- (sqrt_square (A + B)) by lra.
  apply sqrt_le_1_alt.
  assert (HAA : A * A = x * x + y * y + z * z)
    by apply sqrt_sqrt, sum_squares_nonneg.
  assert (HBB : B * B = x' * x' + y' * y' + z' * z')
    by apply sqrt_sqrt, sum_squares_nonneg.
  pose proof (dot_le_lengths x y z x' y' z') as Hdot.
  fold A B in Hdot.
  nra.
Qed.

Lemma distanceTo_triangle (a b c : Vec) :
  distanceTo a c <= distanceTo a b + distanceTo b c.
Proof.
  rewrite !distanceTo_vlength.
  replace (vsub a c) with (vadd (vsub a b) (vsub b c)).
  - apply vlength_triangle.
  - destruct a as [[? ?] ?], b as [[? ?] ?], c as [[? ?] ?]; simpl.
    f_equal; [ f_equal | ]; ring.
Qed.

Lemma distanceTo_self (a : Vec) : distanceTo a a = 0.
Proof.
  rewrite distanceTo_vlength; destruct a as [[x y] z]; simpl.
  replace ((x - x) * (x - x) + (y - y) * (y - y) + (z - z) * (z - z))
    with 0 by ring.
  apply sqrt_0.
Qed.

Lemma distanceTo_nonneg (a b : Vec) : 0 <= distanceTo a b.
Proof. rewrite distanceTo_vlength; apply vlength_nonneg. Qed.

Lemma distanceTo_sym (a b : Vec) : distanceTo a b = distanceTo b a.
Proof. rewrite !distanceTo_vlength; apply vlength_opp. Qed.

(** Moving a point by [off] moves it by the length of [off]. *)
Lemma distanceTo_vadd (v off : Vec) :
  distanceTo v (vadd v off) = vlength off.
Proof.
  rewrite distanceTo_vlength.
  destruct v as [[x y] z], off as [[a b] c]; simpl.
  f_equal; ring.
Qed.

Lemma distanceTo_vsub (v off : Vec) :
  distanceTo v (vsub v off) = vlength off.
Proof.
  rewrite distanceTo_vlength.
  destruct v as [[x y] z], off as [[a b] c]; simpl.
  f_equal; ring.
Qed.
End ExactVectors.

Lemma distanceTo_on_x_axis (x : R) :
  (0 <= x)%R -> distanceTo (0, 0, 0)%R (x, 0, 0)%R = x.
Proof.
  intros Hx; rewrite distanceTo_vlength; simpl.
  replace ((0 - x) * (0 - x) + (0 - 0) * (0 - 0) + (0 - 0) * (0 - 0))%R
    with (x * x)%R by ring.
  apply sqrt_square; exact Hx.
Qed.

(** * The solver in exact arithmetic *)

Section ExactSolver.
Local Open Scope R_scope.

Local Abbreviation Vec := (Point3 R).
Local Abbreviation Obj := (GeometryObject R).
Local Abbreviation Con := (Constraint R).

Lemma fltb_exact_true (a b : R) : a < b -> fltb a b = true.
Proof. intros H; simpl; destruct (Rlt_dec a b); [ reflexivity | lra ]. Qed.

Lemma fltb_exact_false (a b : R) : b <= a -> fltb a b = false.
Proof. intros H; simpl; destruct (Rlt_dec a b); [ lra | reflexivity ]. Qed.

(** Real numbers are their own JSON copies: the copy holds the stored
    objects. *)
Lemma JSON_copy_exact (objects : list Obj) : JSON_copy objects = objects.
Proof.
  unfold JSON_copy.
  induction objects as [ | o l IH ]; simpl; [ reflexivity | ].
  rewrite IH; f_equal.
  destruct o as [i ty n col vis sel fx pts [d|]]; [ | reflexivity ].
  destruct d as [pos nor r h q1 q2 qs].
  unfold JSON_object, JSON_data; simpl; do 2 f_equal.
  f_equal;
    try (destruct pos as [[[x y] z]|]; reflexivity);
    try (destruct nor as [[[x y] z]|]; reflexivity);
    try (destruct r; reflexivity); try (destruct h; reflexivity).
Qed.

(** The DISTANCE branch on two free endpoints more than 0.0001 apart. *)
Lemma distance_step_free (c : Con) (cur : list Obj) (err : R)
    (p1 p2 : Obj) (v1 v2 : Vec) :
  let id1 := nth_error (objectIds c) 0 in
  let id2 := nth_error (objectIds c) 1 in
  let dist := distanceTo v1 v2 in
  let off :=
    multiplyScalar (vsub v2 v1) ((dist - target_of c) / dist * 0.5 * 0.5) in
  find_obj id1 cur = Some p1 -> find_obj id2 cur = Some p2 ->
  obj_position p1 = Some v1 -> obj_position p2 = Some v2 ->
  truthy_bool (fixed p1) = false -> truthy_bool (fixed p2) = false ->
  0.0001 < dist ->
  distance_step c (cur, err)
  = (update_found id2 (with_position (vsub v2 off))
       (update_found id1 (with_position (vadd v1 off)) cur),
     err + Rabs (dist - target_of c)).
Proof.
  intros id1 id2 dist off H1 H2 P1 P2 F1 F2 Hd.
  unfold distance_step.
  fold id1 id2; rewrite H1, H2, P1, P2.
  fold dist.
  assert (Hlt : fltb (lit_0_0001 (F := R)) dist = true)
    by (apply fltb_exact_true; exact Hd).
  rewrite Hlt, F1, F2.
  reflexivity.
Qed.

(** Two operands that resolve to points a positive distance apart are
    different objects under different ids. *)
Lemma apart_distinct (cur : list Obj) (i j : option string) (p q : Obj)
    (v w : Vec) :
  find_obj i cur = Some p -> find_obj j cur = Some q ->
  obj_position p = Some v -> obj_position q = Some w ->
  0 < distanceTo v w -> i <> j.
Proof.
  intros Hp Hq Pv Pw Hd ->.
  assert (v = w) by congruence; subst w.
  rewrite distanceTo_self in Hd; lra.
Qed.
End ExactSolver.

Section ExactDistance.
Local Open Scope R_scope.

Local Abbreviation Vec := (Point3 R).
Local Abbreviation Obj := (GeometryObject R).
Local Abbreviation Con := (Constraint R).

(** The error that the DISTANCE branch accumulates when both operands
    resolve to positioned objects. *)
Lemma distance_step_error (c : Con) (cur : list Obj) (err : R)
    (p1 p2 : Obj) (v1 v2 : Vec) :
  find_obj (nth_error (objectIds c) 0) cur = Some p1 ->
  find_obj (nth_error (objectIds c) 1) cur = Some p2 ->
  obj_position p1 = Some v1 -> obj_position p2 = Some v2 ->
  snd (distance_step c (cur, err))
  = err + Rabs (distanceTo v1 v2 - target_of c).
Proof.
  intros H1 H2 P1 P2; unfold distance_step.
  rewrite H1, H2, P1, P2.
  destruct (fltb lit_0_0001 (distanceTo v1 v2)); reflexivity.
Qed.

(** With a target of 0 the two free endpoints each come a quarter of
    their distance closer. *)
Lemma halve_distance (v1 v2 : Vec) :
  0 < distanceTo v1 v2 ->
  let dist := distanceTo v1 v2 in
  let off := multiplyScalar (vsub v2 v1) ((dist - 0) / dist * 0.5 * 0.5) in
  distanceTo (vadd v1 off) (vsub v2 off) = dist / 2.
Proof.
  intros Hd dist off.
  fold dist in Hd.
  assert (Hone : (dist - 0) / dist = 1) by (field; lra).
  assert (Hk : (dist - 0) / dist * 0.5 * 0.5 = 0.25) by (rewrite Hone; lra).
  unfold off; rewrite Hk.
  rewrite distanceTo_vlength.
  replace (vsub (vadd v1 (multiplyScalar (vsub v2 v1) 0.25))
             (vsub v2 (multiplyScalar (vsub v2 v1) 0.25)))
    with (multiplyScalar (vsub v1 v2) 0.5).
  - rewrite vlength_scale, <- distanceTo_vlength.
    fold dist; rewrite Rabs_pos_eq by lra; lra.
  - destruct v1 as [[x y] z], v2 as [[x' y'] z']; simpl.
    f_equal; [ f_equal | ]; lra.
Qed.
End ExactDistance.

(** * Two free points under a Distance constraint without target, exactly *)

Section ExactCollapse.
Local Open Scope R_scope.

Variables (objects : list (GeometryObject R)) (c : Constraint R).
Variables (ia ib : string) (rest : list string).
Variables (a b : GeometryObject R) (va vb : Point3 R).

Hypothesis c_distance : c_type c = DISTANCE.
Hypothesis c_operands : objectIds c = ia :: ib :: rest.
Hypothesis c_no_target : targetValue c = None.
Hypothesis a_found : find_obj (Some ia) objects = Some a.
Hypothesis b_found : find_obj (Some ib) objects = Some b.
Hypothesis a_free : truthy_bool (fixed a) = false.
Hypothesis b_free : truthy_bool (fixed b) = false.
Hypothesis a_at : obj_position a = Some va.
Hypothesis b_at : obj_position b = Some vb.
Hypothesis apart : 0 < distanceTo va vb.

Local Abbreviation d := (distanceTo va vb).
Local Abbreviation pa := (pull_a va vb).
Local Abbreviation pb := (pull_b va vb).
Local Abbreviation scene := (pulled objects ia ib va vb).

Lemma pulled_ids_differ : Some ia <> Some ib.
Proof. apply (apart_distinct objects _ _ a b va vb); auto. Qed.

Lemma absent_target_is_0 : target_of c = 0.
Proof. unfold target_of; rewrite c_no_target; reflexivity. Qed.

Lemma pulled_a (s : R) :
  find_obj (Some ia) (scene s) = Some (with_position (pa s) a).
Proof.
  unfold pulled.
  rewrite find_obj_update_other;
    auto using with_position_keeps_id, not_eq_sym, pulled_ids_differ.
  rewrite find_obj_update_same by apply with_position_keeps_id.
  rewrite a_found; reflexivity.
Qed.

Lemma pulled_b (s : R) :
  find_obj (Some ib) (scene s) = Some (with_position (pb s) b).
Proof.
  unfold pulled.
  rewrite find_obj_update_same by apply with_position_keeps_id.
  rewrite find_obj_update_other;
    auto using with_position_keeps_id, pulled_ids_differ.
  rewrite b_found; reflexivity.
Qed.

Lemma pulled_start : scene 1 = objects.
Proof.
  unfold pulled.
  assert (Ha : pa 1 = va).
  { unfold pull_a; destruct va as [[x y] z], vb as [[x' y'] z']; simpl.
    f_equal; [ f_equal | ]; lra. }
  assert (Hb : pb 1 = vb).
  { unfold pull_b; destruct va as [[x y] z], vb as [[x' y'] z']; simpl.
    f_equal; [ f_equal | ]; lra. }
  rewrite Ha, Hb.
  rewrite (update_found_fixpoint (Some ia) _ objects a a_found)
    by (apply with_position_same; exact a_at).
  apply (update_found_fixpoint (Some ib) _ objects b b_found).
  apply with_position_same; exact b_at.
Qed.

Lemma pulled_distance (s : R) : 0 <= s -> distanceTo (pa s) (pb s) = s * d.
Proof.
  intros Hs.
  rewrite !distanceTo_vlength.
  replace (vsub (pa s) (pb s)) with (multiplyScalar (vsub va vb) s).
  - rewrite vlength_scale, Rabs_pos_eq by exact Hs; reflexivity.
  - unfold pull_a, pull_b.
    destruct va as [[x y] z], vb as [[x' y'] z']; simpl.
    f_equal; [ f_equal | ]; field.
Qed.

(** The correction applied at the fraction [s]: each endpoint comes a
    quarter of the current distance closer. *)
Lemma pulled_correction (s : R) :
  0 < s ->
  let off :=
    multiplyScalar (vsub (pb s) (pa s)) ((s * d - 0) / (s * d) * 0.5 * 0.5) in
  vadd (pa s) off = pa (s / 2) /\ vsub (pb s) off = pb (s / 2).
Proof.
  intros Hs off; unfold off.
  assert (Hsd : 0 < s * d) by (apply Rmult_lt_0_compat; assumption).
  assert (Hk : (s * d - 0) / (s * d) * 0.5 * 0.5 = 1 / 4).
  { assert (Hone : (s * d - 0) / (s * d) = 1) by (field; lra).
    rewrite Hone; lra. }
  rewrite Hk.
  unfold pull_a, pull_b.
  destruct va as [[x y] z], vb as [[x' y'] z']; simpl.
  split; (f_equal; [ f_equal | ]); field.
Qed.

Lemma pulled_operands (s : R) :
  find_obj (nth_error (objectIds c) 0) (scene s)
  = Some (with_position (pa s) a) /\
  find_obj (nth_error (objectIds c) 1) (scene s)
  = Some (with_position (pb s) b) /\
  obj_position (with_position (pa s) a) = Some (pa s) /\
  obj_position (with_position (pb s) b) = Some (pb s) /\
  truthy_bool (fixed (with_position (pa s) a)) = false /\
  truthy_bool (fixed (with_position (pb s) b)) = false.
Proof.
  rewrite c_operands.
  split; [ apply pulled_a | ].
  split; [ apply pulled_b | ].
  split; [ apply obj_position_with_position; rewrite a_at; discriminate | ].
  split; [ apply obj_position_with_position; rewrite b_at; discriminate | ].
  split.
  - destruct (with_position_fields (pa s) a)
      as (_ & _ & _ & _ & _ & _ & -> & _); exact a_free.
  - destruct (with_position_fields (pb s) b)
      as (_ & _ & _ & _ & _ & _ & -> & _); exact b_free.
Qed.

(** One iteration at the fraction [s], while the points are more than
    0.0001 apart: the error is their distance, and they end at half of
    it. *)
Lemma pulled_pass_moves (s : R) :
  0 < s -> 0.0001 < s * d ->
  pass [c] (scene s) = Ok (scene (s / 2), s * d).
Proof.
  intros Hs Hsd.
  destruct (pulled_operands s) as (H1 & H2 & P1 & P2 & F1 & F2).
  unfold pass; cbn [forEach].
  unfold constraint_step; rewrite c_distance.
  cbn [bind].
  assert (Hd : distanceTo (pa s) (pb s) = s * d)
    by (apply pulled_distance; lra).
  rewrite (distance_step_free c (scene s) lit_0
             (with_position (pa s) a) (with_position (pb s) b)
             (pa s) (pb s) H1 H2 P1 P2 F1 F2) by (rewrite Hd; exact Hsd).
  rewrite c_operands; cbn [nth_error].
  rewrite absent_target_is_0, Hd.
  destruct (pulled_correction s Hs) as (-> & ->).
  f_equal; f_equal.
  - unfold pulled.
    rewrite (update_found_comm (Some ia) (Some ib));
      auto using with_position_keeps_id, pulled_ids_differ.
    rewrite !update_found_twice by apply with_position_keeps_id.
    rewrite (update_found_ext (Some ib) _ (with_position (pb (s / 2))))
      by (intros o; apply with_position_twice).
    f_equal.
    apply update_found_ext; intros o; apply with_position_twice.
  - change (lit_0 (F := R)) with 0.
    rewrite Rabs_pos_eq by lra; lra.
Qed.

(** One iteration once the points are within 0.0001: the error is
    their distance, and nothing moves. *)
Lemma pulled_pass_still (s : R) :
  0 <= s -> s * d <= 0.0001 ->
  pass [c] (scene s) = Ok (scene s, s * d).
Proof.
  intros Hs Hsd.
  destruct (pulled_operands s) as (H1 & H2 & P1 & P2 & _).
  unfold pass; cbn [forEach].
  unfold constraint_step; rewrite c_distance.
  cbn [bind].
  unfold distance_step.
  rewrite H1, H2, P1, P2, absent_target_is_0.
  rewrite (pulled_distance s Hs).
  assert (Hlt : fltb (lit_0_0001 (F := R)) (s * d) = false)
    by (apply fltb_exact_false; exact Hsd).
  rewrite Hlt.
  assert (Hsd0 : 0 <= s * d) by (apply Rmult_le_pos; lra).
  do 2 f_equal.
  change (0 + Rabs (s * d - 0) = s * d).
  rewrite Rabs_pos_eq by lra; lra.
Qed.

(** From the fraction [s], [n] iterations leave the points below the
    threshold or at the fraction [s / 2^n]; unless they started within
    0.0001, the first one has halved their distance. *)
Lemma pulled_loop :
  forall (n : nat) (s r : R),
    0 < s ->
    exists s' r',
      iterate n [c] (scene s) r = Ok (scene s', r') /\
      0 < s' <= s /\
      (s' * d < 0.0005 \/ s' = s / 2 ^ n) /\
      (n = 0%nat \/ s * d <= 0.0001 \/ s' <= s / 2).
Proof.
  induction n as [ | n IH ]; intros s r Hs.
  - exists s, r; split; [ reflexivity | ].
    split; [ lra | ].
    split; [ right; simpl; field | left; reflexivity ].
  - cbn [iterate].
    destruct (Rlt_dec 0.0001 (s * d)) as [Hfar | Hnear].
    + rewrite pulled_pass_moves by assumption; cbn [bind].
      destruct (Rlt_dec (s * d) 0.001) as [Hlt | Hge].
      * assert (Hb : fltb (s * d) (lit_0_001 (F := R)) = true)
          by (apply fltb_exact_true; exact Hlt).
        rewrite Hb.
        exists (s / 2), r; split; [ reflexivity | ].
        split; [ lra | ].
        split; [ left; lra | right; right; lra ].
      * assert (Hb : fltb (s * d) (lit_0_001 (F := R)) = false)
          by (apply fltb_exact_false; change (0.001 <= s * d); lra).
        rewrite Hb.
        destruct (IH (s / 2) (s * d))
          as (s' & r' & Hit & Hs' & Hor & _); [ lra | ].
        exists s', r'; split; [ exact Hit | ].
        split; [ lra | ].
        split; [ | right; right; lra ].
        destruct Hor as [Hsmall | ->]; [ left; exact Hsmall | right ].
        simpl; field; apply pow_nonzero; lra.
    + rewrite pulled_pass_still by lra; cbn [bind].
      assert (Hb : fltb (s * d) (lit_0_001 (F := R)) = true)
        by (apply fltb_exact_true; change (s * d < 0.001); lra).
      rewrite Hb.
      exists s, r; split; [ reflexivity | ].
      split; [ lra | ].
      split; [ left; lra | right; left; lra ].
Qed.

(** The first iteration and the whole loop of [solve] on the stored
    objects, when the points start more than 0.0001 apart. *)
Lemma pulled_summary :
  0.0001 < d ->
  pass [c] objects = Ok (scene (1 / 2), d) /\
  exists s r',
    iterate MAX_ITER [c] objects lit_0 = Ok (scene s, r') /\
    0 < s <= 1 / 2 /\
    find_obj (Some ia) (scene s) = Some (with_position (pa s) a) /\
    find_obj (Some ib) (scene s) = Some (with_position (pb s) b) /\
    distanceTo (pa s) (pb s) = s * d /\
    (s * d < 0.0005 \/ s = 1 / 2 ^ 50).
Proof.
  intros Hd; split.
  - rewrite <- pulled_start at 1.
    rewrite pulled_pass_moves by lra.
    do 2 f_equal; lra.
  - destruct (pulled_loop MAX_ITER 1 lit_0) as (s & r' & Hit & Hs & Hor & Hh);
      [ lra | ].
    rewrite pulled_start in Hit.
    exists s, r'; split; [ exact Hit | ].
    assert (Hhalf : s <= 1 / 2).
    { destruct Hh as [H0 | [Hnear | Hh]];
        [ discriminate H0 | lra | lra ]. }
    split; [ lra | ].
    split; [ apply pulled_a | ].
    split; [ apply pulled_b | ].
    split; [ apply pulled_distance; lra | ].
    destruct Hor as [Hsmall | ->]; [ left; exact Hsmall | right ].
    reflexivity.
Qed.
End ExactCollapse.



(** * Two free points under one Distance constraint, exactly *)

Section ExactApproach.
Local Open Scope R_scope.

Variables (objects : list (GeometryObject R)) (c : Constraint R).
Variables (ia ib : string) (rest : list string).
Variables (a b : GeometryObject R) (va vb : Point3 R).

Hypothesis c_distance : c_type c = DISTANCE.
Hypothesis c_operands : objectIds c = ia :: ib :: rest.
Hypothesis c_target : targetValue c = Some 5.
Hypothesis a_found : find_obj (Some ia) objects = Some a.
Hypothesis b_found : find_obj (Some ib) objects = Some b.
Hypothesis a_free : truthy_bool (fixed a) = false.
Hypothesis b_free : truthy_bool (fixed b) = false.
Hypothesis a_at : obj_position a = Some va.
Hypothesis b_at : obj_position b = Some vb.
Hypothesis apart_10 : distanceTo va vb = 10.

Local Abbreviation pa := (approach_a va vb).
Local Abbreviation pb := (approach_b va vb).
Local Abbreviation scene := (approached objects ia ib va vb).

Lemma ids_differ : Some ia <> Some ib.
Proof.
  apply (apart_distinct objects _ _ a b va vb); auto.
  rewrite apart_10; lra.
Qed.

Lemma target_is_5 : target_of c = 5.
Proof.
  unfold target_of; rewrite c_target; simpl.
  destruct (Req_dec_T 5 0); [ lra | reflexivity ].
Qed.

Lemma scene_a (e : R) :
  find_obj (Some ia) (scene e) = Some (with_position (pa e) a).
Proof.
  unfold approached.
  rewrite find_obj_update_other;
    auto using with_position_keeps_id, not_eq_sym, ids_differ.
  rewrite find_obj_update_same by apply with_position_keeps_id.
  rewrite a_found; reflexivity.
Qed.

Lemma scene_b (e : R) :
  find_obj (Some ib) (scene e) = Some (with_position (pb e) b).
Proof.
  unfold approached.
  rewrite find_obj_update_same by apply with_position_keeps_id.
  rewrite find_obj_update_other;
    auto using with_position_keeps_id, ids_differ.
  rewrite b_found; reflexivity.
Qed.

Lemma scene_start : scene 5 = objects.
Proof.
  unfold approached.
  assert (Ha : pa 5 = va).
  { unfold approach_a; destruct va as [[x y] z], vb as [[x' y'] z']; simpl.
    f_equal; [ f_equal | ]; lra. }
  assert (Hb : pb 5 = vb).
  { unfold approach_b; destruct va as [[x y] z], vb as [[x' y'] z']; simpl.
    f_equal; [ f_equal | ]; lra. }
  rewrite Ha, Hb.
  rewrite (update_found_fixpoint (Some ia) _ objects a a_found)
    by (apply with_position_same; exact a_at).
  apply (update_found_fixpoint (Some ib) _ objects b b_found).
  apply with_position_same; exact b_at.
Qed.

Lemma scene_distance (e : R) : -5 <= e -> distanceTo (pa e) (pb e) = 5 + e.
Proof.
  intros He.
  rewrite distanceTo_vlength.
  replace (vsub (pa e) (pb e))
    with (multiplyScalar (vsub va vb) ((5 + e) / 10)).
  - rewrite vlength_scale, <- distanceTo_vlength, apart_10.
    rewrite Rabs_pos_eq; lra.
  - unfold approach_a, approach_b.
    destruct va as [[x y] z], vb as [[x' y'] z']; simpl.
    f_equal; [ f_equal | ]; field.
Qed.

(** The correction applied when the distance is [5 + e]. *)
Lemma scene_correction (e : R) :
  0 < e ->
  let off :=
    multiplyScalar (vsub (pb e) (pa e))
      ((5 + e - 5) / (5 + e) * 0.5 * 0.5) in
  vadd (pa e) off = pa (e / 2) /\ vsub (pb e) off = pb (e / 2).
Proof.
  intros He off; unfold off.
  assert (Hk : (5 + e - 5) / (5 + e) * 0.5 * 0.5 = e / (4 * (5 + e))).
  { transitivity ((5 + e - 5) / (5 + e) / 4); [ | field; lra ].
    set (q := (5 + e - 5) / (5 + e)); lra. }
  rewrite Hk.
  unfold approach_a, approach_b.
  destruct va as [[x y] z], vb as [[x' y'] z']; simpl.
  split; (f_equal; [ f_equal | ]); field; lra.
Qed.

(** One iteration on the scene at distance [5 + e]. *)
Lemma scene_pass (e : R) :
  0 < e -> pass [c] (scene e) = Ok (scene (e / 2), e).
Proof.
  intros He.
  unfold pass; cbn [forEach].
  unfold constraint_step; rewrite c_distance.
  cbn [bind].
  assert (Hd : distanceTo (pa e) (pb e) = 5 + e)
    by (apply scene_distance; lra).
  rewrite (distance_step_free c (scene e) lit_0
             (with_position (pa e) a) (with_position (pb e) b)
             (pa e) (pb e)).
  - rewrite c_operands; cbn [nth_error].
    rewrite target_is_5, Hd.
    destruct (scene_correction e He) as (-> & ->).
    f_equal; f_equal.
    + unfold approached.
      rewrite (update_found_comm (Some ia) (Some ib));
        auto using with_position_keeps_id, ids_differ.
      rewrite !update_found_twice by apply with_position_keeps_id.
      rewrite (update_found_ext (Some ib) _
                 (with_position (pb (e / 2))))
        by (intros o; apply with_position_twice).
      f_equal.
      apply update_found_ext; intros o; apply with_position_twice.
    + simpl; rewrite Rabs_pos_eq; lra.
  - rewrite c_operands; apply scene_a.
  - rewrite c_operands; apply scene_b.
  - apply obj_position_with_position; rewrite a_at; discriminate.
  - apply obj_position_with_position; rewrite b_at; discriminate.
  - destruct (with_position_fields (pa e) a)
      as (_ & _ & _ & _ & _ & _ & -> & _); exact a_free.
  - destruct (with_position_fields (pb e) b)
      as (_ & _ & _ & _ & _ & _ & -> & _); exact b_free.
  - rewrite Hd; lra.
Qed.

Lemma scene_continue (n : nat) (e r : R) :
  0.001 <= e ->
  iterate (S n) [c] (scene e) r = iterate n [c] (scene (e / 2)) e.
Proof.
  intros He; cbn [iterate].
  rewrite scene_pass by lra; cbn [bind].
  assert (Hlt : fltb e (lit_0_001 (F := R)) = false)
    by (apply fltb_exact_false; exact He).
  rewrite Hlt; reflexivity.
Qed.

Lemma scene_stop (n : nat) (e r : R) :
  0 < e < 0.001 ->
  iterate (S n) [c] (scene e) r = Ok (scene (e / 2), r).
Proof.
  intros He; cbn [iterate].
  rewrite scene_pass by lra; cbn [bind].
  assert (Hlt : fltb e (lit_0_001 (F := R)) = true)
    by (apply fltb_exact_true; exact (proj2 He)).
  rewrite Hlt; reflexivity.
Qed.

(** The loop of [solve] leaves the pair at distance 5 + 5/2^14. *)
Lemma scene_loop :
  iterate MAX_ITER [c] objects lit_0 = Ok (scene (5 / 16384), 5 / 4096).
Proof.
  rewrite <- scene_start at 1; unfold MAX_ITER.
  rewrite scene_continue by lra.
  do 12 (rewrite scene_continue by lra).
  rewrite scene_stop by lra.
  f_equal; f_equal; [ f_equal | ]; lra.
Qed.
End ExactApproach.

(** C6 as the claim words it does not hold on binary64. The two free
    points at 1e14 and 1e14 + 10 on the x axis are 10 apart; with a
    Distance target of 5 the loop runs all its 50 iterations and
    [solve] leaves them 5.03125 apart, more than 0.01 from 5: at this
    magnitude the coordinates are rounded to multiples of 1/64. *)
Lemma C6_binary64_far_from_origin :
  distanceTo (xyz 1e14 0 0) (xyz 100000000000010 0 0) = Num 10 /\
  exists objs' stats tr,
    solve scene_AB_far [distance_AB_5] = Ok (objs', stats) /\
    solve_trace scene_AB_far [distance_AB_5] = Ok tr /\
    trace_iterations_run tr = 50 /\
    map obj_position objs'
    = [ Some (xyz 100000000000002.48 0 0);
        Some (xyz 100000000000007.52 0 0) ] /\
    distanceTo (xyz 100000000000002.48 0 0) (xyz 100000000000007.52 0 0)
    = Num 5.03125 /\
    fltb (Num 0.01) (fabs (fsub (Num 5.03125) (Num 5))) = true.
Proof.
  split; [ vm_compute; reflexivity | ].
  do 3 eexists.
  split; [ vm_compute; reflexivity | ].
  split; [ vm_compute; reflexivity | ].
  repeat split; vm_compute; reflexivity.
Qed.

(** C6, amended: with JS numbers read as exact reals, in a scene where
    two free Point objects are 10 apart and the only enabled constraint
    is a Distance constraint between them with target 5, [solve]
    returns, and in its result the two points are within 0.01 of
    distance 5 (they are at 5 + 5/16384), each has moved as far as the
    other, and in the opposite direction. *)
Theorem C6_two_points_10_apart_target_5
    (objects : list (GeometryObject R)) (constraints : list (Constraint R))
    (c : Constraint R) (ia ib : string) (rest : list string)
    (a b : GeometryObject R) (va vb : Point3 R) :
  activeConstraints constraints = [c] ->
  c_type c = DISTANCE ->
  objectIds c = ia :: ib :: rest ->
  targetValue c = Some 5%R ->
  find_obj (Some ia) objects = Some a ->
  find_obj (Some ib) objects = Some b ->
  obj_type a = POINT -> obj_type b = POINT ->
  truthy_bool (fixed a) = false -> truthy_bool (fixed b) = false ->
  obj_position a = Some va -> obj_position b = Some vb ->
  distanceTo va vb = 10%R ->
  exists objs' stats a' b' va' vb',
    solve objects constraints = Ok (objs', stats) /\
    find_obj (Some ia) objs' = Some a' /\
    find_obj (Some ib) objs' = Some b' /\
    obj_position a' = Some va' /\ obj_position b' = Some vb' /\
    (Rabs (distanceTo va' vb' - 5) <= 0.01)%R /\
    distanceTo va va' = distanceTo vb vb' /\
    vsub va' va = vsub vb vb'.
Proof.
  intros Hact Hty Hids Ht Ha Hb _ _ Fa Fb Pa Pb Hd.
  set (ef := (5 / 16384)%R).
  exists (approached objects ia ib va vb ef).
  exists (Build_SolverStats MAX_ITER (5 / 4096)%R 1 1).
  exists (with_position (approach_a va vb ef) a).
  exists (with_position (approach_b va vb ef) b).
  exists (approach_a va vb ef), (approach_b va vb ef).
  split.
  { unfold solve; cbv zeta; rewrite JSON_copy_exact, Hact.
    erewrite scene_loop by eassumption.
    reflexivity. }
  split; [ eapply scene_a; eassumption | ].
  split; [ eapply scene_b; eassumption | ].
  split; [ apply obj_position_with_position; rewrite Pa; discriminate | ].
  split; [ apply obj_position_with_position; rewrite Pb; discriminate | ].
  split.
  { rewrite (scene_distance a b va vb Pa Pb Hd ef) by (unfold ef; lra).
    unfold ef; rewrite Rabs_pos_eq; lra. }
  split.
  - unfold approach_a, approach_b.
    rewrite distanceTo_vadd, distanceTo_vsub; reflexivity.
  - unfold approach_a, approach_b.
    destruct va as [[x y] z], vb as [[x' y'] z']; simpl.
    f_equal; [ f_equal | ]; ring.
Qed.

Lemma C6_witness :
  exists objs' stats a' b' va' vb',
    solve exact_AB [exact_distance_AB_5] = Ok (objs', stats) /\
    find_obj (Some "A"%string) objs' = Some a' /\
    find_obj (Some "B"%string) objs' = Some b' /\
    obj_position a' = Some va' /\ obj_position b' = Some vb' /\
    (Rabs (distanceTo va' vb' - 5) <= 0.01)%R /\
    distanceTo (0, 0, 0)%R va' = distanceTo (10, 0, 0)%R vb' /\
    vsub va' (0, 0, 0)%R = vsub (10, 0, 0)%R vb'.
Proof.
  apply (C6_two_points_10_apart_target_5 exact_AB [exact_distance_AB_5]
           exact_distance_AB_5 "A"%string "B"%string []
           (sample_object "A"%string POINT None (0, 0, 0)%R)
           (sample_object "B"%string POINT None (10, 0, 0)%R));
    try reflexivity.
  apply distanceTo_on_x_axis; lra.
Defined.

(** * One converged pass moves nothing far, exactly *)

Section ExactIdempotence.
Local Open Scope R_scope.

Local Abbreviation Vec := (Point3 R).
Local Abbreviation Obj := (GeometryObject R).
Local Abbreviation Con := (Constraint R).

Lemma within_same (delta : R) (o : Obj) : 0 <= delta -> within delta o o.
Proof.
  intros H; unfold within.
  destruct (obj_position o); [ rewrite distanceTo_self; exact H | exact I ].
Qed.

Lemma within_weaken (delta delta' : R) (o o' : Obj) :
  delta <= delta' -> within delta o o' -> within delta' o o'.
Proof.
  unfold within; intros Hle.
  destruct (obj_position o), (obj_position o'); auto; lra.
Qed.

(** Moving a positioned object by [d] adds [d] to its distance from
    where it started. *)
Lemma within_move (delta d : R) (o q : Obj) (v p' : Vec) :
  within delta o q -> obj_position q = Some v -> distanceTo v p' <= d ->
  within (delta + d) o (with_position p' q).
Proof.
  unfold within; intros H Hq Hd.
  rewrite (obj_position_with_position p' q) by congruence.
  rewrite Hq in H.
  destruct (obj_position o) as [p|]; [ | contradiction ].
  pose proof (distanceTo_triangle p v p'); lra.
Qed.

Lemma Forall2_within_weaken (delta delta' : R) (l0 l : list Obj) :
  delta <= delta' ->
  Forall2 (within delta) l0 l -> Forall2 (within delta') l0 l.
Proof.
  intros Hle; apply Forall2_impl; intros o o'; apply within_weaken; exact Hle.
Qed.

(** Rewriting the object that [i] resolves to, [d] away from where it
    is. *)
Lemma update_within (delta d : R) (i : option string) (l0 l : list Obj)
    (q : Obj) (v p' : Vec) :
  0 <= d ->
  Forall2 (within delta) l0 l ->
  find_obj i l = Some q -> obj_position q = Some v ->
  distanceTo v p' <= d ->
  Forall2 (within (delta + d)) l0 (update_found i (with_position p') l).
Proof.
  intros Hd H Hq Hv Hmove.
  apply (update_found_Forall2 (within delta) (within (delta + d)) i
           (with_position p') ) with (q := q); auto.
  - intros o o'; apply within_weaken; lra.
  - intros o Ho; eapply within_move; eauto.
Qed.

Lemma distance_step_within (c : Con) (objs0 cur : list Obj) (err : R) :
  0 <= err ->
  Forall2 (within (err / 2)) objs0 cur ->
  Forall2 (within (snd (distance_step c (cur, err)) / 2)) objs0
    (fst (distance_step c (cur, err))) /\
  0 <= snd (distance_step c (cur, err)).
Proof.
  intros Herr H; unfold distance_step.
  set (id1 := nth_error (objectIds c) 0).
  set (id2 := nth_error (objectIds c) 1).
  destruct (find_obj id1 cur) as [p1|] eqn:E1; [ | split; assumption ].
  destruct (find_obj id2 cur) as [p2|] eqn:E2; [ | split; assumption ].
  destruct (obj_position p1) as [v1|] eqn:P1; [ | split; assumption ].
  destruct (obj_position p2) as [v2|] eqn:P2; [ | split; assumption ].
  set (dist := distanceTo v1 v2).
  change (fsub dist (target_of c)) with (dist - target_of c).
  set (diff := dist - target_of c).
  change (fadd err (fabs diff)) with (err + Rabs diff).
  pose proof (Rabs_pos diff) as Habs.
  destruct (fltb lit_0_0001 dist) eqn:Hlt; cbn [fst snd].
  2:{ split; [ | lra ].
      apply Forall2_within_weaken with (err / 2); [ lra | exact H ]. }
  assert (Hd : 0.0001 < dist).
  { simpl in Hlt; destruct (Rlt_dec 0.0001 dist); [ assumption | discriminate ]. }
  split; [ | lra ].
  set (off := multiplyScalar _ _).
  assert (Hoff : vlength off = Rabs diff / 4).
  { unfold off, LEARNING_RATE.
    change (fmul (fmul (fdiv diff dist) lit_0_5) lit_0_5)
      with (diff / dist * 0.5 * 0.5).
    rewrite vlength_scale, vlength_opp, <- distanceTo_vlength.
    fold dist.
    assert (Hk : diff / dist * 0.5 * 0.5 = diff * / (4 * dist)).
    { transitivity (diff / dist / 4); [ | field; lra ].
      set (q := diff / dist); lra. }
    rewrite Hk.
    rewrite Rabs_mult, Rabs_inv, (Rabs_pos_eq (4 * dist)) by lra.
    field; lra. }
  set (objs1 :=
         if negb (truthy_bool (fixed p1))
         then update_found id1 (with_position (vadd v1 off)) cur else cur).
  assert (H1 : Forall2 (within (err / 2 + Rabs diff / 4)) objs0 objs1).
  { unfold objs1; destruct (negb (truthy_bool (fixed p1))).
    - apply update_within with (q := p1) (v := v1); auto; try lra.
      rewrite distanceTo_vadd; lra.
    - apply Forall2_within_weaken with (err / 2); [ lra | exact H ]. }
  assert (E2' : find_obj id2 objs1 = Some p2).
  { unfold objs1; destruct (negb (truthy_bool (fixed p1))); [ | exact E2 ].
    destruct (find_obj_after_update id2 id1 (with_position (vadd v1 off))
                (with_position_keeps_id _) cur p2 p1 E2 E1)
      as [Hsame | (Heq & _)]; [ exact Hsame | ].
    exfalso; subst p2.
    assert (v1 = v2) by congruence; subst v2.
    unfold dist in Hd; rewrite distanceTo_self in Hd; lra. }
  destruct (negb (truthy_bool (fixed p2))).
  - replace ((err + Rabs diff) / 2)
      with (err / 2 + Rabs diff / 4 + Rabs diff / 4) by field.
    apply update_within with (q := p2) (v := v2); auto; try lra.
    rewrite distanceTo_vsub; lra.
  - apply Forall2_within_weaken with (err / 2 + Rabs diff / 4);
      [ lra | exact H1 ].
Qed.
End ExactIdempotence.

Section ExactPass.
Local Open Scope R_scope.

Local Abbreviation Vec := (Point3 R).
Local Abbreviation Obj := (GeometryObject R).
Local Abbreviation Con := (Constraint R).

Lemma midpoint_step_within (c : Con) (objs0 cur : list Obj) (err : R)
    (st' : PassState) :
  0 <= err ->
  Forall2 (within (err / 2)) objs0 cur ->
  midpoint_step c (cur, err) = Ok st' ->
  Forall2 (within (snd st' / 2)) objs0 (fst st') /\ 0 <= snd st'.
Proof.
  intros Herr H Hs; unfold midpoint_step in Hs.
  set (midId := nth_error (objectIds c) 0) in Hs.
  destruct (find_obj midId cur) as [M|] eqn:E0;
    [ | injection Hs as <-; split; assumption ].
  destruct (find_obj (nth_error (objectIds c) 1) cur) as [A|];
    [ | injection Hs as <-; split; assumption ].
  destruct (find_obj (nth_error (objectIds c) 2) cur) as [B|];
    [ | injection Hs as <-; split; assumption ].
  unfold read_position in Hs.
  destruct (obj_position M) as [vM|] eqn:PM; [ | discriminate Hs ].
  destruct (obj_position A) as [vA|]; [ | discriminate Hs ].
  destruct (obj_position B) as [vB|]; [ | discriminate Hs ].
  cbn [bind] in Hs.
  set (targetM := multiplyScalar (vadd vA vB) lit_0_5) in Hs.
  set (diff := distanceTo vM targetM) in Hs.
  change (fadd err diff) with (err + diff) in Hs.
  assert (Hdiff : 0 <= diff) by apply distanceTo_nonneg.
  destruct (negb (truthy_bool (fixed M))); injection Hs as <-; cbn [fst snd];
    (split; [ | lra ]).
  - replace ((err + diff) / 2) with (err / 2 + diff / 2) by field.
    apply update_within with (q := M) (v := vM); auto; try lra.
    rewrite distanceTo_vadd.
    unfold LEARNING_RATE.
    rewrite vlength_scale, vlength_opp, <- distanceTo_vlength.
    fold diff.
    change (lit_0_5 (F := R)) with 0.5.
    rewrite Rabs_pos_eq; lra.
  - apply Forall2_within_weaken with (err / 2); [ lra | exact H ].
Qed.

Lemma constraint_step_within (c : Con) (objs0 : list Obj)
    (st st' : PassState) :
  Forall2 (within (snd st / 2)) objs0 (fst st) /\ 0 <= snd st ->
  constraint_step c st = Ok st' ->
  Forall2 (within (snd st' / 2)) objs0 (fst st') /\ 0 <= snd st'.
Proof.
  destruct st as [cur err]; cbn [fst snd]; intros (H & Herr) Hs.
  unfold constraint_step in Hs.
  destruct (c_type c);
    try (injection Hs as <-; cbn [fst snd]; split; assumption).
  - injection Hs as <-; apply distance_step_within; assumption.
  - eapply midpoint_step_within; eauto.
Qed.

(** After one pass every object is within half the pass's total error
    of where it was. *)
Lemma pass_within (active : list Con) (objs objs1 : list Obj) (e : R) :
  pass active objs = Ok (objs1, e) ->
  Forall2 (within (e / 2)) objs objs1 /\ 0 <= e.
Proof.
  unfold pass; intros H.
  apply (forEach_invariant
           (fun st => Forall2 (within (snd st / 2)) objs (fst st)
                      /\ 0 <= snd st)
           (fun c st st' => constraint_step_within c objs st st')
           active (objs, lit_0) (objs1, e)); [ | exact H ].
  cbn [fst snd]; change (lit_0 (F := R)) with 0.
  split; [ | lra ].
  clear; induction objs; constructor; auto.
  apply within_same; lra.
Qed.
End ExactPass.



(** * The view framer *)

Section Framer.
Context {F : Type} {NF : Number F}.

Local Abbreviation Obj := (GeometryObject F).

(** The loop over the visible objects folds [expandByPoint] over the
    framed positions, and sets [hasPoints] when there is one. *)
Lemma expand_box_framed (objects : list Obj) :
  forall (box : Box3) (hasPoints : bool),
    expand_box (filter (fun o => truthy_bool (visible o)) objects) box
      hasPoints
    = (fold_left expandByPoint (framed_positions objects) box,
       match framed_positions objects with
       | [] => hasPoints
       | _ :: _ => true
       end).
Proof.
  induction objects as [ | o objects IH ]; intros box hasPoints; simpl;
    [ reflexivity | ].
  destruct (truthy_bool (visible o)); simpl.
  - destruct (obj_position o) as [p|]; simpl.
    + rewrite IH; destruct (framed_positions objects); reflexivity.
    + apply IH.
  - destruct (obj_position o); simpl; apply IH.
Qed.

Lemma framed_positions_invisible (objects : list Obj) :
  filter (fun o => truthy_bool (visible o)) objects = [] ->
  framed_positions objects = [].
Proof.
  induction objects as [ | o objects IH ]; simpl; [ reflexivity | ].
  destruct (truthy_bool (visible o)); [ discriminate | ].
  intros H; rewrite (IH H); destruct (obj_position o); reflexivity.
Qed.

(** Without a visible object that carries a position the result is
    the default pose. *)
Lemma computeOptimalView_default (objects : list Obj) :
  framed_positions objects = [] -> computeOptimalView objects = default_pose.
Proof.
  intros H; unfold computeOptimalView.
  destruct (Nat.eqb (List.length objects) 0); [ reflexivity | ].
  destruct (Nat.eqb (List.length (filter _ objects)) 0); [ reflexivity | ].
  rewrite expand_box_framed, H; reflexivity.
Qed.

(** With one, the pose is computed from the box of the framed
    positions. *)
Lemma computeOptimalView_framed (objects : list Obj) (p : Point3 F)
    (ps : list (Point3 F)) :
  framed_positions objects = p :: ps ->
  computeOptimalView objects
  = let box := fold_left expandByPoint ps (Some (p, p)) in
    let center := getCenter box in
    let '(sx, sy, sz) := getSize box in
    let distance := fadd (fmul (fmax (fmax sx sy) sz) lit_4) lit_5 in
    Build_CameraPose
      (vadd center
         (multiplyScalar (normalize (lit_1, lit_0_8, lit_1)) distance))
      center.
Proof.
  intros H; unfold computeOptimalView.
  destruct objects as [ | o objects ]; [ discriminate H | ].
  cbn [List.length Nat.eqb].
  destruct (filter (fun o0 => truthy_bool (visible o0)) (o :: objects))
    as [ | v vs ] eqn:Ev.
  - apply framed_positions_invisible in Ev; congruence.
  - cbn [List.length Nat.eqb].
    rewrite <- Ev, expand_box_framed, H.
    reflexivity.
Qed.
End Framer.

Section ExactFramer.
Local Open Scope R_scope.

Local Abbreviation Vec := (Point3 R).

(** The box built by [expandByPoint] is the coordinate-wise least and
    greatest of the points. *)
Lemma expand_fold_aabb (ps : list Vec) :
  forall lx ly lz hx hy hz : R,
    fold_left expandByPoint ps (Some ((lx, ly, lz), (hx, hy, hz)))
    = Some ((least lx (xs_of ps), least ly (ys_of ps), least lz (zs_of ps)),
            (greatest hx (xs_of ps), greatest hy (ys_of ps),
             greatest hz (zs_of ps))).
Proof.
  induction ps as [ | [[x y] z] ps IH ]; intros; simpl; [ reflexivity | ].
  rewrite IH; reflexivity.
Qed.

Lemma normalize_1_08_1 : normalize (lit_1, lit_0_8, lit_1) = unit_1_08_1.
Proof.
  unfold normalize, unit_1_08_1; cbn -[R_sqrt.sqrt Rdiv].
  set (len := R_sqrt.sqrt (1 * 1 + 0.8 * 0.8 + 1 * 1)).
  assert (Hlen : 0 < len) by (apply sqrt_lt_R0; lra).
  destruct (Req_dec_T len 0) as [H0 | _]; [ lra | ].
  f_equal; [ f_equal | ]; field; lra.
Qed.
End ExactFramer.

(** C8 as the claim words it does not hold on binary64. The box of
    the single visible point (9e307, 0, 0) has that point as its
    centre, but [getCenter] computes [(min + max) * 0.5] and the sum
    overflows: the target is (Infinity, 0, 0), and so is the x
    coordinate of the position, so that the distance between position
    and target is NaN and not 5. *)
Lemma C8_centre_overflows_on_binary64 :
  let pose := computeOptimalView scene_single_huge in
  framed_positions scene_single_huge = [xyz 9e307 0 0] /\
  cam_target pose = xyz PrimFloat.infinity 0 0 /\
  cam_target pose <> xyz 9e307 0 0 /\
  cam_position pose
  = xyz PrimFloat.infinity 2.4618298195866553 3.0772872744833184 /\
  distanceTo (cam_position pose) (cam_target pose) = Num PrimFloat.nan /\
  distanceTo (cam_position pose) (cam_target pose) <> Num 5.
Proof.
  cbv zeta.
  split; [ reflexivity | ].
  split; [ vm_compute; reflexivity | ].
  split.
  { intros H.
    apply (f_equal (fun p : Point3 jsnum =>
                      PrimFloat.is_infinity (to_number (fst (fst p))))) in H.
    vm_compute in H; discriminate H. }
  split; [ vm_compute; reflexivity | ].
  split; [ vm_compute; reflexivity | ].
  intros H.
  apply (f_equal (fun a => PrimFloat.is_nan (to_number a))) in H.
  vm_compute in H; discriminate H.
Qed.

(** C8, amended: [computeOptimalView] is a function of the stored
    objects alone. In every arithmetic it returns the default pose,
    position (5, 5, 5) and target (0, 0, 0), when no visible object
    carries a position, which includes the empty scene. Otherwise,
    with JS numbers read as exact reals, the target is the centre of
    the axis-aligned bounding box of the positions of the visible
    positioned objects, and the position is that centre plus
    [maxDim * 4 + 5] times the unit vector along (1, 0.8, 1); for a
    single such position the distance is 5. *)
Theorem C8_computeOptimalView_pose :
  (forall (F : Type) (NF : Number F) (objects : list (GeometryObject F)),
      framed_positions objects = [] ->
      computeOptimalView objects
      = Build_CameraPose (lit_5, lit_5, lit_5) (lit_0, lit_0, lit_0)) /\
  computeOptimalView (F := R) []
  = Build_CameraPose (5, 5, 5)%R (0, 0, 0)%R /\
  computeOptimalView (F := jsnum) []
  = Build_CameraPose (xyz 5 5 5) (xyz 0 0 0) /\
  (forall (objects : list (GeometryObject R)) (p : Point3 R)
          (ps : list (Point3 R)),
      framed_positions objects = p :: ps ->
      computeOptimalView objects
      = Build_CameraPose
          (along (aabb_center p ps) (aabb_maxDim p ps * 4 + 5)%R unit_1_08_1)
          (aabb_center p ps)) /\
  (forall (objects : list (GeometryObject R)) (p : Point3 R),
      framed_positions objects = [p] ->
      computeOptimalView objects
      = Build_CameraPose (along p 5%R unit_1_08_1) p).
Proof.
  assert (Hframed :
            forall (objects : list (GeometryObject R)) (p : Point3 R)
                   (ps : list (Point3 R)),
              framed_positions objects = p :: ps ->
              computeOptimalView objects
              = Build_CameraPose
                  (along (aabb_center p ps) (aabb_maxDim p ps * 4 + 5)%R
                     unit_1_08_1)
                  (aabb_center p ps)).
  { intros objects [[x y] z] ps H.
    rewrite (computeOptimalView_framed objects (x, y, z) ps H).
    rewrite expand_fold_aabb, normalize_1_08_1.
    unfold aabb_center, aabb_maxDim, aabb_min, aabb_max, along, unit_1_08_1.
    cbn -[R_sqrt.sqrt Rdiv least greatest].
    f_equal; (f_equal; [ f_equal | ]); lra. }
  split; [ intros; apply computeOptimalView_default; assumption | ].
  split; [ reflexivity | ].
  split; [ reflexivity | ].
  split; [ exact Hframed | ].
  intros objects [[x y] z] H.
  rewrite (Hframed objects (x, y, z) [] H).
  unfold aabb_center, aabb_maxDim, aabb_min, aabb_max, along, unit_1_08_1.
  cbn -[R_sqrt.sqrt Rdiv].
  replace (Rmax (Rmax (x - x) (y - y)) (z - z)) with 0%R
    by (unfold Rmax; repeat destruct Rle_dec; lra).
  f_equal; (f_equal; [ f_equal | ]); lra.
Qed.

Lemma C8_witness :
  computeOptimalView exact_single_visible
  = Build_CameraPose (along (1, 2, 3)%R 5%R unit_1_08_1) (1, 2, 3)%R /\
  computeOptimalView
    [sample_bare (F := R) "S"%string SEGMENT]
  = Build_CameraPose (5, 5, 5)%R (0, 0, 0)%R.
Proof.
  destruct C8_computeOptimalView_pose as (Hdefault & _ & _ & _ & Hsingle).
  split.
  - apply Hsingle; reflexivity.
  - apply (Hdefault R Exact); reflexivity.
Defined.

(** On binary64 the single point (1, 2, 3) is framed from 5 away along
    the rounded unit vector. *)
Example computeOptimalView_single_binary64 :
  computeOptimalView [sample_object "A"%string POINT None (xyz 1 2 3)]
  = Build_CameraPose
      (xyz 4.077287274483318 4.4618298195866553 6.077287274483318)
      (xyz 1 2 3).
Proof. vm_compute; reflexivity. Qed.

(** * Binary64 runs of the statements proved in exact arithmetic *)

(** The positions of the objects of a solved scene. *)
Lemma solve_AB_binary64 :
  exists objs' stats,
    solve scene_AB [distance_AB_5] = Ok (objs', stats) /\
    map obj_position objs'
    = [ Some (xyz 2.499847412109375 0 0);
        Some (xyz 7.500152587890625 0 0) ] /\
    distanceTo (xyz 2.499847412109375 0 0) (xyz 7.500152587890625 0 0)
    = Num 5.00030517578125 /\
    distanceTo (xyz 0 0 0) (xyz 2.499847412109375 0 0)
    = distanceTo (xyz 10 0 0) (xyz 7.500152587890625 0 0).
Proof.
  do 2 eexists.
  split; [ vm_compute; reflexivity | ].
  repeat split; vm_compute; reflexivity.
Qed.

Lemma solve_AB_near_binary64 :
  exists objs' stats,
    solve scene_AB_near [distance_AB_5] = Ok (objs', stats) /\
    map obj_position objs'
    = [ Some (xyz 0.000244140625 0 0);
        Some (xyz 5.000732421875 0 0) ].
Proof.
  do 2 eexists.
  split; vm_compute; reflexivity.
Qed.

(** A target of [undefined] and a target of 0 on binary64. *)
Lemma solve_absent_target_binary64 :
  solve scene_AB [sample_constraint DISTANCE ["A"; "B"]%string None (Some true)]
  = solve scene_AB
      [sample_constraint DISTANCE ["A"; "B"]%string (Some (Num 0)) (Some true)].
Proof. vm_compute; reflexivity. Qed.

(** The working copy on binary64: without any constraint, [solve]
    commits a fixed point stored at (-0, NaN, 1) as (0, null, 1). *)
Example solve_fixed_point_binary64 :
  JSON_copy scene_AB = scene_AB /\
  solve scene_signed_zero_nan []
  = Ok ([sample_object "Z"%string POINT (Some true) (Num 0, Null, Num 1)],
        Build_SolverStats 50 (Num 0) 0 0).
Proof. split; vm_compute; reflexivity. Qed.

(** * More on the scene store *)

Section StoreUpsert.
Context {F : Type}.

Local Abbreviation Obj := (GeometryObject F).

Lemma findIndex_none (oid : option string) (prev : list Obj) :
  findIndex oid prev = None -> ~ In oid (map obj_id prev).
Proof.
  induction prev as [ | p rest IH ]; simpl; [ tauto | ].
  destruct (strict_eqb (obj_id p) oid) eqn:E; [ discriminate | ].
  destruct (findIndex oid rest); [ discriminate | ].
  intros _ [H | H]; [ | exact (IH eq_refl H) ].
  rewrite H, strict_eqb_refl in E; discriminate.
Qed.

Lemma assign_at_ids (obj : Obj) :
  forall (prev : list Obj) (i : nat),
    findIndex (obj_id obj) prev = Some i ->
    map obj_id (assign_at i obj prev) = map obj_id prev.
Proof.
  induction prev as [ | p rest IH ]; intros i H; simpl in *; [ discriminate | ].
  destruct (strict_eqb (obj_id p) (obj_id obj)) eqn:E.
  - injection H as <-; simpl.
    apply strict_eqb_eq in E; rewrite E; reflexivity.
  - destruct (findIndex (obj_id obj) rest) as [j|] eqn:Ej; [ | discriminate ].
    injection H as <-; simpl; rewrite (IH j eq_refl); reflexivity.
Qed.

(** The ids after an insertion. *)
Lemma addObject_ids (fresh : string) (rawObj : Obj) (prev : list Obj) :
  let oid := obj_id (normalize_object fresh rawObj) in
  (In oid (map obj_id prev) /\
   map obj_id (addObject fresh rawObj prev) = map obj_id prev) \/
  (~ In oid (map obj_id prev) /\
   map obj_id (addObject fresh rawObj prev) = map obj_id prev ++ [oid]).
Proof.
  intros oid; unfold addObject; fold oid.
  destruct (findIndex oid prev) as [i|] eqn:E.
  - left; split.
    + assert (H : map obj_id (assign_at i (normalize_object fresh rawObj) prev)
                  = map obj_id prev) by (apply assign_at_ids; exact E).
      clear H; revert i E.
      induction prev as [ | p rest IH ]; intros i E; simpl in *;
        [ discriminate | ].
      destruct (strict_eqb (obj_id p) oid) eqn:Ep.
      * left; apply strict_eqb_eq; exact Ep.
      * destruct (findIndex oid rest) as [j|]; [ | discriminate ].
        right; exact (IH j eq_refl).
    + apply assign_at_ids; exact E.
  - right; split; [ apply findIndex_none; exact E | ].
    rewrite map_app; reflexivity.
Qed.

Lemma findIndex_found (oid : option string) :
  forall (prev : list Obj) (i : nat),
    findIndex oid prev = Some i -> i < List.length prev.
Proof.
  induction prev as [ | p rest IH ]; intros i H; simpl in *; [ discriminate | ].
  destruct (strict_eqb (obj_id p) oid); [ injection H as <-; lia | ].
  destruct (findIndex oid rest) as [j|] eqn:Ej; [ | discriminate ].
  injection H as <-; specialize (IH j eq_refl); lia.
Qed.

Lemma assign_at_twice (a b : Obj) :
  forall (prev : list Obj) (i : nat),
    assign_at i b (assign_at i a prev) = assign_at i b prev.
Proof.
  induction prev as [ | p rest IH ]; intros [ | i ]; simpl; try reflexivity.
  rewrite IH; reflexivity.
Qed.

Lemma findIndex_assign_at (a : Obj) :
  forall (prev : list Obj) (i : nat),
    findIndex (obj_id a) prev = Some i ->
    findIndex (obj_id a) (assign_at i a prev) = Some i.
Proof.
  induction prev as [ | p rest IH ]; intros i H; simpl in *; [ discriminate | ].
  destruct (strict_eqb (obj_id p) (obj_id a)) eqn:E.
  - injection H as <-; simpl; rewrite strict_eqb_refl; reflexivity.
  - destruct (findIndex (obj_id a) rest) as [j|] eqn:Ej; [ | discriminate ].
    injection H as <-; simpl; rewrite E, (IH j eq_refl); reflexivity.
Qed.

Lemma findIndex_appended (a : Obj) :
  forall prev : list Obj,
    findIndex (obj_id a) prev = None ->
    findIndex (obj_id a) (prev ++ [a]) = Some (List.length prev) /\
    forall b, assign_at (List.length prev) b (prev ++ [a]) = prev ++ [b].
Proof.
  induction prev as [ | p rest IH ]; intros H; simpl in *.
  - rewrite strict_eqb_refl; split; reflexivity.
  - destruct (strict_eqb (obj_id p) (obj_id a)); [ discriminate | ].
    destruct (findIndex (obj_id a) rest); [ discriminate | ].
    destruct (IH eq_refl) as (-> & Hb); split; [ reflexivity | ].
    intros b; rewrite Hb; reflexivity.
Qed.
End StoreUpsert.

Lemma findIndex_none_iff {F : Type} (oid : option string)
    (l : list (GeometryObject F)) :
  findIndex oid l = None <-> find_obj oid l = None.
Proof.
  unfold find_obj; induction l as [ | p rest IH ]; simpl; [ tauto | ].
  destruct (strict_eqb (obj_id p) oid).
  - split; discriminate.
  - rewrite <- IH; destruct (findIndex oid rest); simpl; split; congruence.
Qed.

Lemma findIndex_app_other {F : Type} (oid : option string)
    (x : GeometryObject F) :
  strict_eqb (obj_id x) oid = false ->
  forall prev : list (GeometryObject F),
    findIndex oid prev = None -> findIndex oid (prev ++ [x]) = None.
Proof.
  intros Hx; induction prev as [ | p rest IH ]; simpl; intros H.
  - rewrite Hx; reflexivity.
  - destruct (strict_eqb (obj_id p) oid); [ discriminate | ].
    destruct (findIndex oid rest); [ discriminate | ].
    rewrite (IH eq_refl); reflexivity.
Qed.

(** The id under which a payload is stored: its own when it has one,
    else the drawn one. A payload with an id is normalized the same
    whatever is drawn. *)
Lemma normalize_object_id {F : Type} (fresh : string)
    (rawObj : GeometryObject F) :
  obj_id (normalize_object fresh rawObj)
  = if truthy_string (obj_id rawObj) then obj_id rawObj else Some fresh.
Proof.
  destruct rawObj as [i ty n col vis sel fx pts dat].
  unfold normalize_object, no_points; cbn -[truthy_string].
  destruct (truthy_string i) eqn:Ei; destruct vis as [v|];
    cbn -[truthy_string];
    destruct ty; cbn -[truthy_string];
    destruct pts as [[ | x l]|]; cbn -[truthy_string];
    destruct dat as [d|]; cbn -[truthy_string];
    try (destruct (truthy_string (data_p1 d) && truthy_string (data_p2 d)));
    try (destruct (data_p1 d)); try (destruct (data_p2 d));
    try (destruct (data_points d));
    reflexivity.
Qed.

Lemma normalize_object_with_id {F : Type} (fa fb : string)
    (rawObj : GeometryObject F) :
  truthy_string (obj_id rawObj) = true ->
  normalize_object fa rawObj = normalize_object fb rawObj.
Proof.
  intros H; unfold normalize_object; cbv zeta.
  rewrite H; reflexivity.
Qed.

(** X1: [addObject] keeps object ids unique. If no two stored objects
    share an id, then after an insertion no two do, and the list has
    grown by one exactly when the id of the inserted object was not
    stored before. *)
Theorem X1_addObject_keeps_ids_unique
    {F : Type} (fresh : string) (rawObj : GeometryObject F)
    (prev : list (GeometryObject F)) :
  NoDup (map obj_id prev) ->
  NoDup (map obj_id (addObject fresh rawObj prev)) /\
  (find_obj (obj_id (normalize_object fresh rawObj)) prev <> None ->
   List.length (addObject fresh rawObj prev) = List.length prev) /\
  (find_obj (obj_id (normalize_object fresh rawObj)) prev = None ->
   addObject fresh rawObj prev = prev ++ [normalize_object fresh rawObj]).
Proof.
  intros Hnd.
  set (obj := normalize_object fresh rawObj).
  assert (Hfi : forall l : list (GeometryObject F),
             findIndex (obj_id obj) l = None <-> find_obj (obj_id obj) l = None).
  { unfold find_obj; induction l as [ | p rest IH ]; simpl; [ tauto | ].
    destruct (strict_eqb (obj_id p) (obj_id obj)).
    - split; discriminate.
    - rewrite <- IH; destruct (findIndex (obj_id obj) rest);
        simpl; split; congruence. }
  split; [ | split ].
  - destruct (addObject_ids fresh rawObj prev) as [(_ & ->) | (Hnin & ->)];
      [ exact Hnd | ].
    apply NoDup_app; [ exact Hnd | repeat constructor; simpl; tauto | ].
    intros x Hx [<- | []]; contradiction.
  - intros Hfound.
    rewrite <- !(length_map obj_id).
    destruct (addObject_ids fresh rawObj prev) as [(_ & ->) | (Hnin & _)];
      [ reflexivity | ].
    exfalso; apply Hfound, Hfi.
    unfold addObject; fold obj.
    destruct (findIndex (obj_id obj) prev) as [i|] eqn:E; [ | reflexivity ].
    exfalso; apply Hnin.
    destruct (addObject_ids fresh rawObj prev) as [(Hin & _) | (Hn & Hm)];
      [ exact Hin | ].
    unfold addObject in Hm; fold obj in Hm; rewrite E in Hm.
    rewrite (assign_at_ids obj prev i E) in Hm.
    apply (f_equal (@List.length _)) in Hm; rewrite length_app in Hm.
    simpl in Hm; lia.
  - intros Hnone; apply Hfi in Hnone.
    unfold addObject; fold obj; rewrite Hnone; reflexivity.
Qed.

Lemma X1_witness :
  NoDup (map obj_id (addObject "k3x9q2m1a" segment_payload scene_AB)) /\
  addObject "k3x9q2m1a" segment_payload scene_AB
  = scene_AB ++ [normalize_object "k3x9q2m1a" segment_payload].
Proof.
  assert (Hnd : NoDup (map obj_id scene_AB)).
  { repeat constructor; simpl; intuition discriminate. }
  destruct (X1_addObject_keeps_ids_unique "k3x9q2m1a" segment_payload
              scene_AB Hnd) as (H1 & _ & H3).
  split; [ exact H1 | apply H3; reflexivity ].
Defined.

(** X2: the last insertion under an id wins, in the place of the
    first. Inserting [b] after [a], where both are stored under the
    same id, gives the list that inserting [b] alone gives. So sending
    again a payload that carries a non-empty id changes nothing,
    whatever is drawn. A payload without an id is stored under the id
    drawn for that call: sent twice, with two different ids drawn that
    are not stored yet, it is appended twice. *)
Theorem X2_addObject_last_write_wins
    {F : Type} (fa fb : string) (a b : GeometryObject F)
    (prev : list (GeometryObject F)) :
  (obj_id (normalize_object fa a) = obj_id (normalize_object fb b) ->
   addObject fb b (addObject fa a prev) = addObject fb b prev) /\
  (truthy_string (obj_id a) = true ->
   addObject fb a (addObject fa a prev) = addObject fa a prev) /\
  (truthy_string (obj_id a) = false -> fa <> fb ->
   find_obj (Some fa) prev = None -> find_obj (Some fb) prev = None ->
   addObject fb a (addObject fa a prev)
   = prev ++ [normalize_object fa a; normalize_object fb a]).
Proof.
  assert (Hlast : forall oa ob : GeometryObject F,
             obj_id oa = obj_id ob ->
             match
               findIndex (obj_id ob)
                 match findIndex (obj_id oa) prev with
                 | Some i => assign_at i oa prev
                 | None => prev ++ [oa]
                 end
             with
             | Some j =>
                 assign_at j ob
                   match findIndex (obj_id oa) prev with
                   | Some i => assign_at i oa prev
                   | None => prev ++ [oa]
                   end
             | None =>
                 match findIndex (obj_id oa) prev with
                 | Some i => assign_at i oa prev
                 | None => prev ++ [oa]
                 end ++ [ob]
             end
             = match findIndex (obj_id ob) prev with
               | Some i => assign_at i ob prev
               | None => prev ++ [ob]
               end).
  { intros oa ob Hid; rewrite <- Hid.
    destruct (findIndex (obj_id oa) prev) as [i|] eqn:E.
    - rewrite (findIndex_assign_at oa prev i E).
      apply assign_at_twice.
    - destruct (findIndex_appended oa prev E) as (-> & Hb).
      apply Hb. }
  split; [ | split ].
  - intros Hid; unfold addObject; apply Hlast; exact Hid.
  - intros Hid; unfold addObject.
    rewrite (normalize_object_with_id fb fa a Hid).
    apply Hlast; reflexivity.
  - intros Hno Hne Hfa Hfb; unfold addObject.
    rewrite !normalize_object_id, Hno.
    apply findIndex_none_iff in Hfa, Hfb.
    rewrite Hfa.
    rewrite (findIndex_app_other (Some fb) (normalize_object fa a)).
    + rewrite <- app_assoc; reflexivity.
    + rewrite normalize_object_id, Hno; simpl.
      apply String.eqb_neq; exact Hne.
    + exact Hfb.
Qed.

Lemma X2_witness :
  addObject "p0w8e7r6t"
    (sample_object "A"%string POINT None (xyz 1 1 1))
    (addObject "k3x9q2m1a"
       (sample_object "A"%string POINT None (xyz 1 1 1)) scene_AB)
  = addObject "k3x9q2m1a"
      (sample_object "A"%string POINT None (xyz 1 1 1)) scene_AB /\
  map obj_id
    (addObject "p0w8e7r6t" segment_payload
       (addObject "k3x9q2m1a" segment_payload scene_AB))
  = [Some "A"; Some "B"; Some "k3x9q2m1a"; Some "p0w8e7r6t"]%string.
Proof.
  destruct (X2_addObject_last_write_wins "k3x9q2m1a" "p0w8e7r6t"
              (sample_object "A"%string POINT None (xyz 1 1 1))
              (sample_object "A"%string POINT None (xyz 1 1 1)) scene_AB)
    as (_ & Hsame & _).
  destruct (X2_addObject_last_write_wins "k3x9q2m1a" "p0w8e7r6t"
              segment_payload segment_payload scene_AB)
    as (_ & _ & Htwice).
  split; [ apply Hsame; reflexivity | ].
  rewrite Htwice; [ reflexivity | reflexivity | discriminate
                  | reflexivity | reflexivity ].
Defined.
(** X3: what the normalization of [addObject] never does. It leaves
    type, name, color, selected, fixed and the data bag as given; an id
    that is present and non-empty is kept and otherwise the drawn one
    is used; a visible flag that is set is kept and otherwise it
    becomes true; a non-empty [points] list is never overwritten, nor
    are the [points] of an object that is neither a Segment nor a
    Polygon or that has no data bag. *)
Theorem X3_normalize_object_frame
    {F : Type} (fresh : string) (rawObj : GeometryObject F) :
  let obj := normalize_object fresh rawObj in
  same_but_id_visible_points rawObj obj /\
  obj_id obj
  = (if truthy_string (obj_id rawObj) then obj_id rawObj else Some fresh) /\
  visible obj
  = match visible rawObj with Some v => Some v | None => Some true end /\
  (no_points rawObj = false -> points obj = points rawObj) /\
  (obj_type rawObj <> SEGMENT -> obj_type rawObj <> POLYGON ->
   points obj = points rawObj) /\
  (data rawObj = None -> points obj = points rawObj).
Proof.
  destruct rawObj as [i ty n col vis sel fx pts dat].
  unfold normalize_object, same_but_id_visible_points, no_points;
    cbn -[truthy_string].
  destruct (truthy_string i) eqn:Ei; destruct vis as [v|];
    cbn -[truthy_string];
    destruct ty; cbn -[truthy_string];
    destruct pts as [[ | x l]|]; cbn -[truthy_string];
    destruct dat as [d|]; cbn -[truthy_string];
    try (destruct (truthy_string (data_p1 d) && truthy_string (data_p2 d)));
    try (destruct (data_p1 d)); try (destruct (data_p2 d));
    try (destruct (data_points d));
    cbn -[truthy_string];
    repeat split; intros; try reflexivity; try congruence.
Qed.

(** X4: back-fill from a nested id list. A Polygon stored without
    [points] (absent or empty) whose data bag has a [points] array is
    stored with that array as its [points]; so is a Segment, when its
    data bag does not carry both endpoint ids [p1] and [p2]. *)
Theorem X4_points_backfilled_from_nested_list
    {F : Type} (fresh : string) (rawObj : GeometryObject F)
    (d : ObjectData F) (l : list string) :
  no_points rawObj = true ->
  data rawObj = Some d ->
  data_points d = Some l ->
  obj_type rawObj = POLYGON \/
  (obj_type rawObj = SEGMENT /\
   truthy_string (data_p1 d) && truthy_string (data_p2 d) = false) ->
  points (normalize_object fresh rawObj) = Some l.
Proof.
  destruct rawObj as [i ty n col vis sel fx pts dat].
  cbn [data obj_type]; unfold no_points; cbn [points].
  intros Hno -> Hl Hty.
  unfold normalize_object; cbn -[truthy_string].
  destruct (truthy_string i); destruct vis as [v|]; cbn -[truthy_string];
    (destruct Hty as [-> | (-> & Hp)]; cbn -[truthy_string];
     unfold no_points; cbn -[truthy_string];
     rewrite Hno, ?Hp, Hl; cbn -[truthy_string];
     rewrite ?Hno; reflexivity).
Qed.

Lemma X4_witness :
  points
    (normalize_object "k3x9q2m1a"
       (Build_GeometryObject (F := jsnum) (Some "f1"%string) POLYGON
          "face"%string None None None None (Some [])
          (Some (Build_ObjectData None None None None None None
                   (Some ["A"; "B"; "C"]%string)))))
  = Some ["A"; "B"; "C"]%string /\
  points
    (normalize_object "k3x9q2m1a"
       (Build_GeometryObject (F := jsnum) (Some "s1"%string) SEGMENT
          "edge"%string None None None None None
          (Some (Build_ObjectData None None None None (Some "A"%string) None
                   (Some ["A"; "B"]%string)))))
  = Some ["A"; "B"]%string.
Proof.
  split.
  - apply (X4_points_backfilled_from_nested_list "k3x9q2m1a" _
             (Build_ObjectData None None None None None None
                (Some ["A"; "B"; "C"]%string)));
      try reflexivity.
    left; reflexivity.
  - apply (X4_points_backfilled_from_nested_list "k3x9q2m1a" _
             (Build_ObjectData None None None None (Some "A"%string) None
                (Some ["A"; "B"]%string)));
      try reflexivity.
    right; split; reflexivity.
Defined.
Lemma X3_witness :
  points (normalize_object "k3x9q2m1a" (sample_object (F := jsnum)
            "A"%string POINT None (xyz 0 0 0))) = None /\
  obj_id (normalize_object "k3x9q2m1a" segment_payload)
  = Some "k3x9q2m1a"%string.
Proof.
  destruct (X3_normalize_object_frame "k3x9q2m1a"
              (sample_object (F := jsnum) "A"%string POINT None
                 (xyz 0 0 0)))
    as (_ & _ & _ & _ & Hkind & _).
  destruct (X3_normalize_object_frame "k3x9q2m1a" segment_payload)
    as (_ & Hid & _).
  split; [ apply Hkind; discriminate | exact Hid ].
Defined.

(** * updateObject and removeObject *)

Section StoreUpdate.
Context {F : Type}.

Local Abbreviation Obj := (GeometryObject F).
Local Abbreviation Con := (Constraint F).

Lemma override_assoc {A : Type} (p2 p1 old : option A) :
  override p2 (override p1 old) = override (override p2 p1) old.
Proof. destruct p2, p1; reflexivity. Qed.

Lemma merge_data_assoc (old : option (ObjectData F)) (p1 p2 : ObjectData F) :
  merge_data (Some (merge_data old p1)) p2
  = merge_data old (merge_data (Some p1) p2).
Proof.
  destruct old as [d|]; simpl; [ | reflexivity ].
  rewrite !override_assoc; reflexivity.
Qed.

(** Removing the objects under [id] does not change what another id
    resolves to. *)
Lemma find_obj_removeObject (id i : string) (prev : list Obj) :
  i <> id ->
  find_obj (Some i) (removeObject_objects id prev) = find_obj (Some i) prev.
Proof.
  intros Hne; unfold find_obj, removeObject_objects.
  induction prev as [ | o rest IH ]; simpl; [ reflexivity | ].
  destruct (strict_eqb (obj_id o) (Some id)) eqn:E; simpl.
  - apply strict_eqb_eq in E.
    rewrite (strict_eqb_neq (obj_id o) (Some i)) by congruence.
    exact IH.
  - destruct (strict_eqb (obj_id o) (Some i)); [ reflexivity | exact IH ].
Qed.

Lemma includes_In (ids : list string) (id : string) :
  includes ids id = true <-> In id ids.
Proof.
  unfold includes; rewrite existsb_exists; split.
  - intros (x & Hx & E); apply String.eqb_eq in E; congruence.
  - intros H; exists id; split; [ exact H | apply String.eqb_refl ].
Qed.
End StoreUpdate.

(** X5: [updateObject] touches nothing but the data bags of the objects
    stored under the given id. The list keeps its length and order,
    every object keeps its id, type, name, color, flags and [points],
    an object under another id is returned as it is, and when no object
    is stored under the id the list is returned unchanged. *)
Theorem X5_updateObject_frame
    {F : Type} (id : string) (patch : ObjectData F)
    (prev : list (GeometryObject F)) :
  Forall2
    (fun o o' =>
       same_but_data o o' /\ (obj_id o <> Some id -> o' = o))
    prev (updateObject id patch prev) /\
  (find_obj (Some id) prev = None -> updateObject id patch prev = prev).
Proof.
  unfold updateObject, find_obj; split.
  - induction prev as [ | o rest IH ]; simpl; constructor; [ | exact IH ].
    destruct (strict_eqb (obj_id o) (Some id)) eqn:E.
    + split; [ repeat split | ].
      intros Hne; apply strict_eqb_eq in E; contradiction.
    + split; [ repeat split | reflexivity ].
  - induction prev as [ | o rest IH ]; simpl; [ reflexivity | ].
    destruct (strict_eqb (obj_id o) (Some id)); [ discriminate | ].
    intros H; rewrite (IH H); reflexivity.
Qed.

Lemma X5_witness :
  updateObject "Z"
    (Build_ObjectData (Some (xyz 1 1 1)) None None None None None None)
    scene_AB
  = scene_AB.
Proof.
  apply (proj2 (X5_updateObject_frame "Z"
                  (Build_ObjectData (Some (xyz 1 1 1)) None None None
                     None None None)
                  scene_AB)).
  reflexivity.
Defined.

(** X6: the merge of [updateObject]. After an update every object
    stored under the id has a data bag in which each key of the patch
    has the patch's value and each other key has the value it had; an
    object that had no data bag gets the patch as its bag. In
    particular a patched position becomes the position of all of them,
    fixed or not. *)
Theorem X6_updateObject_merges
    {F : Type} (id : string) (patch : ObjectData F)
    (prev : list (GeometryObject F)) :
  Forall2
    (fun o o' =>
       obj_id o = Some id ->
       data o' = Some (merge_data (data o) patch) /\
       (forall p, position patch = Some p -> obj_position o' = Some p) /\
       (position patch = None -> obj_position o' = obj_position o))
    prev (updateObject id patch prev).
Proof.
  unfold updateObject.
  induction prev as [ | o rest IH ]; simpl; constructor; [ | exact IH ].
  intros Hid; rewrite Hid, strict_eqb_refl.
  unfold obj_position; cbn [set_data data].
  split; [ reflexivity | ].
  destruct (data o) as [d|]; simpl; split.
  - intros p ->; reflexivity.
  - intros ->; reflexivity.
  - intros p ->; reflexivity.
  - intros ->; reflexivity.
Qed.

Lemma X6_witness :
  exists o',
    nth_error
      (updateObject "B"
         (Build_ObjectData (Some (xyz 3 4 0)) None None None None None
            None)
         scene_AB) 1
    = Some o' /\
    obj_position o' = Some (xyz 3 4 0).
Proof.
  pose proof (X6_updateObject_merges "B"
                (Build_ObjectData (Some (xyz 3 4 0)) None None None
                   None None None)
                scene_AB) as H.
  inversion H as [ | o o' l l' _ Hrest ]; subst.
  inversion Hrest as [ | o1 o1' l1 l1' HB _ ]; subst.
  destruct (HB eq_refl) as (_ & Hp & _).
  eexists; split; [ reflexivity | ].
  exact (Hp _ eq_refl).
Defined.

(** X7: two updates under one id compose into one update with the
    second patch merged over the first; repeating an update changes
    nothing. *)
Theorem X7_updateObject_composes
    {F : Type} (id : string) (p1 p2 : ObjectData F)
    (prev : list (GeometryObject F)) :
  updateObject id p2 (updateObject id p1 prev)
  = updateObject id (merge_data (Some p1) p2) prev /\
  updateObject id p1 (updateObject id p1 prev) = updateObject id p1 prev.
Proof.
  assert (H : forall q1 q2 : ObjectData F,
             updateObject id q2 (updateObject id q1 prev)
             = updateObject id (merge_data (Some q1) q2) prev).
  { intros q1 q2; unfold updateObject; rewrite map_map.
    apply map_ext; intros o.
    destruct (strict_eqb (obj_id o) (Some id)) eqn:E; cbn [set_data obj_id].
    - rewrite E; cbn [set_data data obj_id obj_type obj_name color visible
                        selected fixed points].
      rewrite merge_data_assoc; reflexivity.
    - rewrite E; reflexivity. }
  split; [ apply H | ].
  rewrite H; f_equal.
  destruct p1 as [a b c d e f g]; simpl.
  destruct a, b, c, d, e, f, g; reflexivity.
Qed.

(** X8: [removeObject] and what is left. No object stored under the
    id and no constraint naming the id remains; every other id resolves
    to the object it resolved to before; and if every operand of every
    constraint named a stored object before the removal, that still
    holds after it. *)
Theorem X8_removeObject_cascades
    {F : Type} {NF : Number F} (id : string) (s : @Store F) :
  let s' := removeObject id s in
  find_obj (Some id) (store_objects s') = None /\
  (forall c, In c (store_constraints s') -> ~ In id (objectIds c)) /\
  (forall i, i <> id ->
             find_obj (Some i) (store_objects s')
             = find_obj (Some i) (store_objects s)) /\
  (resolves_all (store_objects s) (store_constraints s) ->
   resolves_all (store_objects s') (store_constraints s')).
Proof.
  cbn [removeObject store_objects store_constraints].
  assert (Hcs : forall c, In c (removeObject_constraints id (store_constraints s))
                          -> In c (store_constraints s) /\ ~ In id (objectIds c)).
  { intros c Hc; apply filter_In in Hc as (Hin & Hb); split; [ exact Hin | ].
    rewrite <- includes_In; destruct (includes (objectIds c) id);
      [ discriminate | congruence ]. }
  split; [ | split; [ | split ] ].
  - unfold find_obj, removeObject_objects.
    induction (store_objects s) as [ | o rest IH ]; simpl; [ reflexivity | ].
    destruct (strict_eqb (obj_id o) (Some id)) eqn:E; simpl;
      [ exact IH | rewrite E; exact IH ].
  - intros c Hc; exact (proj2 (Hcs c Hc)).
  - intros i Hne; apply find_obj_removeObject; exact Hne.
  - intros Hall c Hc i Hi.
    destruct (Hcs c Hc) as (Hin & Hnot).
    rewrite find_obj_removeObject by (intros ->; contradiction).
    exact (Hall c Hin i Hi).
Qed.

(** X9: insert and remove. Removing an object right after it was
    inserted under an id that was not stored before gives back the
    object list as it was. *)
Theorem X9_removeObject_undoes_addObject
    {F : Type} (fresh id : string) (rawObj : GeometryObject F)
    (prev : list (GeometryObject F)) :
  obj_id (normalize_object fresh rawObj) = Some id ->
  find_obj (Some id) prev = None ->
  removeObject_objects id (addObject fresh rawObj prev) = prev.
Proof.
  intros Hid Hnone.
  assert (Hkeep : removeObject_objects id prev = prev).
  { unfold removeObject_objects, find_obj in *.
    induction prev as [ | o rest IH ]; simpl in *; [ reflexivity | ].
    destruct (strict_eqb (obj_id o) (Some id)); [ discriminate | ].
    simpl; rewrite (IH Hnone); reflexivity. }
  unfold addObject; rewrite Hid.
  rewrite (proj2 (findIndex_none_iff (Some id) prev) Hnone).
  unfold removeObject_objects in *.
  rewrite filter_app, Hkeep; simpl.
  rewrite Hid, strict_eqb_refl; simpl; apply app_nil_r.
Qed.

Lemma X9_witness :
  removeObject_objects "C"
    (addObject "k3x9q2m1a"
       (sample_object "C"%string POINT None (xyz 1 1 1)) scene_AB)
  = scene_AB.
Proof.
  apply (X9_removeObject_undoes_addObject "k3x9q2m1a" "C"); reflexivity.
Defined.

Lemma X8_witness :
  resolves_all (store_objects (removeObject "B" store_AB))
    (store_constraints (removeObject "B" store_AB)) /\
  find_obj (Some "A"%string) (store_objects (removeObject "B" store_AB))
  = find_obj (Some "A"%string) (store_objects store_AB).
Proof.
  destruct (X8_removeObject_cascades "B" store_AB) as (_ & _ & Hother & Hall).
  split; [ apply Hall | apply Hother; discriminate ].
  intros c [<- | []] i [<- | [<- | []]]; discriminate.
Defined.

(** * Executing the actions of a response *)

Section Dispatch.
Context {F : Type} {NF : Number F}.

Local Abbreviation Obj := (GeometryObject F).

Lemma execute_action_ignored (s : @Store F) (a : Action) :
  is_ignored a = true -> execute_action s a = s.
Proof. destruct a; simpl; intros H; try discriminate H; reflexivity. Qed.

Lemma fold_execute_filter (actions : list (@Action F)) :
  forall s,
    fold_left execute_action
      (filter (fun a => negb (is_ignored a)) actions) s
    = fold_left execute_action actions s.
Proof.
  induction actions as [ | a rest IH ]; intros s; simpl; [ reflexivity | ].
  destruct (is_ignored a) eqn:E; simpl.
  - rewrite (execute_action_ignored s a E); apply IH.
  - apply IH.
Qed.

Lemma existsb_reset_filter (actions : list (@Action F)) :
  existsb is_resetScene (filter (fun a => negb (is_ignored a)) actions)
  = existsb is_resetScene actions.
Proof.
  induction actions as [ | a rest IH ]; simpl; [ reflexivity | ].
  destruct a; simpl; rewrite ?IH; reflexivity.
Qed.

Lemma find_obj_In (i : option string) (l : list Obj) :
  find_obj i l <> None <-> In i (map obj_id l).
Proof.
  unfold find_obj; induction l as [ | o rest IH ]; simpl; [ tauto | ].
  destruct (strict_eqb (obj_id o) i) eqn:E.
  - apply strict_eqb_eq in E; split; [ auto | discriminate ].
  - rewrite IH; split; [ auto | ].
    intros [H | H]; [ | exact H ].
    rewrite H, strict_eqb_refl in E; discriminate.
Qed.

Lemma updateObject_ids (id : string) (patch : ObjectData F) (l : list Obj) :
  map obj_id (updateObject id patch l) = map obj_id l.
Proof.
  unfold updateObject; rewrite map_map; apply map_ext; intros o.
  destruct (strict_eqb (obj_id o) (Some id)); reflexivity.
Qed.

(** What one action that is not a resetScene keeps. *)
Lemma execute_action_keeps (s : @Store F) (a : Action) :
  let s' := execute_action s a in
  incl (map obj_id (store_objects s)) (map obj_id (store_objects s')) /\
  store_constraints s'
  = store_constraints s ++ added_constraints [a] /\
  store_steps s' = store_steps s /\
  store_activeStepId s' = store_activeStepId s /\
  store_solverStats s' = store_solverStats s.
Proof.
  destruct a; cbn -[addObject updateObject truthy_string incl];
    rewrite ?app_nil_r;
    try (repeat split; solve [ apply incl_refl | reflexivity ]).
  - split; [ | auto ].
    destruct (addObject_ids random payload (store_objects s))
      as [(_ & ->) | (_ & ->)];
      [ apply incl_refl | apply incl_appl, incl_refl ].
  - destruct id as [i|]; [ | repeat split; apply incl_refl ].
    destruct (truthy_string (Some i));
      cbn -[addObject updateObject truthy_string incl];
      rewrite ?updateObject_ids; repeat split; apply incl_refl.
Qed.
End Dispatch.

(** X10: actions without a case. A removeObject, removeConstraint or
    setActiveStep action in a response has no effect on the store:
    the batch gives the same store as the batch without these actions,
    and a batch of only such actions gives the store as it was. *)
Theorem X10_actions_without_case_are_ignored
    {F : Type} {NF : Number F} (actions : list (@Action F)) (s : @Store F) :
  execute_actions (filter (fun a => negb (is_ignored a)) actions) s
  = execute_actions actions s /\
  (forallb is_ignored actions = true -> execute_actions actions s = s).
Proof.
  unfold execute_actions; split.
  - rewrite existsb_reset_filter; apply fold_execute_filter.
  - intros Hall.
    assert (Hnr : existsb is_resetScene actions = false).
    { induction actions as [ | a rest IH ]; simpl in *; [ reflexivity | ].
      apply andb_prop in Hall as (Ha & Hrest).
      rewrite (IH Hrest); destruct a; try discriminate Ha; reflexivity. }
    rewrite Hnr; clear Hnr; revert s.
    induction actions as [ | a rest IH ]; intros s; simpl in *;
      [ reflexivity | ].
    apply andb_prop in Hall as (Ha & Hrest).
    rewrite (execute_action_ignored s a Ha); apply IH; exact Hrest.
Qed.

Lemma X10_witness :
  execute_actions [Act_removeObject "A"%string] store_AB = store_AB.
Proof.
  apply (proj2 (X10_actions_without_case_are_ignored
                  [Act_removeObject "A"%string] store_AB)).
  reflexivity.
Defined.

(** X11: a resetScene anywhere in a batch is applied before the whole
    batch. The store after the batch does not depend on the store
    before it, and it is the store that the other actions, including
    those listed before the resetScene, build from the initial state. *)
Theorem X11_resetScene_is_applied_first
    {F : Type} {NF : Number F} (actions : list (@Action F))
    (stepList : list (@Step F)) (s : @Store F) :
  existsb is_resetScene actions = true ->
  execute_payload actions stepList s
  = execute_payload actions stepList resetScene /\
  execute_actions actions s
  = fold_left execute_action
      (filter (fun a => negb (is_resetScene a)) actions) resetScene.
Proof.
  intros H; unfold execute_payload, execute_actions; rewrite H.
  split; [ reflexivity | ].
  generalize (@resetScene F NF) as s0; clear H.
  induction actions as [ | a rest IH ]; intros s0; simpl; [ reflexivity | ].
  destruct a; simpl; apply IH.
Qed.

Lemma X11_witness :
  execute_actions batch_with_reset store_AB
  = with_objects
      [normalize_object "k3x9q2m1a"
         (sample_object "C"%string POINT None (xyz 1 1 1))]
      resetScene.
Proof.
  rewrite (proj2 (X11_resetScene_is_applied_first batch_with_reset []
                    store_AB eq_refl)).
  reflexivity.
Defined.

(** X12: what a batch without resetScene cannot do. It deletes no
    object (every id stored before is stored after), it only appends to
    the constraints, namely the payloads of its addConstraint actions
    in order, and it leaves steps, active step and solver statistics
    alone. *)
Theorem X12_batch_without_reset_only_adds
    {F : Type} {NF : Number F} (actions : list (@Action F)) (s : @Store F) :
  existsb is_resetScene actions = false ->
  let s' := execute_actions actions s in
  incl (map obj_id (store_objects s)) (map obj_id (store_objects s')) /\
  store_constraints s' = store_constraints s ++ added_constraints actions /\
  store_steps s' = store_steps s /\
  store_activeStepId s' = store_activeStepId s /\
  store_solverStats s' = store_solverStats s.
Proof.
  intros H; unfold execute_actions; rewrite H; clear H; cbv zeta.
  revert s; induction actions as [ | a rest IH ]; intros s.
  - simpl; rewrite app_nil_r; repeat split; apply incl_refl.
  - cbn [fold_left].
    destruct (execute_action_keeps s a) as (Hi & Hc & Hs & Ha & Hst).
    destruct (IH (execute_action s a)) as (Hi' & Hc' & Hs' & Ha' & Hst').
    split; [ eapply incl_tran; eauto | ].
    split; [ | split; [ congruence | split; congruence ] ].
    rewrite Hc', Hc, <- app_assoc.
    f_equal.
    unfold added_constraints; cbn [flat_map].
    rewrite app_nil_r; reflexivity.
Qed.

Lemma X12_witness :
  store_constraints
    (execute_actions
       [Act_addConstraint distance_AB_5_unset; Act_removeObject "A"%string]
       store_AB)
  = [distance_AB_5; distance_AB_5_unset].
Proof.
  exact (proj1 (proj2 (X12_batch_without_reset_only_adds
                         [Act_addConstraint distance_AB_5_unset;
                          Act_removeObject "A"%string]
                         store_AB eq_refl))).
Defined.

(** * Constraints that fall through, and what a solve can reach *)

Section Skipping.
Context {F : Type} {NF : Number F}.

Local Abbreviation Obj := (GeometryObject F).
Local Abbreviation Con := (Constraint F).

Lemma solver_touch_same_shape (o o' : Obj) :
  solver_touch o o' ->
  obj_id o' = obj_id o /\
  (obj_position o' = None <-> obj_position o = None).
Proof.
  intros [-> | (_ & Hp & p' & ->)]; [ tauto | ].
  split; [ apply with_position_fields | ].
  rewrite (obj_position_with_position p' o Hp); split; congruence.
Qed.

(** The working copy resolves ids as the stored objects do. *)
Lemma touch_resolves (i : option string) (objs cur : list Obj) :
  Forall2 solver_touch objs cur ->
  resolves i cur = resolves i objs /\
  resolves_positioned i cur = resolves_positioned i objs.
Proof.
  unfold resolves, resolves_positioned, find_obj.
  induction 1 as [ | o o' objs cur Ho _ IH ]; simpl; [ split; reflexivity | ].
  destruct (solver_touch_same_shape o o' Ho) as (-> & Hp).
  destruct (strict_eqb (obj_id o) i); [ | exact IH ].
  split; [ reflexivity | ].
  destruct (obj_position o'), (obj_position o); try reflexivity;
    destruct Hp as (H1 & H2);
    [ discriminate (H2 eq_refl) | discriminate (H1 eq_refl) ].
Qed.

Lemma skipped_on_touch (c : Con) (objs cur : list Obj) :
  Forall2 solver_touch objs cur -> skipped_on c cur = skipped_on c objs.
Proof.
  intros H; unfold skipped_on.
  destruct (c_type c); try reflexivity.
  - rewrite (proj2 (touch_resolves (nth_error (objectIds c) 0) _ _ H)).
    rewrite (proj2 (touch_resolves (nth_error (objectIds c) 1) _ _ H)).
    reflexivity.
  - rewrite (proj1 (touch_resolves (nth_error (objectIds c) 0) _ _ H)).
    rewrite (proj1 (touch_resolves (nth_error (objectIds c) 1) _ _ H)).
    rewrite (proj1 (touch_resolves (nth_error (objectIds c) 2) _ _ H)).
    reflexivity.
Qed.

(** So does the JSON copy: it keeps the ids, and an object of the copy
    carries a position exactly when the stored one does. *)
Lemma JSON_copy_resolves (i : option string) (objs : list Obj) :
  resolves i (JSON_copy objs) = resolves i objs /\
  resolves_positioned i (JSON_copy objs) = resolves_positioned i objs.
Proof.
  unfold resolves, resolves_positioned.
  rewrite find_obj_JSON_copy.
  destruct (find_obj i objs) as [o|]; simpl; split; try reflexivity.
  unfold obj_position; simpl.
  destruct (data o) as [d|]; simpl; [ | reflexivity ].
  destruct (position d); reflexivity.
Qed.

Lemma skipped_on_JSON_copy (c : Con) (objs : list Obj) :
  skipped_on c (JSON_copy objs) = skipped_on c objs.
Proof.
  unfold skipped_on.
  destruct (c_type c); try reflexivity.
  - rewrite (proj2 (JSON_copy_resolves (nth_error (objectIds c) 0) objs)).
    rewrite (proj2 (JSON_copy_resolves (nth_error (objectIds c) 1) objs)).
    reflexivity.
  - rewrite (proj1 (JSON_copy_resolves (nth_error (objectIds c) 0) objs)).
    rewrite (proj1 (JSON_copy_resolves (nth_error (objectIds c) 1) objs)).
    rewrite (proj1 (JSON_copy_resolves (nth_error (objectIds c) 2) objs)).
    reflexivity.
Qed.

(** A constraint that falls through leaves the loop state as it is. *)
Lemma skipped_step (c : Con) (cur : list Obj) (err : F) :
  skipped_on c cur = true -> constraint_step c (cur, err) = Ok (cur, err).
Proof.
  unfold skipped_on, constraint_step, resolves, resolves_positioned.
  destruct (c_type c); try reflexivity; intros H.
  - unfold distance_step.
    destruct (find_obj (nth_error (objectIds c) 0) cur) as [p1|];
      [ | reflexivity ].
    destruct (find_obj (nth_error (objectIds c) 1) cur) as [p2|];
      [ | reflexivity ].
    destruct (obj_position p1); [ | reflexivity ].
    destruct (obj_position p2); [ discriminate H | reflexivity ].
  - unfold midpoint_step.
    destruct (find_obj (nth_error (objectIds c) 0) cur); [ | reflexivity ].
    destruct (find_obj (nth_error (objectIds c) 1) cur); [ | reflexivity ].
    destruct (find_obj (nth_error (objectIds c) 2) cur);
      [ discriminate H | reflexivity ].
Qed.

Lemma forEach_without_skipped (objs : list Obj) (c : Con) (a2 : list Con) :
  skipped_on c objs = true ->
  forall (a1 : list Con) (st : PassState),
    Forall2 solver_touch objs (fst st) ->
    forEach (a1 ++ c :: a2) st = forEach (a1 ++ a2) st.
Proof.
  intros Hskip; induction a1 as [ | x a1 IH ]; intros [cur err] Hst; simpl.
  - rewrite skipped_step; [ reflexivity | ].
    rewrite (skipped_on_touch c objs cur Hst); exact Hskip.
  - destruct (constraint_step x (cur, err)) as [st'|e] eqn:E; simpl;
      [ | reflexivity ].
    apply IH; eapply constraint_step_touch; eauto.
Qed.

Lemma pass_touch (objs : list Obj) (active : list Con) (cur : list Obj)
    (st : PassState) :
  Forall2 solver_touch objs cur ->
  pass active cur = Ok st ->
  Forall2 solver_touch objs (fst st).
Proof.
  intros H Hp; unfold pass in Hp; revert Hp.
  apply (forEach_invariant (fun s => Forall2 solver_touch objs (fst s))).
  - intros c s s'; apply constraint_step_touch.
  - exact H.
Qed.

Lemma iterate_without_skipped (objs : list Obj) (c : Con)
    (a1 a2 : list Con) :
  skipped_on c objs = true ->
  forall (n : nat) (cur : list Obj) (r : F),
    Forall2 solver_touch objs cur ->
    iterate n (a1 ++ c :: a2) cur r = iterate n (a1 ++ a2) cur r.
Proof.
  intros Hskip; induction n as [ | n IH ]; intros cur r Hcur; simpl;
    [ reflexivity | ].
  unfold pass at 1.
  rewrite (forEach_without_skipped objs c a2 Hskip a1 (cur, lit_0) Hcur).
  fold (pass (a1 ++ a2) cur).
  destruct (pass (a1 ++ a2) cur) as [[cur' e]|] eqn:E; simpl; [ | reflexivity ].
  destruct (fltb e lit_0_001); [ reflexivity | ].
  apply IH; exact (pass_touch objs _ cur _ Hcur E).
Qed.

Lemma Forall2_touch_refl (objs : list Obj) : Forall2 solver_touch objs objs.
Proof. induction objs; constructor; auto using solver_touch_refl. Qed.

Lemma forEach_all_skipped (objs : list Obj) :
  forall (active : list Con) (err : F),
    forallb (fun c => skipped_on c objs) active = true ->
    forEach active (objs, err) = Ok (objs, err).
Proof.
  induction active as [ | c active IH ]; intros err H; simpl in *;
    [ reflexivity | ].
  apply andb_prop in H as (Hc & Hrest).
  rewrite (skipped_step c objs err Hc); simpl; apply IH; exact Hrest.
Qed.
End Skipping.

(** X13: a constraint that falls through does not alter the outcome of
    the others. If on the stored objects a constraint has a type
    without a branch, or is a Distance constraint with an operand that
    does not resolve to a positioned object, or a Midpoint constraint
    with an operand that does not resolve, then [solve] with it returns
    what [solve] without it returns, or raises as that does; only the
    two constraint counts are higher by one when it is enabled. *)
Theorem X13_skipped_constraint_changes_nothing
    {F : Type} {NF : Number F} (objects : list (GeometryObject F))
    (cs1 cs2 : list (Constraint F)) (c : Constraint F) :
  skipped_on c objects = true ->
  solve objects (cs1 ++ c :: cs2)
  = ('(objs', stats) <- solve objects (cs1 ++ cs2) ;;
     Ok (objs',
         with_more_constraints (if truthy_bool (enabled c) then 1 else 0)
           stats)).
Proof.
  intros Hskip; unfold solve; cbv zeta.
  rewrite <- skipped_on_JSON_copy in Hskip.
  set (copy := JSON_copy objects) in *.
  rewrite !activeConstraints_app.
  change (c :: cs2) with ([c] ++ cs2).
  rewrite activeConstraints_app.
  assert (Hact : activeConstraints [c]
                 = if truthy_bool (enabled c) then [c] else [])
    by reflexivity.
  rewrite !Hact; clear Hact.
  destruct (truthy_bool (enabled c)).
  - cbn [app].
    rewrite (iterate_without_skipped copy c _ _ Hskip MAX_ITER copy
               lit_0 (Forall2_touch_refl copy)).
    destruct (iterate MAX_ITER _ copy lit_0) as [[cur r]|]; simpl;
      [ | reflexivity ].
    unfold with_more_constraints; cbn.
    rewrite !length_app; cbn [List.length].
    do 3 f_equal; lia.
  - cbn [app].
    destruct (iterate MAX_ITER _ copy lit_0) as [[cur r]|]; simpl;
      [ | reflexivity ].
    unfold with_more_constraints; cbn.
    rewrite !Nat.add_0_r; reflexivity.
Qed.

Lemma X13_witness :
  solve scene_midpoint [distance_MA; distance_AB_5]
  = ('(objs', stats) <- solve scene_midpoint [distance_AB_5] ;;
     Ok (objs', with_more_constraints 1 stats)).
Proof.
  exact (X13_skipped_constraint_changes_nothing scene_midpoint []
           [distance_AB_5] distance_MA eq_refl).
Defined.

(** X14: with nothing to do, [solve] commits the JSON copy of the
    objects. If every enabled constraint falls through on the stored
    objects (in particular when no constraint is enabled), [solve]
    returns that copy with a residual of 0: the objects as they are
    when the copy equals them, and otherwise with every -0 made 0 and
    every NaN or infinity made null. *)
Theorem X14_solve_without_effective_constraints
    {F : Type} {NF : Number F} (objects : list (GeometryObject F))
    (constraints : list (Constraint F)) :
  forallb (fun c => skipped_on c objects) (activeConstraints constraints)
  = true ->
  solve objects constraints
  = Ok (JSON_copy objects,
        Build_SolverStats 50 lit_0
          (List.length (activeConstraints constraints))
          (List.length (activeConstraints constraints))) /\
  (JSON_copy objects = objects ->
   solve objects constraints
   = Ok (objects,
         Build_SolverStats 50 lit_0
           (List.length (activeConstraints constraints))
           (List.length (activeConstraints constraints)))).
Proof.
  intros H.
  assert (Hsolve : solve objects constraints
                   = Ok (JSON_copy objects,
                         Build_SolverStats 50 lit_0
                           (List.length (activeConstraints constraints))
                           (List.length (activeConstraints constraints)))).
  { unfold solve; cbv zeta.
    assert (H' : forallb (fun c => skipped_on c (JSON_copy objects))
                   (activeConstraints constraints) = true).
    { rewrite <- H; generalize (activeConstraints constraints) as l.
      induction l as [ | c l IH ]; simpl; [ reflexivity | ].
      rewrite skipped_on_JSON_copy, IH; reflexivity. }
    assert (Hit : forall n,
               iterate n (activeConstraints constraints) (JSON_copy objects)
                 lit_0 = Ok (JSON_copy objects, lit_0)).
    { induction n as [ | n IH ]; simpl; [ reflexivity | ].
      unfold pass; rewrite (forEach_all_skipped _ _ lit_0 H'); simpl.
      destruct (fltb lit_0 lit_0_001); [ reflexivity | exact IH ]. }
    rewrite Hit; reflexivity. }
  split; [ exact Hsolve | ].
  intros Hcopy; rewrite Hsolve, Hcopy; reflexivity.
Qed.

Lemma X14_witness :
  solve scene_AB
    [distance_AB_5_unset;
     sample_constraint ANGLE ["A"; "B"]%string (Some (Num 5)) (Some true);
     sample_constraint DISTANCE ["A"; "nobody"]%string None (Some true)]
  = Ok (scene_AB, Build_SolverStats 50 (Num 0) 2 2) /\
  solve scene_signed_zero_nan []
  = Ok ([sample_object "Z"%string POINT (Some true) (Num 0, Null, Num 1)],
        Build_SolverStats 50 (Num 0) 0 0).
Proof.
  split.
  - exact (proj1 (X14_solve_without_effective_constraints scene_AB
                    [distance_AB_5_unset;
                     sample_constraint ANGLE ["A"; "B"]%string (Some (Num 5))
                       (Some true);
                     sample_constraint DISTANCE ["A"; "nobody"]%string None
                       (Some true)]
                    eq_refl)).
  - exact (proj1 (X14_solve_without_effective_constraints
                    scene_signed_zero_nan [] eq_refl)).
Defined.

Section Reach.
Context {F : Type} {NF : Number F}.

Local Abbreviation Obj := (GeometryObject F).
Local Abbreviation Con := (Constraint F).

Lemma update_found_named (ids : list (option string)) (i : option string)
    (p : Point3 F) :
  In i ids ->
  forall l0 l : list Obj,
    Forall2 (kept_unless_named ids) l0 l ->
    Forall2 (kept_unless_named ids) l0 (update_found i (with_position p) l).
Proof.
  intros Hi l0 l H.
  induction H as [ | o0 o l0 l (Hid & Hkeep) Hrest IH ]; simpl;
    [ constructor | ].
  destruct (strict_eqb (obj_id o) i) eqn:E.
  - constructor; [ | exact Hrest ].
    apply strict_eqb_eq in E.
    split; [ rewrite with_position_keeps_id; exact Hid | ].
    intros Hn; exfalso; apply Hn; congruence.
  - constructor; [ split; assumption | exact IH ].
Qed.

Lemma constraint_step_named (ids : list (option string)) (c : Con)
    (l0 : list Obj) (st st' : PassState) :
  incl (moved_operands c) ids ->
  Forall2 (kept_unless_named ids) l0 (fst st) ->
  constraint_step c st = Ok st' ->
  Forall2 (kept_unless_named ids) l0 (fst st').
Proof.
  destruct st as [cur err]; cbn [fst]; intros Hincl H Hs.
  unfold constraint_step, moved_operands in *.
  destruct (c_type c);
    try (injection Hs as <-; exact H).
  - assert (Hst : st' = distance_step c (cur, err)) by congruence.
    subst st'; clear Hs.
    unfold distance_step.
    set (id1 := nth_error (objectIds c) 0).
    set (id2 := nth_error (objectIds c) 1).
    assert (H1 : In id1 ids) by (apply Hincl; simpl; auto).
    assert (H2 : In id2 ids) by (apply Hincl; simpl; auto).
    destruct (find_obj id1 cur) as [p1|]; [ | exact H ].
    destruct (find_obj id2 cur) as [p2|]; [ | exact H ].
    destruct (obj_position p1); [ | exact H ].
    destruct (obj_position p2); [ | exact H ].
    destruct (fltb lit_0_0001 _); [ | exact H ].
    cbn [fst].
    destruct (negb (truthy_bool (fixed p2)));
      destruct (negb (truthy_bool (fixed p1)));
      auto using update_found_named.
  - unfold midpoint_step in Hs.
    set (midId := nth_error (objectIds c) 0) in Hs.
    assert (H0 : In midId ids) by (apply Hincl; simpl; auto).
    destruct (find_obj midId cur) as [M|];
      [ | injection Hs as <-; exact H ].
    destruct (find_obj (nth_error (objectIds c) 1) cur) as [A|];
      [ | injection Hs as <-; exact H ].
    destruct (find_obj (nth_error (objectIds c) 2) cur) as [B|];
      [ | injection Hs as <-; exact H ].
    destruct (read_position M); [ | discriminate Hs ].
    destruct (read_position A); [ | discriminate Hs ].
    destruct (read_position B); [ | discriminate Hs ].
    cbn [bind] in Hs.
    destruct (negb (truthy_bool (fixed M))); injection Hs as <-; cbn [fst];
      auto using update_found_named.
Qed.

Lemma forEach_named (ids : list (option string)) (l0 : list Obj) :
  forall (cs : list Con) (st st' : PassState),
    incl (flat_map moved_operands cs) ids ->
    Forall2 (kept_unless_named ids) l0 (fst st) ->
    forEach cs st = Ok st' ->
    Forall2 (kept_unless_named ids) l0 (fst st').
Proof.
  induction cs as [ | c cs IH ]; intros st st' Hincl H Hs; simpl in Hs.
  - injection Hs as <-; exact H.
  - bind_inv Hs.
    simpl in Hincl; apply incl_app_inv in Hincl as (Hc & Hrest).
    eapply IH; [ exact Hrest | | exact Hs ].
    eapply constraint_step_named; eauto.
Qed.

(** The residual at loop exit is the initial one or a pass error that
    did not meet the convergence test. *)
Lemma iterate_residual (active : list Con) :
  forall (n : nat) (objs : list Obj) (r : F) (objs' : list Obj) (r' : F),
    r = lit_0 \/ fltb r lit_0_001 = false ->
    iterate n active objs r = Ok (objs', r') ->
    r' = lit_0 \/ fltb r' lit_0_001 = false.
Proof.
  induction n as [ | n IH ]; intros objs r objs' r' Hr H; simpl in H.
  - injection H as _ <-; exact Hr.
  - bind_inv H. destruct a as [cur e].
    destruct (fltb e lit_0_001) eqn:Elt.
    + injection H as _ <-; exact Hr.
    + eapply IH; [ right; exact Elt | exact H ].
Qed.

(** A loop that ends with a pass that did not meet the test has run
    all its iterations. *)
Lemma iterate_trace_exhausted (active : list Con) :
  forall (n : nat) (objs : list Obj) (r : F) (ran : nat) (last : option F)
         (tr : LoopTrace),
    iterate_trace n active objs r ran last = Ok tr ->
    (forall e, trace_last_iterError tr = Some e ->
               fltb e lit_0_001 = false ->
               trace_iterations_run tr = ran + n) /\
    (trace_last_iterError tr = None -> n = 0 /\ last = None).
Proof.
  induction n as [ | n IH ]; intros objs r ran last tr H; simpl in H.
  - injection H as <-; simpl; split; [ intros; lia | auto ].
  - bind_inv H. destruct a as [cur e].
    destruct (fltb e lit_0_001) eqn:Elt.
    + injection H as <-; simpl; split; [ | discriminate ].
      intros e' [= <-] He; congruence.
    + destruct (IH _ _ _ _ _ H) as (H1 & H2); split.
      * intros e' He' Hlt; rewrite (H1 e' He' Hlt); lia.
      * intros Hn; destruct (H2 Hn) as (_ & Hd); discriminate.
Qed.
End Reach.

(** X15: [solve] reaches only the operands that its branches assign
    to. An object whose id is neither one of the first two operands of
    an enabled Distance constraint nor the first operand of an enabled
    Midpoint constraint is returned as its JSON copy, that is, exactly
    as it was stored when that copy equals it; so a Midpoint constraint
    by itself never moves its two end points. *)
Theorem X15_solve_moves_only_named_operands
    {F : Type} {NF : Number F} (objects : list (GeometryObject F))
    (constraints : list (Constraint F)) (objs' : list (GeometryObject F))
    (stats : SolverStats F) :
  solve objects constraints = Ok (objs', stats) ->
  let ids := flat_map moved_operands (activeConstraints constraints) in
  Forall2
    (fun o o' =>
       kept_unless_named ids (JSON_object o) o' /\
       (JSON_object o = o -> kept_unless_named ids o o'))
    objects objs'.
Proof.
  intros H ids; apply solve_inv in H as (H & _).
  assert (Hcopy : Forall2 (kept_unless_named ids) (JSON_copy objects) objs').
  { revert H.
    apply (iterate_invariant
             (fun cur =>
                Forall2 (kept_unless_named ids) (JSON_copy objects) cur)).
    - intros objs st Hi Hp; unfold pass in Hp.
      exact (forEach_named ids (JSON_copy objects) _ (objs, lit_0) st
               (incl_refl _) Hi Hp).
    - clear; induction (JSON_copy objects); constructor;
        [ split; auto | assumption ]. }
  apply Forall2_JSON_copy in Hcopy.
  revert Hcopy; apply Forall2_impl.
  intros o o' Ho; split; [ exact Ho | ].
  intros Hst; rewrite Hst in Ho; exact Ho.
Qed.

Lemma X15_witness :
  exists objs' stats,
    solve scene_midpoint [distance_AB_5] = Ok (objs', stats) /\
    nth_error objs' 0 = Some (sample_bare "M"%string SEGMENT).
Proof.
  destruct (solve scene_midpoint [distance_AB_5]) as [[objs' stats]|e] eqn:E;
    [ | vm_compute in E; discriminate E ].
  exists objs', stats; split; [ reflexivity | ].
  pose proof (X15_solve_moves_only_named_operands scene_midpoint
                [distance_AB_5] objs' stats E) as H.
  inversion H as [ | o o' l l' ((_ & Hkeep) & _) _ ]; subst.
  rewrite Hkeep; [ reflexivity | ].
  simpl; intros [H0 | [H0 | []]]; discriminate H0.
Defined.

(** X16: the residual that [solve] reports is never a converged value
    other than 0. Whatever the scene, the reported [totalError] is 0
    (the initial value) or a pass total that failed the convergence
    test, that is, one that is not below 0.001. *)
Theorem X16_reported_residual_zero_or_unconverged
    {F : Type} {NF : Number F} (objects : list (GeometryObject F))
    (constraints : list (Constraint F)) (objs' : list (GeometryObject F))
    (stats : SolverStats F) :
  solve objects constraints = Ok (objs', stats) ->
  totalError stats = lit_0 \/ fltb (totalError stats) lit_0_001 = false.
Proof.
  intros H; apply solve_inv in H as (H & _).
  eapply iterate_residual; [ left; reflexivity | exact H ].
Qed.

Lemma X16_witness :
  exists objs' stats,
    solve scene_AB [distance_AB_5] = Ok (objs', stats) /\
    (totalError stats = Num 0
     \/ PrimFloat.ltb (to_number (totalError stats)) 0.001 = false).
Proof.
  destruct (solve scene_AB [distance_AB_5]) as [[objs' stats]|e] eqn:E;
    [ | vm_compute in E; discriminate E ].
  exists objs', stats; split; [ reflexivity | ].
  exact (X16_reported_residual_zero_or_unconverged scene_AB [distance_AB_5]
           objs' stats E).
Defined.

(** X17: when the iteration cap is reached. If the last pass of the
    loop did not meet the convergence test, then all 50 iterations ran
    and the reported residual is the total error of that last pass;
    and the loop always runs at least one pass. *)
Theorem X17_unconverged_solve_reports_last_pass
    {F : Type} {NF : Number F} (objects : list (GeometryObject F))
    (constraints : list (Constraint F)) (tr : LoopTrace) :
  solve_trace objects constraints = Ok tr ->
  trace_last_iterError tr <> None /\
  forall e,
    trace_last_iterError tr = Some e ->
    fltb e lit_0_001 = false ->
    trace_iterations_run tr = 50 /\
    exists stats,
      solve objects constraints = Ok (trace_objects tr, stats) /\
      totalError stats = e.
Proof.
  intros H; unfold solve_trace in H.
  destruct (iterate_trace_exhausted _ _ _ _ _ _ _ H) as (Hrun & Hnone).
  split.
  - intros Hn; destruct (Hnone Hn) as (Hd & _); discriminate Hd.
  - intros e He Hlt; split; [ exact (Hrun e He Hlt) | ].
    eexists; split.
    + rewrite solve_trace_agrees; unfold solve_trace; rewrite H; reflexivity.
    + cbn [totalError].
      eapply iterate_trace_unconverged; [ | exact H | exact He | exact Hlt ].
      discriminate.
Qed.

Lemma X17_witness :
  exists tr e stats,
    solve_trace scene_AB [distance_AB_5; distance_AB_6] = Ok tr /\
    trace_last_iterError tr = Some e /\
    trace_iterations_run tr = 50 /\
    solve scene_AB [distance_AB_5; distance_AB_6]
    = Ok (trace_objects tr, stats) /\
    totalError stats = e.
Proof.
  destruct (solve_trace scene_AB [distance_AB_5; distance_AB_6])
    as [tr|e0] eqn:E; [ | vm_compute in E; discriminate E ].
  destruct (X17_unconverged_solve_reports_last_pass scene_AB
              [distance_AB_5; distance_AB_6] tr E) as (_ & H).
  vm_compute in E; injection E as <-.
  destruct (H (Num 1.3333333333333339) eq_refl eq_refl)
    as (Hrun & stats & Hsolve & Herr).
  eexists _, _, stats; repeat split; eassumption.
Defined.

(** * One evaluation of a Distance or Midpoint constraint, exactly *)

Section ExactSteps.
Local Open Scope R_scope.

Local Abbreviation Vec := (Point3 R).
Local Abbreviation Obj := (GeometryObject R).
Local Abbreviation Con := (Constraint R).

(** The distance after the endpoints moved by [k1] and [k2] times
    their difference towards each other. *)
Lemma distance_after_offsets (v1 v2 : Vec) (k1 k2 : R) :
  0 <= 1 - k1 - k2 ->
  distanceTo (vadd v1 (multiplyScalar (vsub v2 v1) k1))
    (vsub v2 (multiplyScalar (vsub v2 v1) k2))
  = (1 - k1 - k2) * distanceTo v1 v2.
Proof.
  intros Hk.
  rewrite !distanceTo_vlength.
  replace (vsub (vadd v1 (multiplyScalar (vsub v2 v1) k1))
             (vsub v2 (multiplyScalar (vsub v2 v1) k2)))
    with (multiplyScalar (vsub v1 v2) (1 - k1 - k2)).
  - rewrite vlength_scale, Rabs_pos_eq by exact Hk; reflexivity.
  - destruct v1 as [[x y] z], v2 as [[x' y'] z']; simpl.
    f_equal; [ f_equal | ]; ring.
Qed.

Lemma vadd_zero_scale (v w : Vec) : vadd v (multiplyScalar w 0) = v.
Proof.
  destruct v as [[x y] z], w as [[a b] c]; simpl.
  f_equal; [ f_equal | ]; ring.
Qed.

Lemma vsub_zero_scale (v w : Vec) : vsub v (multiplyScalar w 0) = v.
Proof.
  destruct v as [[x y] z], w as [[a b] c]; simpl.
  f_equal; [ f_equal | ]; ring.
Qed.
End ExactSteps.
(** X18: what one evaluation of a Distance constraint does to its
    error, in exact arithmetic. For two positioned operands more than
    0.0001 apart and a target that is not negative, the signed error
    (distance minus target) after the evaluation is half of what it was
    when both endpoints are free, three quarters when exactly one is
    fixed (the free one moves by the same offset as it would with a
    free partner), and unchanged when both are fixed; a fixed endpoint
    keeps its position. *)
Theorem X18_distance_evaluation_shrinks_error
    (c : Constraint R) (cur : list (GeometryObject R)) (err : R)
    (p1 p2 : GeometryObject R) (v1 v2 : Point3 R) :
  c_type c = DISTANCE ->
  find_obj (nth_error (objectIds c) 0) cur = Some p1 ->
  find_obj (nth_error (objectIds c) 1) cur = Some p2 ->
  obj_position p1 = Some v1 -> obj_position p2 = Some v2 ->
  (0.0001 < distanceTo v1 v2)%R ->
  (0 <= target_of c)%R ->
  exists cur' p1' p2' v1' v2',
    constraint_step c (cur, err)
    = Ok (cur', (err + Rabs (distanceTo v1 v2 - target_of c))%R) /\
    find_obj (nth_error (objectIds c) 0) cur' = Some p1' /\
    find_obj (nth_error (objectIds c) 1) cur' = Some p2' /\
    obj_position p1' = Some v1' /\ obj_position p2' = Some v2' /\
    (truthy_bool (fixed p1) = true -> v1' = v1) /\
    (truthy_bool (fixed p2) = true -> v2' = v2) /\
    (distanceTo v1' v2' - target_of c
     = remaining_share (truthy_bool (fixed p1)) (truthy_bool (fixed p2))
       * (distanceTo v1 v2 - target_of c))%R.
Proof.
  intros Hty H1 H2 P1 P2 Hd Ht.
  assert (Hpos : (0 < distanceTo v1 v2)%R) by lra.
  pose proof (apart_distinct _ _ _ _ _ _ _ H1 H2 P1 P2 Hpos) as Hne.
  unfold constraint_step; rewrite Hty.
  unfold distance_step.
  set (id1 := nth_error (objectIds c) 0) in *.
  set (id2 := nth_error (objectIds c) 1) in *.
  rewrite H1, H2, P1, P2.
  set (d := distanceTo v1 v2) in *.
  set (t := target_of c) in *.
  assert (Hlt : fltb (lit_0_0001 (F := R)) d = true)
    by (apply fltb_exact_true; exact Hd).
  rewrite Hlt.
  change (fsub d t) with (d - t)%R.
  change (fadd err (fabs (d - t)%R)) with (err + Rabs (d - t))%R.
  change (fmul (fmul (fdiv (d - t)%R d) lit_0_5) LEARNING_RATE)
    with ((d - t) / d * 0.5 * 0.5)%R.
  set (k := ((d - t) / d * 0.5 * 0.5)%R).
  assert (Hk : k = ((d - t) / (4 * d))%R).
  { unfold k; transitivity ((d - t) / d / 4)%R; [ | field; lra ].
    set (q := ((d - t) / d)%R); lra. }
  assert (Hkd : (k * d = (d - t) / 4)%R) by (rewrite Hk; field; lra).
  assert (Hk1 : (k <= 1 / 4)%R).
  { rewrite Hk; apply (Rmult_le_reg_r (4 * d)); [ lra | ].
    unfold Rdiv; rewrite Rmult_assoc, Rinv_l by lra; lra. }
  set (off := multiplyScalar (vsub v2 v1) k).
  destruct (truthy_bool (fixed p1)) eqn:F1;
    destruct (truthy_bool (fixed p2)) eqn:F2; cbn [negb remaining_share].
  - exists cur, p1, p2, v1, v2.
    split; [ reflexivity | ].
    do 4 (split; [ assumption | ]).
    split; [ reflexivity | ].
    split; [ reflexivity | ].
    fold d t; lra.
  - exists (update_found id2 (with_position (vsub v2 off)) cur), p1,
      (with_position (vsub v2 off) p2), v1, (vsub v2 off).
    split; [ reflexivity | ].
    split; [ rewrite find_obj_update_other;
             auto using with_position_keeps_id | ].
    split; [ rewrite find_obj_update_same by apply with_position_keeps_id;
             rewrite H2; reflexivity | ].
    split; [ exact P1 | ].
    split; [ apply obj_position_with_position; congruence | ].
    split; [ reflexivity | ].
    split; [ discriminate | ].
    replace (distanceTo v1 (vsub v2 off))
      with (distanceTo (vadd v1 (multiplyScalar (vsub v2 v1) 0%R))
              (vsub v2 off))
      by (rewrite vadd_zero_scale; reflexivity).
    unfold off; rewrite distance_after_offsets by lra.
    fold d; nra.
  - exists (update_found id1 (with_position (vadd v1 off)) cur),
      (with_position (vadd v1 off) p1), p2, (vadd v1 off), v2.
    split; [ reflexivity | ].
    split; [ rewrite find_obj_update_same by apply with_position_keeps_id;
             rewrite H1; reflexivity | ].
    split; [ rewrite find_obj_update_other;
             auto using with_position_keeps_id | ].
    split; [ apply obj_position_with_position; congruence | ].
    split; [ exact P2 | ].
    split; [ discriminate | ].
    split; [ reflexivity | ].
    replace (distanceTo (vadd v1 off) v2)
      with (distanceTo (vadd v1 off)
              (vsub v2 (multiplyScalar (vsub v2 v1) 0%R)))
      by (rewrite vsub_zero_scale; reflexivity).
    unfold off; rewrite distance_after_offsets by lra.
    fold d; nra.
  - exists (update_found id2 (with_position (vsub v2 off))
              (update_found id1 (with_position (vadd v1 off)) cur)),
      (with_position (vadd v1 off) p1), (with_position (vsub v2 off) p2),
      (vadd v1 off), (vsub v2 off).
    split; [ reflexivity | ].
    split.
    { rewrite find_obj_update_other
        by auto using with_position_keeps_id.
      rewrite find_obj_update_same by apply with_position_keeps_id.
      rewrite H1; reflexivity. }
    split.
    { rewrite find_obj_update_same by apply with_position_keeps_id.
      rewrite find_obj_update_other by auto using with_position_keeps_id.
      rewrite H2; reflexivity. }
    split; [ apply obj_position_with_position; congruence | ].
    split; [ apply obj_position_with_position; congruence | ].
    split; [ discriminate | ].
    split; [ discriminate | ].
    unfold off; rewrite distance_after_offsets by lra.
    fold d; nra.
Qed.

Lemma X18_witness :
  exists cur' p1' p2' v1' v2',
    constraint_step exact_distance_AB_5 (exact_A_pinned, 0%R)
    = Ok (cur', (0 + Rabs (distanceTo (0, 0, 0)%R (10, 0, 0)%R
                           - target_of exact_distance_AB_5))%R) /\
    find_obj (Some "A"%string) cur' = Some p1' /\
    find_obj (Some "B"%string) cur' = Some p2' /\
    obj_position p1' = Some v1' /\ obj_position p2' = Some v2' /\
    v1' = (0, 0, 0)%R /\
    (distanceTo v1' v2' - target_of exact_distance_AB_5
     = 3 / 4 * (distanceTo (0, 0, 0)%R (10, 0, 0)%R
                - target_of exact_distance_AB_5))%R.
Proof.
  assert (Ht : target_of exact_distance_AB_5 = 5%R).
  { unfold target_of; simpl; destruct (Req_dec_T 5 0);
      [ lra | reflexivity ]. }
  destruct (X18_distance_evaluation_shrinks_error exact_distance_AB_5
              exact_A_pinned 0%R
              (sample_object "A"%string POINT (Some true) (0, 0, 0)%R)
              (sample_object "B"%string POINT None (10, 0, 0)%R)
              (0, 0, 0)%R (10, 0, 0)%R
              eq_refl eq_refl eq_refl eq_refl eq_refl)
    as (cur' & p1' & p2' & v1' & v2' & Hs & Ha & Hb & Pa & Pb & Hfix & _ & Hd).
  - rewrite distanceTo_on_x_axis; lra.
  - rewrite Ht; lra.
  - exists cur', p1', p2', v1', v2'.
    repeat split; try assumption.
    apply Hfix; reflexivity.
Defined.

Section ExactMidpointStep.
Local Open Scope R_scope.

Local Abbreviation Vec := (Point3 R).

Lemma toward_distance (T vM : Vec) (s : R) :
  0 <= s -> distanceTo (toward T vM s) T = s * distanceTo vM T.
Proof.
  intros Hs; unfold toward; rewrite !distanceTo_vlength.
  replace (vsub (vadd T (multiplyScalar (vsub vM T) s)) T)
    with (multiplyScalar (vsub vM T) s).
  - rewrite vlength_scale, Rabs_pos_eq by exact Hs; reflexivity.
  - destruct T as [[x y] z], vM as [[x' y'] z']; simpl.
    f_equal; [ f_equal | ]; ring.
Qed.

Lemma toward_one (T vM : Vec) : toward T vM 1 = vM.
Proof.
  unfold toward; destruct T as [[x y] z], vM as [[x' y'] z']; simpl.
  f_equal; [ f_equal | ]; ring.
Qed.

(** The move of the MIDPOINT branch from the fraction [s]. *)
Lemma toward_half (T vM : Vec) (s : R) :
  vadd (toward T vM s) (multiplyScalar (vsub T (toward T vM s)) 0.5)
  = toward T vM (s / 2).
Proof.
  unfold toward; destruct T as [[x y] z], vM as [[x' y'] z']; simpl.
  f_equal; [ f_equal | ]; lra.
Qed.
End ExactMidpointStep.

(** X19: what one evaluation of a Midpoint constraint does, in exact
    arithmetic. With all three operands resolved to positioned objects
    it adds the distance from M to the midpoint of A and B to the
    iteration's error; a fixed M leaves the objects as they are; a free
    M is moved half of the way to that midpoint, and every id other
    than M's resolves to the object it resolved to before. *)
Theorem X19_midpoint_evaluation_halves_gap
    (c : Constraint R) (cur : list (GeometryObject R)) (err : R)
    (M A B : GeometryObject R) (vM vA vB : Point3 R) :
  c_type c = MIDPOINT ->
  find_obj (nth_error (objectIds c) 0) cur = Some M ->
  find_obj (nth_error (objectIds c) 1) cur = Some A ->
  find_obj (nth_error (objectIds c) 2) cur = Some B ->
  obj_position M = Some vM -> obj_position A = Some vA ->
  obj_position B = Some vB ->
  exists cur',
    constraint_step c (cur, err)
    = Ok (cur', (err + distanceTo vM (midpoint_of vA vB))%R) /\
    (truthy_bool (fixed M) = true -> cur' = cur) /\
    (truthy_bool (fixed M) = false ->
     exists vM',
       find_obj (nth_error (objectIds c) 0) cur'
       = Some (with_position vM' M) /\
       distanceTo vM' (midpoint_of vA vB)
       = (distanceTo vM (midpoint_of vA vB) / 2)%R /\
       forall i, i <> nth_error (objectIds c) 0 ->
                 find_obj i cur' = find_obj i cur).
Proof.
  intros Hty HM HA HB PM PA PB.
  unfold constraint_step; rewrite Hty.
  unfold midpoint_step.
  set (midId := nth_error (objectIds c) 0) in *.
  rewrite HM, HA, HB.
  unfold read_position; rewrite PM, PA, PB; cbn [bind].
  change (multiplyScalar (vadd vA vB) lit_0_5) with (midpoint_of vA vB).
  set (T := midpoint_of vA vB).
  change (fadd err (distanceTo vM T)) with (err + distanceTo vM T)%R.
  destruct (truthy_bool (fixed M)) eqn:FM; cbn [negb].
  - exists cur; split; [ reflexivity | ].
    split; [ reflexivity | discriminate ].
  - eexists; split; [ reflexivity | ].
    split; [ discriminate | intros _ ].
    exists (vadd vM (multiplyScalar (vsub T vM) LEARNING_RATE)).
    split; [ | split ].
    + rewrite find_obj_update_same by apply with_position_keeps_id.
      rewrite HM; reflexivity.
    + rewrite <- (toward_one T vM) at 1 2.
      change (LEARNING_RATE (F := R)) with 0.5%R.
      rewrite toward_half, !toward_distance by lra.
      lra.
    + intros i Hi; apply find_obj_update_other;
        auto using with_position_keeps_id.
Qed.

Lemma X19_witness :
  exists cur',
    constraint_step exact_midpoint_MAB (exact_MAB, 0%R)
    = Ok (cur', (0 + distanceTo (0, 5, 0)%R
                       (midpoint_of (0, 0, 0)%R (2, 0, 0)%R))%R) /\
    find_obj (Some "A"%string) cur' = find_obj (Some "A"%string) exact_MAB.
Proof.
  destruct (X19_midpoint_evaluation_halves_gap exact_midpoint_MAB exact_MAB
              0%R
              (sample_object "M"%string POINT None (0, 5, 0)%R)
              (sample_object "A"%string POINT None (0, 0, 0)%R)
              (sample_object "B"%string POINT None (2, 0, 0)%R)
              (0, 5, 0)%R (0, 0, 0)%R (2, 0, 0)%R
              eq_refl eq_refl eq_refl eq_refl eq_refl eq_refl eq_refl)
    as (cur' & Hs & _ & Hfree).
  exists cur'; split; [ exact Hs | ].
  destruct (Hfree eq_refl) as (vM' & _ & _ & Hother).
  apply Hother; discriminate.
Defined.
(** * A scene with one Midpoint constraint, exactly *)

(** The MIDPOINT branch on a free M with three positioned operands. *)
Lemma midpoint_step_free (c : Constraint R) (cur : list (GeometryObject R))
    (err : R) (M A B : GeometryObject R) (vM vA vB : Point3 R) :
  find_obj (nth_error (objectIds c) 0) cur = Some M ->
  find_obj (nth_error (objectIds c) 1) cur = Some A ->
  find_obj (nth_error (objectIds c) 2) cur = Some B ->
  obj_position M = Some vM -> obj_position A = Some vA ->
  obj_position B = Some vB ->
  truthy_bool (fixed M) = false ->
  midpoint_step c (cur, err)
  = Ok (update_found (nth_error (objectIds c) 0)
          (with_position
             (vadd vM
                (multiplyScalar (vsub (midpoint_of vA vB) vM) 0.5%R)))
          cur,
        (err + distanceTo vM (midpoint_of vA vB))%R).
Proof.
  intros HM HA HB PM PA PB FM.
  unfold midpoint_step.
  set (midId := nth_error (objectIds c) 0) in *.
  rewrite HM, HA, HB.
  unfold read_position; rewrite PM, PA, PB; cbn [bind].
  rewrite FM; reflexivity.
Qed.


Section ExactMidpoint.
Local Open Scope R_scope.

Variables (objects : list (GeometryObject R)) (c : Constraint R).
Variables (iM iA iB : string) (rest : list string).
Variables (M A B : GeometryObject R) (vM vA vB : Point3 R).

Hypothesis c_midpoint : c_type c = MIDPOINT.
Hypothesis c_operands : objectIds c = iM :: iA :: iB :: rest.
Hypothesis M_found : find_obj (Some iM) objects = Some M.
Hypothesis A_found : find_obj (Some iA) objects = Some A.
Hypothesis B_found : find_obj (Some iB) objects = Some B.
Hypothesis M_free : truthy_bool (fixed M) = false.
Hypothesis M_at : obj_position M = Some vM.
Hypothesis A_at : obj_position A = Some vA.
Hypothesis B_at : obj_position B = Some vB.
Hypothesis A_other : iA <> iM.
Hypothesis B_other : iB <> iM.

Local Abbreviation T := (midpoint_of vA vB).
Local Abbreviation at_fraction := (fun s => placed objects iM (toward T vM s)).

Lemma placed_start : at_fraction 1 = objects.
Proof.
  unfold placed; rewrite toward_one.
  apply (update_found_fixpoint (Some iM) _ objects M M_found).
  apply with_position_same; exact M_at.
Qed.

Lemma placed_pass (s : R) :
  0 <= s ->
  pass [c] (at_fraction s)
  = Ok (at_fraction (s / 2), s * distanceTo vM T).
Proof.
  intros Hs.
  assert (HM : find_obj (Some iM) (at_fraction s)
               = Some (with_position (toward T vM s) M)).
  { unfold placed.
    rewrite find_obj_update_same by apply with_position_keeps_id.
    rewrite M_found; reflexivity. }
  assert (HA : find_obj (Some iA) (at_fraction s) = Some A).
  { unfold placed; rewrite find_obj_update_other;
      auto using with_position_keeps_id; congruence. }
  assert (HB : find_obj (Some iB) (at_fraction s) = Some B).
  { unfold placed; rewrite find_obj_update_other;
      auto using with_position_keeps_id; congruence. }
  assert (Hfree : truthy_bool (fixed (with_position (toward T vM s) M))
                  = false).
  { destruct (with_position_fields (toward T vM s) M)
      as (_ & _ & _ & _ & _ & _ & -> & _); exact M_free. }
  unfold pass; cbn [forEach].
  unfold constraint_step; rewrite c_midpoint.
  rewrite (midpoint_step_free c (at_fraction s) lit_0
             (with_position (toward T vM s) M) A B (toward T vM s) vA vB).
  - cbn [bind]; rewrite c_operands; cbn [nth_error].
    unfold placed; rewrite update_found_twice
      by apply with_position_keeps_id.
    rewrite (update_found_ext (Some iM) _
               (with_position (toward T vM (s / 2)))).
    + rewrite toward_distance by exact Hs.
      change (lit_0 (F := R)) with 0.
      do 2 f_equal; lra.
    + intros o; rewrite with_position_twice.
      rewrite toward_half; reflexivity.
  - rewrite c_operands; exact HM.
  - rewrite c_operands; exact HA.
  - rewrite c_operands; exact HB.
  - apply obj_position_with_position; congruence.
  - exact A_at.
  - exact B_at.
  - exact Hfree.
Qed.

(** From the fraction [s], [n] iterations end below the threshold or
    at the fraction [s / 2^n]. *)
Lemma placed_loop (g : R) :
  g = distanceTo vM T ->
  forall (n : nat) (s r : R),
    0 <= s ->
    exists s' r',
      iterate n [c] (at_fraction s) r = Ok (at_fraction s', r') /\
      0 <= s' /\ (s' * g < 0.0005 \/ s' = s / 2 ^ n).
Proof.
  intros Hg; induction n as [ | n IH ]; intros s r Hs.
  - exists s, r; split; [ reflexivity | ].
    split; [ exact Hs | right; simpl; field ].
  - cbn [iterate]; rewrite placed_pass by exact Hs; cbn [bind].
    rewrite <- Hg.
    destruct (Rlt_dec (s * g) 0.001) as [Hlt | Hge].
    + assert (Hb : fltb (s * g) (lit_0_001 (F := R)) = true)
        by (apply fltb_exact_true; exact Hlt).
      rewrite Hb.
      exists (s / 2), r; split; [ reflexivity | ].
      split; [ lra | left; lra ].
    + assert (Hb : fltb (s * g) (lit_0_001 (F := R)) = false)
        by (apply fltb_exact_false; change (0.001 <= s * g); lra).
      rewrite Hb.
      destruct (IH (s / 2) (s * g)) as (s' & r' & Hit & Hs' & Hor);
        [ lra | ].
      exists s', r'; split; [ exact Hit | ].
      split; [ exact Hs' | ].
      destruct Hor as [Hsmall | ->]; [ left; exact Hsmall | right ].
      simpl; field; apply pow_nonzero; lra.
Qed.
End ExactMidpoint.
(** X20: a single Midpoint constraint is solved, in exact arithmetic.
    In a scene whose only enabled constraint is Midpoint(M, A, B) with
    M free, all three operands positioned and M's id different from
    A's and B's, [solve] returns the stored objects with only M's
    object moved, along the segment to the midpoint of A and B: M ends
    up less than 0.0005 from that midpoint, or, when the loop ran all
    its 50 iterations without converging, at 1/2^50 of its initial
    distance. *)
Theorem X20_single_midpoint_constraint_is_solved
    (objects : list (GeometryObject R)) (constraints : list (Constraint R))
    (c : Constraint R) (iM iA iB : string) (rest : list string)
    (M A B : GeometryObject R) (vM vA vB : Point3 R) :
  activeConstraints constraints = [c] ->
  c_type c = MIDPOINT ->
  objectIds c = iM :: iA :: iB :: rest ->
  find_obj (Some iM) objects = Some M ->
  find_obj (Some iA) objects = Some A ->
  find_obj (Some iB) objects = Some B ->
  truthy_bool (fixed M) = false ->
  obj_position M = Some vM -> obj_position A = Some vA ->
  obj_position B = Some vB ->
  iA <> iM -> iB <> iM ->
  exists vM' stats,
    solve objects constraints = Ok (placed objects iM vM', stats) /\
    ((distanceTo vM' (midpoint_of vA vB) < 0.0005)%R \/
     distanceTo vM' (midpoint_of vA vB)
     = (distanceTo vM (midpoint_of vA vB) / 2 ^ 50)%R).
Proof.
  intros Hact Hty Hids HM HA HB FM PM PA PB HAM HBM.
  destruct (placed_loop objects c iM iA iB rest M A B vM vA vB
              Hty Hids HM HA HB FM PM PA PB HAM HBM
              (distanceTo vM (midpoint_of vA vB)) eq_refl
              MAX_ITER 1%R lit_0)
    as (s' & r' & Hit & Hs' & Hor); [ lra | ].
  rewrite (placed_start objects iM M vM vA vB HM PM) in Hit.
  exists (toward (midpoint_of vA vB) vM s').
  eexists; split.
  - unfold solve; cbv zeta; rewrite JSON_copy_exact, Hact, Hit; reflexivity.
  - rewrite toward_distance by exact Hs'.
    destruct Hor as [Hsmall | ->]; [ left; exact Hsmall | right ].
    unfold MAX_ITER; field; apply pow_nonzero; lra.
Qed.

Lemma X20_witness :
  exists vM' stats,
    solve exact_MAB [exact_midpoint_MAB]
    = Ok (placed exact_MAB "M" vM', stats) /\
    ((distanceTo vM' (midpoint_of (0, 0, 0)%R (2, 0, 0)%R) < 0.0005)%R \/
     distanceTo vM' (midpoint_of (0, 0, 0)%R (2, 0, 0)%R)
     = (distanceTo (0, 5, 0)%R (midpoint_of (0, 0, 0)%R (2, 0, 0)%R)
        / 2 ^ 50)%R).
Proof.
  apply (X20_single_midpoint_constraint_is_solved exact_MAB
           [exact_midpoint_MAB] exact_midpoint_MAB
           "M"%string "A"%string "B"%string []
           (sample_object "M"%string POINT None (0, 5, 0)%R)
           (sample_object "A"%string POINT None (0, 0, 0)%R)
           (sample_object "B"%string POINT None (2, 0, 0)%R));
    solve [ reflexivity | discriminate ].
Defined.
(** * More on the view framer *)

(** X21: [computeOptimalView] sees only the positions of the visible
    objects that carry one. Two object lists with the same such
    positions get the same pose, in every arithmetic; so adding or
    removing a hidden object, or an object without a position, never
    changes the pose. *)
Theorem X21_view_depends_on_framed_positions_only
    {F : Type} {NF : Number F} (objects1 objects2 : list (GeometryObject F)) :
  framed_positions objects1 = framed_positions objects2 ->
  computeOptimalView objects1 = computeOptimalView objects2.
Proof.
  intros H.
  destruct (framed_positions objects2) as [ | p ps ] eqn:E2.
  - rewrite (computeOptimalView_default objects1 H).
    rewrite (computeOptimalView_default objects2 E2); reflexivity.
  - rewrite (computeOptimalView_framed objects1 p ps H).
    rewrite (computeOptimalView_framed objects2 p ps E2); reflexivity.
Qed.

Lemma X21_witness :
  computeOptimalView exact_single_visible
  = computeOptimalView [sample_object "A"%string POINT None (1, 2, 3)%R].
Proof.
  apply (X21_view_depends_on_framed_positions_only exact_single_visible
           [sample_object "A"%string POINT None (1, 2, 3)%R]).
  reflexivity.
Defined.

Section ExactBox.
Local Open Scope R_scope.

Local Abbreviation Vec := (Point3 R).
Local Abbreviation sqrt := R_sqrt.sqrt.

Lemma least_le (xs : list R) : forall x, least x xs <= x.
Proof.
  unfold least; induction xs as [ | a xs IH ]; intros x; simpl; [ lra | ].
  apply Rle_trans with (Rmin x a); [ apply IH | apply Rmin_l ].
Qed.

Lemma greatest_ge (xs : list R) : forall x, x <= greatest x xs.
Proof.
  unfold greatest; induction xs as [ | a xs IH ]; intros x; simpl; [ lra | ].
  apply Rle_trans with (Rmax x a); [ apply Rmax_l | apply IH ].
Qed.

(** [least x xs] is the least element of [x :: xs]. *)
Lemma least_spec (xs : list R) :
  forall x, In (least x xs) (x :: xs) /\
            forall z, In z (x :: xs) -> least x xs <= z.
Proof.
  unfold least; induction xs as [ | a xs IH ]; intros x; simpl.
  - split; [ auto | intros z [<- | []]; lra ].
  - destruct (IH (Rmin x a)) as (Hin & Hle); split.
    + destruct Hin as [Heq | Hin]; [ | auto ].
      rewrite <- Heq; unfold Rmin; destruct (Rle_dec x a); auto.
    + intros z [<- | [<- | Hz]].
      * apply Rle_trans with (Rmin x a);
          [ apply Hle; left; reflexivity | apply Rmin_l ].
      * apply Rle_trans with (Rmin x a);
          [ apply Hle; left; reflexivity | apply Rmin_r ].
      * apply Hle; right; exact Hz.
Qed.

Lemma greatest_spec (xs : list R) :
  forall x, In (greatest x xs) (x :: xs) /\
            forall z, In z (x :: xs) -> z <= greatest x xs.
Proof.
  unfold greatest; induction xs as [ | a xs IH ]; intros x; simpl.
  - split; [ auto | intros z [<- | []]; lra ].
  - destruct (IH (Rmax x a)) as (Hin & Hle); split.
    + destruct Hin as [Heq | Hin]; [ | auto ].
      rewrite <- Heq; unfold Rmax; destruct (Rle_dec x a); auto.
    + intros z [<- | [<- | Hz]].
      * apply Rle_trans with (Rmax x a);
          [ apply Rmax_l | apply Hle; left; reflexivity ].
      * apply Rle_trans with (Rmax x a);
          [ apply Rmax_r | apply Hle; left; reflexivity ].
      * apply Hle; right; exact Hz.
Qed.

Lemma least_permutation (x y : R) (xs ys : list R) :
  Permutation (x :: xs) (y :: ys) -> least x xs = least y ys.
Proof.
  intros HP.
  destruct (least_spec xs x) as (Hin1 & Hle1).
  destruct (least_spec ys y) as (Hin2 & Hle2).
  apply Rle_antisym.
  - apply Hle1, (Permutation_in _ (Permutation_sym HP)), Hin2.
  - apply Hle2, (Permutation_in _ HP), Hin1.
Qed.

Lemma greatest_permutation (x y : R) (xs ys : list R) :
  Permutation (x :: xs) (y :: ys) -> greatest x xs = greatest y ys.
Proof.
  intros HP.
  destruct (greatest_spec xs x) as (Hin1 & Hle1).
  destruct (greatest_spec ys y) as (Hin2 & Hle2).
  apply Rle_antisym.
  - apply Hle2, (Permutation_in _ HP), Hin1.
  - apply Hle1, (Permutation_in _ (Permutation_sym HP)), Hin2.
Qed.

(** The pose for a non-empty list of framed positions. *)
Lemma computeOptimalView_exact (objects : list (GeometryObject R))
    (p : Vec) (ps : list Vec) :
  framed_positions objects = p :: ps ->
  computeOptimalView objects
  = Build_CameraPose
      (along (aabb_center p ps) (aabb_maxDim p ps * 4 + 5) unit_1_08_1)
      (aabb_center p ps).
Proof.
  destruct p as [[x y] z]; intros H.
  rewrite (computeOptimalView_framed objects (x, y, z) ps H).
  rewrite expand_fold_aabb, normalize_1_08_1.
  unfold aabb_center, aabb_maxDim, aabb_min, aabb_max, along, unit_1_08_1.
  cbn -[R_sqrt.sqrt Rdiv least greatest].
  f_equal; (f_equal; [ f_equal | ]); lra.
Qed.

Lemma unit_1_08_1_length : vlength unit_1_08_1 = 1.
Proof.
  unfold unit_1_08_1; cbn -[R_sqrt.sqrt Rdiv].
  set (L := 1 * 1 + 0.8 * 0.8 + 1 * 1).
  assert (HL : 0 < L) by (unfold L; lra).
  assert (Hlen : 0 < sqrt L) by (apply sqrt_lt_R0; exact HL).
  replace (1 / sqrt L * (1 / sqrt L) + 0.8 / sqrt L * (0.8 / sqrt L)
           + 1 / sqrt L * (1 / sqrt L))
    with (L / (sqrt L * sqrt L)).
  - rewrite sqrt_sqrt by lra.
    replace (L / L) with 1 by (field; lra).
    apply sqrt_1.
  - unfold L in *; field; lra.
Qed.

Lemma along_distance (center u : Vec) (d : R) :
  0 <= d -> distanceTo (along center d u) center = d * vlength u.
Proof.
  intros Hd; rewrite distanceTo_vlength.
  replace (vsub (along center d u) center) with (multiplyScalar u d).
  - rewrite vlength_scale, Rabs_pos_eq by exact Hd; reflexivity.
  - destruct center as [[x y] z], u as [[a b] c]; simpl.
    f_equal; [ f_equal | ]; ring.
Qed.

Lemma aabb_maxDim_nonneg (p : Vec) (ps : list Vec) : 0 <= aabb_maxDim p ps.
Proof.
  destruct p as [[x y] z]; unfold aabb_maxDim, aabb_min, aabb_max.
  pose proof (least_le (xs_of ps) x).
  pose proof (greatest_ge (xs_of ps) x).
  apply Rle_trans with (greatest x (xs_of ps) - least x (xs_of ps));
    [ lra | ].
  eapply Rle_trans; [ apply Rmax_l | apply Rmax_l ].
Qed.
End ExactBox.
(** X22: how far the camera is. In exact arithmetic, when some visible
    object carries a position, the camera is placed exactly
    [maxDim * 4 + 5] from its target, which is never less than 5, and
    the target lies inside the bounding box of the framed positions on
    every axis. *)
Theorem X22_camera_distance
    (objects : list (GeometryObject R)) (p : Point3 R)
    (ps : list (Point3 R)) :
  framed_positions objects = p :: ps ->
  let pose := computeOptimalView objects in
  distanceTo (cam_position pose) (cam_target pose)
  = (aabb_maxDim p ps * 4 + 5)%R /\
  (5 <= distanceTo (cam_position pose) (cam_target pose))%R /\
  (let '(lx, ly, lz) := aabb_min p ps in
   let '(hx, hy, hz) := aabb_max p ps in
   let '(tx, ty, tz) := cam_target pose in
   (lx <= tx <= hx /\ ly <= ty <= hy /\ lz <= tz <= hz)%R).
Proof.
  intros H; cbv zeta.
  rewrite (computeOptimalView_exact objects p ps H).
  cbn [cam_position cam_target].
  pose proof (aabb_maxDim_nonneg p ps) as Hdim.
  rewrite along_distance, unit_1_08_1_length by lra.
  split; [ lra | split; [ lra | ] ].
  destruct p as [[x y] z]; unfold aabb_center, aabb_min, aabb_max.
  pose proof (least_le (xs_of ps) x).
  pose proof (greatest_ge (xs_of ps) x).
  pose proof (least_le (ys_of ps) y).
  pose proof (greatest_ge (ys_of ps) y).
  pose proof (least_le (zs_of ps) z).
  pose proof (greatest_ge (zs_of ps) z).
  lra.
Qed.

Lemma X22_witness :
  distanceTo (cam_position (computeOptimalView exact_single_visible))
    (cam_target (computeOptimalView exact_single_visible))
  = (aabb_maxDim (1, 2, 3)%R [] * 4 + 5)%R.
Proof.
  exact (proj1 (X22_camera_distance exact_single_visible (1, 2, 3)%R []
                  eq_refl)).
Defined.

(** X23: the pose does not depend on the order of the objects, in
    exact arithmetic: any permutation of the stored objects is framed
    the same. *)
Theorem X23_view_is_order_independent
    (objects1 objects2 : list (GeometryObject R)) :
  Permutation objects1 objects2 ->
  computeOptimalView objects1 = computeOptimalView objects2.
Proof.
  intros HP.
  assert (HF : Permutation (framed_positions objects1)
                 (framed_positions objects2))
    by (unfold framed_positions; apply Permutation_flat_map; exact HP).
  destruct (framed_positions objects1) as [ | [[x y] z] ps ] eqn:E1;
    destruct (framed_positions objects2) as [ | [[x' y'] z'] qs ] eqn:E2.
  - rewrite (computeOptimalView_default objects1 E1).
    rewrite (computeOptimalView_default objects2 E2); reflexivity.
  - apply Permutation_nil in HF; discriminate HF.
  - apply Permutation_sym, Permutation_nil in HF; discriminate HF.
  - rewrite (computeOptimalView_exact objects1 _ _ E1).
    rewrite (computeOptimalView_exact objects2 _ _ E2).
    assert (Hx : Permutation (x :: xs_of ps) (x' :: xs_of qs))
      by exact (Permutation_map (fun q => fst (fst q)) HF).
    assert (Hy : Permutation (y :: ys_of ps) (y' :: ys_of qs))
      by exact (Permutation_map (fun q => snd (fst q)) HF).
    assert (Hz : Permutation (z :: zs_of ps) (z' :: zs_of qs))
      by exact (Permutation_map (fun q => snd q) HF).
    unfold aabb_center, aabb_maxDim, aabb_min, aabb_max.
    rewrite (least_permutation _ _ _ _ Hx), (least_permutation _ _ _ _ Hy),
      (least_permutation _ _ _ _ Hz), (greatest_permutation _ _ _ _ Hx),
      (greatest_permutation _ _ _ _ Hy), (greatest_permutation _ _ _ _ Hz).
    reflexivity.
Qed.

Lemma X23_witness :
  computeOptimalView (rev exact_MAB) = computeOptimalView exact_MAB.
Proof.
  apply X23_view_is_order_independent.
  apply Permutation_sym, Permutation_rev.
Defined.
(** * Colors and meshes of the scene renderer *)

Lemma prefix_refl (s : string) : String.prefix s s = true.
Proof.
  induction s as [ | a s IH ]; simpl; [ reflexivity | ].
  destruct (Ascii.ascii_dec a a); [ exact IH | contradiction ].
Qed.

(** A string of more than 7 code units and its first seven. *)
Lemma long_string_head (s : string) :
  7 < String.length s ->
  exists c1 c2 c3 c4 c5 c6 c7 rest,
    s = String c1 (String c2 (String c3 (String c4 (String c5 (String c6
          (String c7 rest)))))) /\
    String.substring 0 7 s
    = String c1 (String c2 (String c3 (String c4 (String c5 (String c6
        (String c7 EmptyString)))))).
Proof.
  intros H.
  destruct s as [ | c1 [ | c2 [ | c3 [ | c4 [ | c5 [ | c6 [ | c7 rest ]]]]]]];
    simpl in H; try lia.
  exists c1, c2, c3, c4, c5, c6, c7, rest; split; [ reflexivity | ].
  simpl; destruct rest; reflexivity.
Qed.

(** X24: what [sanitizeColor] returns. A string of the form #RRGGBB
    (six hex digits of either case) is returned as it is. Whatever the
    input, the result is the default color or a string of exactly 7
    code units that starts with '#' and is a prefix of the input. A
    longer input that starts with '#' is cut to its first 7 code units
    without looking at them, so the result is a valid #RRGGBB color
    exactly when the six code units after the '#' are hex digits. *)
Theorem X24_sanitizeColor_result
    (color : option string) (defaultColor : string) :
  (forall col, color = Some col -> is_hex_color col = true ->
               sanitizeColor color defaultColor = col) /\
  (sanitizeColor color defaultColor = defaultColor \/
   exists col,
     color = Some col /\
     String.length (sanitizeColor color defaultColor) = 7 /\
     starts_with_hash (sanitizeColor color defaultColor) = true /\
     String.prefix (sanitizeColor color defaultColor) col = true) /\
  (forall col, color = Some col -> starts_with_hash col = true ->
               7 < String.length col ->
               sanitizeColor color defaultColor = String.substring 0 7 col /\
               is_hex_color (sanitizeColor color defaultColor)
               = all_chars is_hex_digit (String.substring 1 6 col)).
Proof.
  split; [ | split ].
  - intros col -> Hhex; unfold sanitizeColor.
    destruct col as [ | a rest ]; [ discriminate Hhex | ].
    simpl in Hhex.
    apply andb_prop in Hhex as (Hhex & Hall).
    apply andb_prop in Hhex as (Ha & Hlen).
    apply Nat.eqb_eq in Hlen.
    cbn [String.eqb starts_with_hash String.length].
    rewrite Ha, Hlen; cbn [Nat.ltb Nat.leb andb].
    cbn [is_hex_color]; rewrite Ha, Hlen, Hall; reflexivity.
  - destruct color as [col|]; [ | left; reflexivity ].
    unfold sanitizeColor.
    destruct (String.eqb col EmptyString); [ left; reflexivity | ].
    destruct (starts_with_hash col) eqn:Hh; cbn [andb].
    + destruct (7 <? String.length col) eqn:Hlen.
      * right; exists col; split; [ reflexivity | ].
        apply Nat.ltb_lt in Hlen.
        destruct (long_string_head col Hlen)
          as (c1 & c2 & c3 & c4 & c5 & c6 & c7 & rest & -> & ->).
        split; [ reflexivity | ].
        split; [ exact Hh | ].
        simpl.
        repeat match goal with
               | |- context [Ascii.ascii_dec ?a ?a] =>
                   destruct (Ascii.ascii_dec a a); [ | contradiction ]
               end.
        destruct rest; reflexivity.
      * destruct (is_hex_color col) eqn:Hc; cbn [negb];
          [ right | left; reflexivity ].
        exists col; split; [ reflexivity | ].
        destruct col as [ | a rest ]; [ discriminate Hc | ].
        simpl in Hc.
        apply andb_prop in Hc as (Hc & _).
        apply andb_prop in Hc as (_ & Hl); apply Nat.eqb_eq in Hl.
        split; [ simpl; rewrite Hl; reflexivity | ].
        split; [ exact Hh | apply prefix_refl ].
    + destruct (is_hex_color col) eqn:Hc; cbn [negb];
        [ | left; reflexivity ].
      destruct col as [ | a rest ]; [ discriminate Hc | ].
      simpl in Hc, Hh; rewrite Hh in Hc; discriminate Hc.
  - intros col -> Hh Hlen; unfold sanitizeColor.
    destruct (long_string_head col Hlen)
      as (c1 & c2 & c3 & c4 & c5 & c6 & c7 & rest & -> & Hsub).
    rewrite Hsub, Hh.
    assert (Hl : (7 <? String.length
                    (String c1 (String c2 (String c3 (String c4 (String c5
                       (String c6 (String c7 rest)))))))) = true)
      by (apply Nat.ltb_lt; exact Hlen).
    rewrite Hl; cbn [String.eqb andb].
    split; [ reflexivity | ].
    simpl in Hh; simpl; rewrite Hh.
    destruct rest; reflexivity.
Qed.

Lemma X24_witness :
  sanitizeColor (Some "#3b82f6"%string) "#a1a1aa" = "#3b82f6"%string /\
  sanitizeColor (Some "#3b82f6ff"%string) "#a1a1aa" = "#3b82f6"%string.
Proof.
  split.
  - exact (proj1 (X24_sanitizeColor_result (Some "#3b82f6"%string)
                    "#a1a1aa") "#3b82f6"%string eq_refl eq_refl).
  - refine (proj1 (proj2 (proj2 (X24_sanitizeColor_result
                                   (Some "#3b82f6ff"%string) "#a1a1aa"))
                     "#3b82f6ff"%string eq_refl eq_refl _)).
    simpl; lia.
Defined.
(** X25: the normalization of [addObject] and what the meshes resolve.
    For a Segment payload for which SegmentMesh already finds two
    non-empty endpoint ids, it finds the same two after normalization;
    a Segment payload that has its endpoints only in a nested
    [data.points] list, for which SegmentMesh finds no id, gets them
    as endpoint ids by the normalization; and PolygonMesh reads the
    same vertex ids from a Polygon payload before and after
    normalization. *)
Theorem X25_normalization_and_mesh_ids
    {F : Type} (fresh : string) (rawObj : GeometryObject F) :
  (forall a b,
      obj_type rawObj = SEGMENT ->
      segment_point_ids rawObj = (Some a, Some b) ->
      a <> EmptyString -> b <> EmptyString ->
      segment_point_ids (normalize_object fresh rawObj) = (Some a, Some b)) /\
  (forall d a b l,
      obj_type rawObj = SEGMENT ->
      points rawObj = None ->
      data rawObj = Some d ->
      data_p1 d = None -> data_p2 d = None ->
      data_points d = Some (a :: b :: l) ->
      a <> EmptyString -> b <> EmptyString ->
      segment_point_ids rawObj = (None, None) /\
      segment_point_ids (normalize_object fresh rawObj) = (Some a, Some b)) /\
  (obj_type rawObj = POLYGON ->
   polygon_point_ids (normalize_object fresh rawObj)
   = polygon_point_ids rawObj).
Proof.
  destruct rawObj as [i ty n col vis sel fx pts dat].
  cbn [obj_type points data].
  split; [ | split ].
  - intros a b -> Hids Ha Hb.
    apply truthy_string_some in Ha, Hb.
    unfold normalize_object, segment_point_ids, data_field, no_points in *;
      cbn -[truthy_string nth_error] in *.
    destruct (truthy_string i); destruct vis as [v|];
      cbn -[truthy_string nth_error];
      (destruct pts as [[ | x l]|]; cbn -[truthy_string nth_error] in *;
       [ | exact Hids | ];
       (destruct dat as [d|]; cbn -[truthy_string nth_error] in *;
        [ | exact Hids ];
        cbn [nth_error] in Hids; cbn [truthy_string] in Hids;
        cbn [negb andb] in Hids;
        destruct (truthy_string (data_p1 d)) eqn:T1;
        destruct (truthy_string (data_p2 d)) eqn:T2;
        cbn [andb] in *;
        try (injection Hids as H1 H2; try discriminate H1;
             try discriminate H2);
        try (rewrite H1, H2 in *; cbn -[truthy_string];
             rewrite Ha, Hb; reflexivity))).
  - intros d a b l -> -> -> Hp1 Hp2 Hl Ha Hb.
    apply String.eqb_neq in Ha, Hb.
    unfold normalize_object, segment_point_ids, data_field, no_points.
    destruct i as [[ | c0 s0]|]; destruct vis as [v|];
      cbn; rewrite ?Hp1, ?Hp2, ?Hl; cbn; rewrite ?Hp1, ?Hp2, ?Hl; cbn;
      rewrite ?Ha, ?Hb; cbn; (split; reflexivity).
  - intros ->.
    unfold normalize_object, polygon_point_ids, no_points;
      cbn -[truthy_string].
    destruct (truthy_string i); destruct vis as [v|];
      cbn -[truthy_string];
      destruct pts as [[ | x l]|]; cbn -[truthy_string];
      destruct dat as [d|]; cbn -[truthy_string]; try reflexivity;
      destruct (data_points d) as [[ | y m]|] eqn:Ed;
      cbn -[truthy_string]; rewrite ?Ed; reflexivity.
Qed.
Lemma X25_witness :
  segment_point_ids (normalize_object "k3x9q2m1a" segment_payload)
  = (Some "A"%string, Some "B"%string).
Proof.
  apply (proj1 (X25_normalization_and_mesh_ids "k3x9q2m1a" segment_payload));
    solve [ reflexivity | discriminate ].
Defined.

Lemma flat_map_length_const {A B : Type} (f : A -> list B) (k : nat)
    (l : list A) :
  (forall a, List.length (f a) = k) ->
  List.length (flat_map f l) = k * List.length l.
Proof.
  intros H; induction l as [ | a l IH ]; simpl; [ lia | ].
  rewrite length_app, H, IH; lia.
Qed.

(** X26: the triangle fan of PolygonMesh. Vertex ids that do not
    resolve to a positioned object are dropped; with fewer than three
    resolved vertices nothing is drawn, and with [n >= 3] of them the
    vertex array holds [n - 2] triangles, 9 numbers each. *)
Theorem X26_polygon_fan_size
    {F : Type} (obj : GeometryObject F) (allObjects : list (GeometryObject F)) :
  let n := List.length (polygon_points obj allObjects) in
  n <= List.length (polygon_point_ids obj) /\
  (n < 3 -> polygon_vertices obj allObjects = None) /\
  (3 <= n ->
   exists vertices,
     polygon_vertices obj allObjects = Some vertices /\
     List.length vertices = 9 * (n - 2)).
Proof.
  cbv zeta; split; [ | split ].
  - unfold polygon_points.
    induction (polygon_point_ids obj) as [ | id ids IH ]; simpl; [ lia | ].
    rewrite length_app.
    destruct (find_obj (Some id) allObjects) as [p|]; simpl; [ | lia ].
    destruct (obj_position p); simpl; lia.
  - intros Hn; unfold polygon_vertices.
    destruct (polygon_points obj allObjects) as [ | first rest ];
      [ reflexivity | ].
    apply Nat.ltb_lt in Hn; rewrite Hn; reflexivity.
  - intros Hn; unfold polygon_vertices.
    destruct (polygon_points obj allObjects) as [ | first rest ] eqn:E;
      [ simpl in Hn; lia | ].
    assert (Hge : (List.length (first :: rest) <? 3) = false)
      by (apply Nat.ltb_ge; exact Hn).
    rewrite Hge.
    eexists; split; [ reflexivity | ].
    rewrite (flat_map_length_const _ 9).
    + rewrite length_seq; reflexivity.
    + intros i.
      assert (H3 : forall v : Point3 F, List.length (coordinates v) = 3)
        by (intros [[x y] z]; reflexivity).
      rewrite !length_app, !H3; reflexivity.
Qed.

Lemma X26_witness :
  exists vertices,
    polygon_vertices
      (Build_GeometryObject (Some "f"%string) POLYGON "f"%string None
         (Some true) None None (Some ["A"; "nobody"; "B"; "M"]%string) None)
      exact_MAB
    = Some vertices /\
    List.length vertices = 9.
Proof.
  destruct (X26_polygon_fan_size
              (Build_GeometryObject (Some "f"%string) POLYGON "f"%string None
                 (Some true) None None
                 (Some ["A"; "nobody"; "B"; "M"]%string) None)
              exact_MAB) as (_ & _ & H).
  destruct H as (vertices & Hv & Hl); [ simpl; lia | ].
  exists vertices; split; [ exact Hv | exact Hl ].
Defined.
